(** * ares.populations.Galaxy: a shallow embedding of [GalaxyPopulation]

    The module [ares/populations/Galaxy.py] turns halo statistics and
    luminosity-function constraints into star-formation efficiencies,
    star-formation-rate densities and emissivities.  This development
    embeds its functions and lazily cached properties in Rocq and proves
    properties of them.

    Conventions of the embedding.
    - Python floats are IEEE binary64 numbers: Rocq's primitive [float].
      Python's [/] on floats raises [ZeroDivisionError] on a zero divisor
      ([pydiv]); numpy's [/] on arrays and numpy scalars does not ([div]).
    - A method is a computation in the monad [M]: it takes the instance's
      attribute store ([State], the [hasattr]-guarded caches), and returns a
      result or a raised exception together with the new store.  A store
      written before a [raise] stays written, as in Python.
    - The collaborators that live outside this module (cosmology, halo mass
      function, spectral source, physical constants, scipy, numpy and mpmath
      routines) are parameters, gathered in records. *)

From Stdlib Require Import Floats String Ascii List Bool ZArith Lia.
Import ListNotations.

Set Warnings "-inexact-float".

(* ================================================================== *)
(** * Python values, exceptions and results *)
(* ================================================================== *)

(** The exceptions this module raises, or that the Python operations it
    uses raise. *)
Inductive exn : Type :=
| ValueError (msg : string)
| AttributeError (msg : string)
| TypeError (msg : string)
| NameError (name : string)
| IndexError
| ZeroDivisionError
| RuntimeError (msg : string).

Inductive Res (A : Type) : Type :=
| Ok (a : A)
| Raise (e : exn).
Arguments Ok {A} a.
Arguments Raise {A} e.

Definition res_bind {A B} (r : Res A) (k : A -> Res B) : Res B :=
  match r with
  | Ok a => k a
  | Raise e => Raise e
  end.

(** Python's float division. *)
Definition pydiv (x y : float) : Res float :=
  if (y =? 0)%float then Raise ZeroDivisionError else Ok (x / y)%float.

(** Python 2 orders [None] below every number: [None < x] is [True] and
    [None > x] is [False]. *)
Definition py2_lt (a : option float) (b : float) : bool :=
  match a with
  | None => true
  | Some x => (x <? b)%float
  end.

Definition py2_gt (a : option float) (b : float) : bool :=
  match a with
  | None => false
  | Some x => (b <? x)%float
  end.

(** A configuration value that is either a scalar or an array. *)
Inductive pynum : Type :=
| PyScalar (x : float)
| PyArray (xs : list float).

(** [a[i]] for a non-negative index. *)
Definition getitem {A} (xs : list A) (i : nat) : Res A :=
  match nth_error xs i with
  | Some x => Ok x
  | None => Raise IndexError
  end.

Definition pynum_getitem (v : pynum) (i : nat) : Res float :=
  match v with
  | PyScalar _ => Raise (TypeError "'float' object has no attribute '__getitem__'")
  | PyArray xs => getitem xs i
  end.

(** numpy indexing and slicing with a possibly negative index. *)
Definition np_index {A} (xs : list A) (j : Z) : Res A :=
  let n := Z.of_nat (length xs) in
  let k := if (j <? 0)%Z then (j + n)%Z else j in
  if ((k <? 0) || (n <=? k))%Z then Raise IndexError
  else getitem xs (Z.to_nat k).

Definition slice_bound (n j : Z) : nat :=
  Z.to_nat (if (j <? 0)%Z then Z.max 0 (j + n) else Z.min j n).

(** [xs[j:]] *)
Definition slice_from {A} (xs : list A) (j : Z) : list A :=
  skipn (slice_bound (Z.of_nat (length xs)) j) xs.

(** [xs[j:k]] *)
Definition slice {A} (xs : list A) (j k : Z) : list A :=
  let n := Z.of_nat (length xs) in
  let a := slice_bound n j in
  let b := slice_bound n k in
  firstn (b - a) (skipn a xs).

(* ================================================================== *)
(** * Strings *)
(* ================================================================== *)

(** [s.replace(' ', '')] *)
Fixpoint remove_spaces (s : string) : string :=
  match s with
  | EmptyString => EmptyString
  | String c r =>
      if Ascii.eqb c " "%char then remove_spaces r
      else String c (remove_spaces r)
  end.

Definition lower_ascii (c : ascii) : ascii :=
  let n := nat_of_ascii c in
  if (65 <=? n)%nat && (n <=? 90)%nat then ascii_of_nat (n + 32) else c.

(** [s.lower()] of a Python 2 byte string. *)
Fixpoint lower (s : string) : string :=
  match s with
  | EmptyString => EmptyString
  | String c r => String (lower_ascii c) (lower r)
  end.

(** The characters Python's [str.strip] removes. *)
Definition is_whitespace (c : ascii) : bool :=
  let n := nat_of_ascii c in
  (n =? 32)%nat || ((9 <=? n)%nat && (n <=? 13)%nat).

Fixpoint lstrip (s : string) : string :=
  match s with
  | EmptyString => EmptyString
  | String c r => if is_whitespace c then lstrip r else s
  end.

Fixpoint rstrip (s : string) : string :=
  match s with
  | EmptyString => EmptyString
  | String c r =>
      match rstrip r with
      | EmptyString => if is_whitespace c then EmptyString else String c EmptyString
      | r' => String c r'
      end
  end.

(** The normalization in the words of the specification: "whitespace
    stripped, lower-cased". *)
Definition strip_lower (s : string) : string := lower (rstrip (lstrip s)).

(* ================================================================== *)
(** * Collaborators and configuration *)
(* ================================================================== *)

(** [pop.cosm]: the cosmology object. *)
Record Cosmology : Type := {
  rho_m_z0 : float;
  rho_b_z0 : float;
  fbaryon : float;
  g_per_baryon : float
}.

(** [pop.src]: the spectral source built by the [_Source] class. *)
Record Source : Type := {
  Spectrum : float -> float;
  AveragePhotonEnergy : float -> float -> float
}.

(** [pop.halos]: the halo mass function tables.  [MF_ngtm z] is the table
    [halos.MF.ngtm] after [halos.MF.update(z=z)]. *)
Record Halos : Type := {
  halos_z : list float;
  halos_M : list float;
  halos_logM : list float;
  halos_dndm : list (list float);
  MF_ngtm : float -> list float;
  VirialMass : float -> float -> float -> float
}.

(** [pf['pop_fstar']]: a number, or a function of [(z, M)]. *)
Inductive fstar_param : Type :=
| FstarConst (f : float)
| FstarFunction (f : float -> float -> float).

(** [pf['pop_constraints']]: the luminosity-function constraints. *)
Record Constraints : Type := {
  c_z : list float;
  c_alpha : list float;
  c_phi_star : list float;
  c_M_star : list float
}.

(** [pop.pf]: the parameter file.  [pop_sfrd] and [pop_Macc] are [None] or
    a callable; a literature name is resolved to the callable it names by
    [read_lit], outside this module. *)
Record ParameterFile : Type := {
  pop_model : string;
  pop_yield : float;
  pop_yield_units : string;
  pop_EminNorm : float;
  pop_EmaxNorm : float;
  pop_Emin : float;
  pop_Emax : float;
  pop_Emin_xray : float;
  pop_fesc : float;
  pop_fstar : fstar_param;
  pop_sfrd : option (float -> float);
  pop_Macc : option (float -> float -> float);
  pop_Mmin : option pynum;
  pop_Tmin : float;
  mu : float;
  pop_logM : list float;
  pop_constraints : Constraints
}.

(** The population: its parameter file and collaborators.  [zform] and
    [dfcolldt] are inherited from [HaloPopulation]; [mAB_to_L] is
    [magsys.mAB_to_L(mag, z)]. *)
Record Population : Type := {
  pf : ParameterFile;
  cosm : Cosmology;
  halos : Halos;
  src : Source;
  zform : float;
  dfcolldt : float -> float;
  mAB_to_L : float -> float -> float
}.

(** [ares.physics.Constants].  [cm_per_mpc_cubed] is the value of the
    expression [cm_per_mpc**3]. *)
Record Constants : Type := {
  s_per_yr : float;
  g_per_msun : float;
  erg_per_ev : float;
  rhodot_cgs : float;
  cm_per_mpc_cubed : float
}.

(** The numerical routines of numpy, scipy and mpmath that the module
    calls and that are not modelled further.
    - [ln10] is the module-level [log10 = np.log(10.)];
    - [pow10 x] is [10**x], [np_pow x y] is [x**y] on numpy floats;
    - [simps y x] is [scipy.integrate.simps(y, x=x)];
    - [quad f a b] is [scipy.integrate.quad(f, a, b)[0]];
    - [gammainc a x] is [mpmath.gammainc(a, x)];
    - [fsolve f x0 factor maxfev] is
      [scipy.optimize.fsolve(f, x0, factor=factor, maxfev=maxfev)[0]];
    - [curve_fit f y p0] is the first component of
      [scipy.optimize.curve_fit(f, x, y, p0=p0)], with [x] already given
      to [f];
    - [interp1d_cubic x y] is [scipy.interpolate.interp1d(x, y,
      kind='cubic')], a callable. *)
Record Numerics : Type := {
  ln10 : float;
  np_log10 : float -> float;
  pow10 : float -> float;
  np_pow : float -> float -> float;
  simps : list float -> list float -> float;
  quad : (float -> float) -> float -> float -> float;
  gammainc : float -> float -> float;
  fsolve : (float -> float) -> float -> float -> Z -> float;
  curve_fit : (list float -> Res (list float)) -> list float -> list float ->
              Res (list float);
  interp1d_cubic : list float -> list float -> Res (float -> Res float)
}.

(* ================================================================== *)
(** * The instance's attribute store and the method monad *)
(* ================================================================== *)

(** The attributes that the lazily cached properties create on the
    instance: [None] (or [false], or the empty dictionary) while the
    attribute does not exist.  [_constraints] holds the ['L_star'] list of
    the cached copy of [pf['pop_constraints']]; the other keys of the copy
    are those of the parameter file.  [_conversion_factors] and
    [_eV_per_phot] are the dictionaries keyed by [(Emin, Emax)].

    The store records the cached yield, the attributes of the abundance
    match and the two band dictionaries.  The instance has other
    attributes, created on first use, that the store does not record:
    [_sfrd_] (property [_sfrd]), [_Source_], [_src_kwargs] and [_src]
    (property [src]), [_Macc], [_rhoL_from_sfrd], [_magsys] and
    [_fstar_cov_] (the covariance that the fit returns beside the
    coefficients).  Each is assigned once; what the methods read of them
    is taken below from the population, not from the store.  What is
    said of the store is said of the recorded attributes. *)
Record State : Type := mkState {
  _yield_per_sfr : option float;
  _Mmin : option pynum;
  _eta : option (list float);
  _constraints : option (list float);
  _Marr_ : option (list float);
  _fstar_ham_pts : option (list (list float));
  _fstar_coeff_ : option (list float);
  _fstar : bool;
  _sfr_ham_ : option (list (list float));
  _sfrd_ham_tab_ : option (list float);
  _Mmin_of_z : option (list float);
  _sfrd_ham_ : option (float -> Res float);
  _conversion_factors : list (float * float * float);
  _eV_per_phot : list (float * float * float)
}.

(** The store of a newly constructed instance. *)
Definition fresh : State :=
  mkState None None None None None None None false None None None None []
          [].

Definition set_yield_per_sfr v (s : State) : State :=
  mkState v (_Mmin s) (_eta s) (_constraints s) (_Marr_ s) (_fstar_ham_pts s)
          (_fstar_coeff_ s) (_fstar s) (_sfr_ham_ s) (_sfrd_ham_tab_ s)
          (_Mmin_of_z s) (_sfrd_ham_ s) (_conversion_factors s)
          (_eV_per_phot s).
Definition set_Mmin v (s : State) : State :=
  mkState (_yield_per_sfr s) v (_eta s) (_constraints s) (_Marr_ s)
          (_fstar_ham_pts s) (_fstar_coeff_ s) (_fstar s) (_sfr_ham_ s)
          (_sfrd_ham_tab_ s) (_Mmin_of_z s) (_sfrd_ham_ s)
          (_conversion_factors s)
          (_eV_per_phot s).
Definition set_eta v (s : State) : State :=
  mkState (_yield_per_sfr s) (_Mmin s) v (_constraints s) (_Marr_ s)
          (_fstar_ham_pts s) (_fstar_coeff_ s) (_fstar s) (_sfr_ham_ s)
          (_sfrd_ham_tab_ s) (_Mmin_of_z s) (_sfrd_ham_ s)
          (_conversion_factors s)
          (_eV_per_phot s).
Definition set_constraints v (s : State) : State :=
  mkState (_yield_per_sfr s) (_Mmin s) (_eta s) v (_Marr_ s)
          (_fstar_ham_pts s) (_fstar_coeff_ s) (_fstar s) (_sfr_ham_ s)
          (_sfrd_ham_tab_ s) (_Mmin_of_z s) (_sfrd_ham_ s)
          (_conversion_factors s)
          (_eV_per_phot s).
Definition set_Marr v (s : State) : State :=
  mkState (_yield_per_sfr s) (_Mmin s) (_eta s) (_constraints s) v
          (_fstar_ham_pts s) (_fstar_coeff_ s) (_fstar s) (_sfr_ham_ s)
          (_sfrd_ham_tab_ s) (_Mmin_of_z s) (_sfrd_ham_ s)
          (_conversion_factors s)
          (_eV_per_phot s).
Definition set_fstar_ham_pts v (s : State) : State :=
  mkState (_yield_per_sfr s) (_Mmin s) (_eta s) (_constraints s) (_Marr_ s)
          v (_fstar_coeff_ s) (_fstar s) (_sfr_ham_ s) (_sfrd_ham_tab_ s)
          (_Mmin_of_z s) (_sfrd_ham_ s) (_conversion_factors s)
          (_eV_per_phot s).
Definition set_fstar_coeff v (s : State) : State :=
  mkState (_yield_per_sfr s) (_Mmin s) (_eta s) (_constraints s) (_Marr_ s)
          (_fstar_ham_pts s) v (_fstar s) (_sfr_ham_ s) (_sfrd_ham_tab_ s)
          (_Mmin_of_z s) (_sfrd_ham_ s) (_conversion_factors s)
          (_eV_per_phot s).
Definition set_fstar v (s : State) : State :=
  mkState (_yield_per_sfr s) (_Mmin s) (_eta s) (_constraints s) (_Marr_ s)
          (_fstar_ham_pts s) (_fstar_coeff_ s) v (_sfr_ham_ s)
          (_sfrd_ham_tab_ s) (_Mmin_of_z s) (_sfrd_ham_ s)
          (_conversion_factors s)
          (_eV_per_phot s).
Definition set_sfr_ham v (s : State) : State :=
  mkState (_yield_per_sfr s) (_Mmin s) (_eta s) (_constraints s) (_Marr_ s)
          (_fstar_ham_pts s) (_fstar_coeff_ s) (_fstar s) v
          (_sfrd_ham_tab_ s) (_Mmin_of_z s) (_sfrd_ham_ s)
          (_conversion_factors s)
          (_eV_per_phot s).
Definition set_sfrd_ham_tab v (s : State) : State :=
  mkState (_yield_per_sfr s) (_Mmin s) (_eta s) (_constraints s) (_Marr_ s)
          (_fstar_ham_pts s) (_fstar_coeff_ s) (_fstar s) (_sfr_ham_ s) v
          (_Mmin_of_z s) (_sfrd_ham_ s) (_conversion_factors s)
          (_eV_per_phot s).
Definition set_Mmin_of_z v (s : State) : State :=
  mkState (_yield_per_sfr s) (_Mmin s) (_eta s) (_constraints s) (_Marr_ s)
          (_fstar_ham_pts s) (_fstar_coeff_ s) (_fstar s) (_sfr_ham_ s)
          (_sfrd_ham_tab_ s) v (_sfrd_ham_ s) (_conversion_factors s)
          (_eV_per_phot s).
Definition set_sfrd_ham v (s : State) : State :=
  mkState (_yield_per_sfr s) (_Mmin s) (_eta s) (_constraints s) (_Marr_ s)
          (_fstar_ham_pts s) (_fstar_coeff_ s) (_fstar s) (_sfr_ham_ s)
          (_sfrd_ham_tab_ s) (_Mmin_of_z s) v (_conversion_factors s)
          (_eV_per_phot s).
Definition set_conversion_factors v (s : State) : State :=
  mkState (_yield_per_sfr s) (_Mmin s) (_eta s) (_constraints s) (_Marr_ s)
          (_fstar_ham_pts s) (_fstar_coeff_ s) (_fstar s) (_sfr_ham_ s)
          (_sfrd_ham_tab_ s) (_Mmin_of_z s) (_sfrd_ham_ s) v
          (_eV_per_phot s).

Definition set_eV_per_phot v (s : State) : State :=
  mkState (_yield_per_sfr s) (_Mmin s) (_eta s) (_constraints s) (_Marr_ s)
          (_fstar_ham_pts s) (_fstar_coeff_ s) (_fstar s) (_sfr_ham_ s)
          (_sfrd_ham_tab_ s) (_Mmin_of_z s) (_sfrd_ham_ s)
          (_conversion_factors s) v.

(** A method: from the store to a result (or a raised exception) and the
    store it leaves. *)
Definition M (A : Type) : Type := State -> Res A * State.

Definition ret {A} (a : A) : M A := fun st => (Ok a, st).
Definition raise {A} (e : exn) : M A := fun st => (Raise e, st).
Definition lift {A} (r : Res A) : M A := fun st => (r, st).
Definition bind {A B} (m : M A) (k : A -> M B) : M B :=
  fun st =>
    match m st with
    | (Ok a, st') => k a st'
    | (Raise e, st') => (Raise e, st')
    end.
Definition gets {A} (f : State -> A) : M A := fun st => (Ok (f st), st).
Definition modify (f : State -> State) : M unit := fun st => (Ok tt, f st).

Declare Scope py_scope.
Delimit Scope py_scope with py.
Notation "x <- m ;; k" := (bind m (fun x => k))
  (at level 61, m at next level, right associativity) : py_scope.
Notation "m ;; k" := (bind m (fun _ => k))
  (at level 61, right associativity) : py_scope.

(** [for i, x in enumerate(xs): body], counting from [i]. *)
Fixpoint for_from {A} (i : nat) (xs : list A) (body : nat -> A -> M unit)
  : M unit :=
  match xs with
  | [] => ret tt
  | x :: r => bind (body i x) (fun _ => for_from (S i) r body)
  end.

Definition for_enumerate {A} (xs : list A) (body : nat -> A -> M unit)
  : M unit := for_from 0 xs body.

(* ================================================================== *)
(** * numpy *)
(* ================================================================== *)

(** [xs[i] = v] on an array. *)
Fixpoint update {A} (i : nat) (v : A) (xs : list A) : list A :=
  match xs, i with
  | [], _ => []
  | _ :: r, O => v :: r
  | x :: r, S i' => x :: update i' v r
  end.

(** [g[i, j] = v] on a two-dimensional array. *)
Definition update2 {A} (i j : nat) (v : A) (g : list (list A))
  : list (list A) :=
  match nth_error g i with
  | Some row => update i (update j v row) g
  | None => g
  end.

Definition zeros (n : nat) : list float := repeat 0%float n.
Definition zeros2 (n m : nat) : list (list float) := repeat (zeros m) n.

Fixpoint map2 {A B C} (f : A -> B -> C) (xs : list A) (ys : list B)
  : list C :=
  match xs, ys with
  | x :: xr, y :: yr => f x y :: map2 f xr yr
  | _, _ => []
  end.

(** [xs * ys] on one-dimensional arrays, with broadcasting. *)
Definition np_mul (xs ys : list float) : Res (list float) :=
  if (length xs =? length ys)%nat then Ok (map2 mul xs ys)
  else
    match xs, ys with
    | [x], _ => Ok (map (mul x) ys)
    | _, [y] => Ok (map (fun a => a * y)%float xs)
    | _, _ => Raise (ValueError "operands could not be broadcast together")
    end.

(** [xs * v] for [v] a scalar or an array. *)
Definition np_mul_pynum (xs : list float) (v : pynum) : Res (list float) :=
  match v with
  | PyScalar y => Ok (map (fun a => a * y)%float xs)
  | PyArray ys => np_mul xs ys
  end.

(** [np.argmin]: the first index of the minimum; a NaN counts as the
    minimum. *)
Fixpoint argmin_from (best : float) (bi i : nat) (xs : list float) : nat :=
  match xs with
  | [] => bi
  | x :: r =>
      if is_nan best then bi
      else if (x <? best)%float || is_nan x then argmin_from x i (S i) r
      else argmin_from best bi (S i) r
  end.

Definition np_argmin (xs : list float) : Res nat :=
  match xs with
  | [] => Raise (ValueError "attempt to get argmin of an empty sequence")
  | x :: r => Ok (argmin_from x 0 1 r)
  end.

(** [np.interp(x, xp, fp)] for increasing [xp]: linear between the sample
    points, [fp[0]] below the first and [fp[-1]] from the last on. *)
Fixpoint interp_from (x x0 f0 : float) (xp fp : list float) : float :=
  match xp, fp with
  | x1 :: xr, f1 :: fr =>
      if (x <? x1)%float
      then ((f1 - f0) / (x1 - x0) * (x - x0) + f0)%float
      else interp_from x x1 f1 xr fr
  | _, _ => f0
  end.

Definition np_interp (x : float) (xp fp : list float) : Res float :=
  match xp, fp with
  | [], _ => Raise (ValueError "array of sample points is empty")
  | x0 :: xr, f0 :: fr =>
      if negb (length xr =? length fr)%nat
      then Raise (ValueError "fp and xp are not of the same length.")
      else Ok (if (x <? x0)%float then f0 else interp_from x x0 f0 xr fr)
  | _ :: _, [] => Raise (ValueError "fp and xp are not of the same length.")
  end.

(** Lookup in a dictionary keyed by a pair of floats. *)
Fixpoint lookup2 (k1 k2 : float) (d : list (float * float * float))
  : option float :=
  match d with
  | [] => None
  | (a, b, v) :: r =>
      if (a =? k1)%float && (b =? k2)%float then Some v else lookup2 k1 k2 r
  end.

(** [d[(k1, k2)] = v] *)
Fixpoint store2 (k1 k2 v : float) (d : list (float * float * float))
  : list (float * float * float) :=
  match d with
  | [] => [(k1, k2, v)]
  | (a, b, w) :: r =>
      if (a =? k1)%float && (b =? k2)%float then (a, b, v) :: r
      else (a, b, w) :: store2 k1 k2 v r
  end.

(* ================================================================== *)
(** * GalaxyPopulation *)
(* ================================================================== *)

Section GalaxyPopulation.

Variable K : Constants.
Variable num : Numerics.
Variable pop : Population.

Local Open Scope string_scope.
Local Open Scope py_scope.

(** ** The spectral normalizer *)

(** The unit tag after [.replace(' ', '').lower()]. *)
Definition normalized_units : string :=
  lower (remove_spaces (pop_yield_units (pf pop))).

(** [normalize_sed(pop)]: convert yield to erg / g. *)
Definition normalize_sed : Res float :=
  let units := normalized_units in
  if units =? "erg/s/sfr" then
    pydiv (pop_yield (pf pop) * s_per_yr K)%float (g_per_msun K)
  else if units =? "erg/s/hz/sfr" then
    Ok (pop_yield (pf pop))
  else
    let E1 := pop_EminNorm (pf pop) in
    let E2 := pop_EmaxNorm (pf pop) in
    let erg_per_phot :=
      (AveragePhotonEnergy (src pop) E1 E2 * erg_per_ev K)%float in
    let energy_per_sfr := (pop_yield (pf pop) * erg_per_phot)%float in
    if units =? "photons/baryon" then
      pydiv energy_per_sfr (g_per_baryon (cosm pop))
    else if units =? "photons/msun" then
      pydiv energy_per_sfr (g_per_msun K)
    else if units =? "photons/s/sfr" then
      res_bind (pydiv (s_per_yr K) (g_per_msun K))
               (fun r => Ok (energy_per_sfr * r)%float)
    else
      Raise (ValueError ("Unrecognized yield units: " ++ units)).

(** ** Model kind *)

Definition is_fcoll_model : bool := lower (pop_model (pf pop)) =? "fcoll".
Definition is_ham_model : bool := lower (pop_model (pf pop)) =? "ham".
Definition is_hod_model : bool := lower (pop_model (pf pop)) =? "hod".
Definition is_user_model : bool := lower (pop_model (pf pop)) =? "user".

Definition is_user_fstar : bool :=
  match pop_fstar (pf pop) with
  | FstarFunction _ => true
  | FstarConst _ => false
  end.

(** ** Cached properties *)

Definition yield_per_sfr : M float :=
  c <- gets _yield_per_sfr ;;
  match c with
  | Some y => ret y
  | None =>
      y <- lift normalize_sed ;;
      modify (set_yield_per_sfr (Some y)) ;;
      ret y
  end.

(** [self.Macc(z, M)] for a scalar [M]. *)
Definition call_Macc (z M : float) : Res float :=
  match pop_Macc (pf pop) with
  | Some f => Ok (f z M)
  | None => Raise (TypeError "'NoneType' object is not callable")
  end.

(** [self.Macc(z, M)] for an array [M]. *)
Definition call_Macc_array (z : float) (Ms : list float) : Res (list float) :=
  match pop_Macc (pf pop) with
  | Some f => Ok (map (f z) Ms)
  | None => Raise (TypeError "'NoneType' object is not callable")
  end.

(** The value the [Mmin] property computes. *)
Definition Mmin_value : pynum :=
  match pop_Mmin (pf pop) with
  | Some v => v
  | None =>
      PyArray (map (fun z => VirialMass (halos pop) (pop_Tmin (pf pop)) z
                                        (mu (pf pop)))
                   (halos_z (halos pop)))
  end.

Definition Mmin : M pynum :=
  c <- gets _Mmin ;;
  match c with
  | Some v => ret v
  | None => modify (set_Mmin (Some Mmin_value)) ;; ret Mmin_value
  end.

(** [self._eta[i] = v] *)
Definition store_eta (i : nat) (v : float) (s : State) : State :=
  match _eta s with
  | Some a => set_eta (Some (update i v a)) s
  | None => s
  end.

(** One turn of the loop of [eta]. *)
Definition eta_body (i : nat) (z : float) : M unit :=
  let hM := halos_M (halos pop) in
  let logM := halos_logM (halos pop) in
  mm <- Mmin ;;
  Mmin_i <- lift (pynum_getitem mm i) ;;
  mm' <- Mmin ;;
  Mmin_i' <- lift (pynum_getitem mm' i) ;;
  let logMmin := np_log10 num Mmin_i' in
  let rhs0 := (rho_m_z0 (cosm pop) * dfcolldt pop z)%float in
  r <- lift (pydiv (s_per_yr K) (g_per_msun K)) ;;
  let rhs := (rhs0 * (r * cm_per_mpc_cubed K))%float in
  Macc <- lift (call_Macc_array z hM) ;;
  mm'' <- Mmin ;;
  Mmin_i'' <- lift (pynum_getitem mm'' i) ;;
  j <- lift (np_argmin (map (fun m => abs (Mmin_i'' - m))%float hM)) ;;
  let j1 := Z.of_nat j in
  Macc_j1 <- lift (np_index Macc j1) ;;
  M_j1 <- lift (np_index hM j1) ;;
  let j1 := if (M_j1 <? Macc_j1)%float then (j1 - 1)%Z else j1 in
  let j2 := (j1 + 1)%Z in
  dndm_i <- lift (getitem (halos_dndm (halos pop)) i) ;;
  y <- lift (np_mul (slice_from Macc j2) (slice_from dndm_i j2)) ;;
  let lhs := (simps num y (slice_from logM j2) * ln10 num)%float in
  Macc_j1 <- lift (np_index Macc j1) ;;
  dndm_j1 <- lift (np_index dndm_i j1) ;;
  Macc_j2 <- lift (np_index Macc j2) ;;
  dndm_j2 <- lift (np_index dndm_i j2) ;;
  Macc1 <- lift (np_interp Mmin_i (slice hM j1 (j2 + 1))
                           [Macc_j1 * dndm_j1; Macc_j2 * dndm_j2]%float) ;;
  Macc2 <- lift (np_index Macc j2) ;;
  logM_j2 <- lift (np_index logM j2) ;;
  let extra :=
    (0.5 * (logM_j2 - logMmin) * (Macc1 + Macc2) * ln10 num)%float in
  let lhs := (lhs + extra)%float in
  modify (store_eta i (rhs / lhs)%float).

(** The [eta] property: the correction factor for [Macc]. *)
Definition eta : M (list float) :=
  if negb is_ham_model then raise (AttributeError "eta is a HAM thing!")
  else
    c <- gets _eta ;;
    match c with
    | Some a => ret a
    | None =>
        modify (set_eta (Some (zeros (length (halos_z (halos pop)))))) ;;
        for_enumerate (halos_z (halos pop)) eta_body ;;
        a <- gets _eta ;;
        ret (match a with Some a => a | None => [] end)
    end.

(** [self._constraints['L_star'].append(L)] *)
Definition append_L_star (L : float) (s : State) : State :=
  match _constraints s with
  | Some l => set_constraints (Some (l ++ [L])%list) s
  | None => s
  end.

(** The [constraints] property: the constraints of the parameter file,
    with the list ['L_star'] of characteristic luminosities. *)
Definition constraints : M (Constraints * list float) :=
  let cs := pop_constraints (pf pop) in
  c <- gets _constraints ;;
  match c with
  | Some l => ret (cs, l)
  | None =>
      modify (set_constraints (Some [])) ;;
      for_enumerate (c_z cs) (fun i z =>
        Mstar <- lift (getitem (c_M_star cs) i) ;;
        modify (append_L_star (mAB_to_L pop Mstar z))) ;;
      l <- gets _constraints ;;
      ret (cs, match l with Some l => l | None => [] end)
  end.

(** The value the [_Marr] property computes: [10**pf['pop_logM']]. *)
Definition Marr_value : list float := map (pow10 num) (pop_logM (pf pop)).

Definition _Marr : M (list float) :=
  c <- gets _Marr_ ;;
  match c with
  | Some a => ret a
  | None => modify (set_Marr (Some Marr_value)) ;; ret Marr_value
  end.

(** ** The abundance match *)

(** [LofM]: minimum luminosity as a function of the efficiency. *)
Definition LofM (Macc eta_i kappa_UV fstar : float) : float :=
  (fstar * Macc * eta_i / kappa_UV)%float.

(** [_schecter_integral_inf(xmin, alpha)] *)
Definition _schecter_integral_inf (xmin alpha : float) : float :=
  gammainc num (alpha + 1)%float xmin.

(** The objective [to_min] that [_fstar_ham] hands to the root finder. *)
Definition to_min (Macc eta_i kappa_UV alpha L_star phi_star int_nMh : float)
                  (fstar : float) : float :=
  let Lmin := LofM Macc eta_i kappa_UV fstar in
  if (Lmin <? 0)%float then infinity
  else
    let xmin := (Lmin / L_star)%float in
    let int_phiL := _schecter_integral_inf xmin alpha in
    let int_phiL := (int_phiL * phi_star)%float in
    abs (int_phiL - int_nMh).

(** [self._fstar_ham_pts[i,j] = v] *)
Definition store_fstar_ham (i j : nat) (v : float) (s : State) : State :=
  match _fstar_ham_pts s with
  | Some g => set_fstar_ham_pts (Some (update2 i j v g)) s
  | None => s
  end.

(** The body of the inner loop of [_fstar_ham]. *)
Definition ham_cell (kappa_UV : float) (i : nat)
                    (z alpha L_star phi_star : float)
                    (j : nat) (Mj : float) : M unit :=
  mm <- Mmin ;;
  Mmin_i <- lift (pynum_getitem mm i) ;;
  if (Mj <? Mmin_i)%float then ret tt
  else
    Macc <- lift (call_Macc z Mj) ;;
    e <- eta ;;
    eta_i <- lift (getitem e i) ;;
    int_nMh <- lift (np_interp Mj (halos_M (halos pop))
                               (MF_ngtm (halos pop) z)) ;;
    let fast :=
      fsolve num (to_min Macc eta_i kappa_UV alpha L_star phi_star int_nMh)
             0.001%float 0.0001%float 1000%Z in
    modify (store_fstar_ham i j fast).

(** The body of the outer loop of [_fstar_ham]. *)
Definition ham_row (kappa_UV : float) (Marr : list float)
                   (i : nat) (z : float) : M unit :=
  c <- constraints ;;
  alpha <- lift (getitem (c_alpha (fst c)) i) ;;
  c <- constraints ;;
  L_star <- lift (getitem (snd c) i) ;;
  c <- constraints ;;
  phi_star <- lift (getitem (c_phi_star (fst c)) i) ;;
  for_enumerate Marr (ham_cell kappa_UV i z alpha L_star phi_star).

(** The [_fstar_ham] property: the star-formation efficiencies derived
    from abundance matching.  The progress bar only reports. *)
Definition _fstar_ham : M (list (list float)) :=
  c <- gets _fstar_ham_pts ;;
  match c with
  | Some g => ret g
  | None =>
      y <- yield_per_sfr ;;
      kappa_UV <- lift (pydiv 1 y) ;;
      Marr <- _Marr ;;
      c <- constraints ;;
      let Nz := length (c_z (fst c)) in
      let Nm := length Marr in
      modify (set_fstar_ham_pts (Some (zeros2 Nz Nm))) ;;
      c <- constraints ;;
      for_enumerate (c_z (fst c)) (ham_row kappa_UV Marr) ;;
      g <- gets _fstar_ham_pts ;;
      ret (match g with Some g => g | None => [] end)
  end.

(** ** The polynomial fit *)

Fixpoint res_mapM {A B} (f : A -> Res B) (xs : list A) : Res (list B) :=
  match xs with
  | [] => Ok []
  | x :: r =>
      res_bind (f x) (fun y =>
      res_bind (res_mapM f r) (fun ys => Ok (y :: ys)))
  end.

(** [_fstar_poly(z, M, *coeff)]: the six-parameter model of the
    star-formation efficiency, at one [(z, M)]. *)
Definition _fstar_poly (z Mh : float) (coeff : list float) : Res float :=
  let lg := np_log10 num Mh in
  let x := ((1 + z) / 8)%float in
  res_bind (getitem coeff 0) (fun c0 =>
  res_bind (getitem coeff 1) (fun c1 =>
  res_bind (getitem coeff 2) (fun c2 =>
  res_bind (getitem coeff 3) (fun c3 =>
  res_bind (getitem coeff 4) (fun c4 =>
  res_bind (getitem coeff 5) (fun c5 =>
  let logf :=
    (c0 + c1 * lg + c2 * x + c3 * x * lg
     + c4 * np_pow num lg 2 + c5 * np_pow num lg 3)%float in
  Ok (pow10 num logf))))))).

(** [_fstar_poly] on a scalar or on an array of masses. *)
Definition _fstar_poly_pynum (z : float) (Mh : pynum) (coeff : list float)
  : Res pynum :=
  match Mh with
  | PyScalar m => res_bind (_fstar_poly z m coeff) (fun v => Ok (PyScalar v))
  | PyArray ms =>
      res_bind (res_mapM (fun m => _fstar_poly z m coeff) ms)
               (fun vs => Ok (PyArray vs))
  end.

(** The flattened [np.meshgrid(Marr, z)]: row [i] pairs [z[i]] with every
    mass. *)
Definition meshgrid_flat (Marr zs : list float) : list (float * float) :=
  flat_map (fun z => map (fun m => (z, m)) Marr) zs.

(** The [_fstar_coeff] property: the coefficients fitted to the grid. *)
Definition _fstar_coeff : M (list float) :=
  c <- gets _fstar_coeff_ ;;
  match c with
  | Some a => ret a
  | None =>
      Marr <- _Marr ;;
      cs <- constraints ;;
      g <- _fstar_ham ;;
      let y := concat g in
      let guess := [-158.17; 34.7; 9.91; -0.913; -2.542; 0.062]%float in
      let model := fun coeff =>
        res_mapM (fun zM => _fstar_poly (fst zM) (snd zM) coeff)
                 (meshgrid_flat Marr (c_z (fst cs))) in
      coeff <- lift (curve_fit num model y guess) ;;
      modify (set_fstar_coeff (Some coeff)) ;;
      ret coeff
  end.

(** [fstar(z, M)]: the mass- and redshift-dependent star-formation
    efficiency. *)
Definition fstar (z : float) (Mh : pynum) : M pynum :=
  match pop_fstar (pf pop) with
  | FstarFunction f =>
      ret (match Mh with
           | PyScalar m => PyScalar (f z m)
           | PyArray ms => PyArray (map (f z) ms)
           end)
  | FstarConst f0 =>
      if negb is_ham_model then ret (PyScalar f0)
      else
        has <- gets _fstar ;;
        (if has then ret tt else modify (set_fstar true)) ;;
        coeff <- _fstar_coeff ;;
        lift (_fstar_poly_pynum z Mh coeff)
  end.

(** ** The star-formation history of the abundance match *)

(** [a[i] = row] on an array with rows of length [n]. *)
Definition broadcast_row (n : nat) (row : list float) : Res (list float) :=
  if (length row =? n)%nat then Ok row
  else
    match row with
    | [x] => Ok (repeat x n)
    | _ => Raise (ValueError "could not broadcast input array")
    end.

Definition store_sfr_ham (i : nat) (row : list float) (s : State) : State :=
  match _sfr_ham_ s with
  | Some g => set_sfr_ham (Some (update i row g)) s
  | None => s
  end.

(** The [_sfr_ham] property.  [halos.Nz] and [halos.Nm] are the lengths
    of [halos.z] and [halos.M]. *)
Definition _sfr_ham : M (list (list float)) :=
  let hz := halos_z (halos pop) in
  let hM := halos_M (halos pop) in
  c <- gets _sfr_ham_ ;;
  match c with
  | Some g => ret g
  | None =>
      modify (set_sfr_ham (Some (zeros2 (length hz) (length hM)))) ;;
      for_enumerate hz (fun i z =>
        Macc <- lift (call_Macc_array z hM) ;;
        f <- fstar z (PyArray hM) ;;
        row <- lift (np_mul_pynum (map (mul (fbaryon (cosm pop))) Macc) f) ;;
        row <- lift (broadcast_row (length hM) row) ;;
        modify (store_sfr_ham i row)) ;;
      g <- gets _sfr_ham_ ;;
      ret (match g with Some g => g | None => [] end)
  end.

Definition store_sfrd_ham_tab (i : nat) (v : float) (s : State) : State :=
  match _sfrd_ham_tab_ s with
  | Some a => set_sfrd_ham_tab (Some (update i v a)) s
  | None => s
  end.

(** The [_sfrd_ham_tab] property. *)
Definition _sfrd_ham_tab : M (list float) :=
  let hz := halos_z (halos pop) in
  let hM := halos_M (halos pop) in
  c <- gets _sfrd_ham_tab_ ;;
  match c with
  | Some a => ret a
  | None =>
      modify (set_sfrd_ham_tab (Some (zeros (length hz)))) ;;
      Mmin_of_z <- lift
        match pop_Mmin (pf pop) with
        | None =>
            Ok (map (fun z => VirialMass (halos pop) (pop_Tmin (pf pop)) z
                                         (mu (pf pop))) hz)
        | Some (PyScalar x) =>
            Ok (map (mul x) (repeat 1%float (length hz)))
        | Some (PyArray xs) => np_mul xs (repeat 1%float (length hz))
        end ;;
      modify (set_Mmin_of_z (Some Mmin_of_z)) ;;
      for_enumerate hz (fun i z =>
        sfr <- _sfr_ham ;;
        sfr_i <- lift (getitem sfr i) ;;
        dndm_i <- lift (getitem (halos_dndm (halos pop)) i) ;;
        integrand <- lift (np_mul sfr_i dndm_i) ;;
        Mmin_i <- lift (getitem Mmin_of_z i) ;;
        k <- lift (np_argmin (map (fun m => abs (Mmin_i - m))%float hM)) ;;
        let k := Z.of_nat k in
        modify (store_sfrd_ham_tab i
                  (simps num (slice_from integrand k)
                             (slice_from (halos_logM (halos pop)) k)
                   * ln10 num)%float)) ;;
      a <- gets _sfrd_ham_tab_ ;;
      ret (match a with Some a => a | None => [] end)
  end.

(** The [_sfrd_ham] property: the spline through [_sfrd_ham_tab]. *)
Definition _sfrd_ham : M (float -> Res float) :=
  c <- gets _sfrd_ham_ ;;
  match c with
  | Some f => ret f
  | None =>
      tab <- _sfrd_ham_tab ;;
      f <- lift (interp1d_cubic num (halos_z (halos pop)) tab) ;;
      modify (set_sfrd_ham (Some f)) ;;
      ret f
  end.

(** ** Rates *)

(** [self.src is not None]: [src] is an instance of the source class. *)
Definition src_is_not_None : bool := true.

(** [_convert_band(Emin, Emax)]: the factor that converts from the
    reference band to [(Emin, Emax)].  The two warnings only print. *)
Definition _convert_band (Emin Emax : option float) : M float :=
  let different_band := false in
  let '(different_band, Emin) :=
    match Emin with
    | Some e => if src_is_not_None then (true, e)
                else (different_band, pop_Emin (pf pop))
    | None => (different_band, pop_Emin (pf pop))
    end in
  let '(different_band, Emax) :=
    match Emax with
    | Some e => if src_is_not_None then (true, e)
                else (different_band, pop_Emax (pf pop))
    | None => (different_band, pop_Emax (pf pop))
    end in
  if different_band then
    d <- gets _conversion_factors ;;
    match lookup2 Emin Emax d with
    | Some c => ret c
    | None =>
        let factor := quad num (Spectrum (src pop)) Emin Emax in
        modify (fun s => set_conversion_factors
                           (store2 Emin Emax factor (_conversion_factors s)) s) ;;
        ret factor
    end
  else ret 1%float.

(** [_get_energy_per_photon(Emin, Emax)]: the integral of
    [Spectrum(E) * E] over the band. *)
Definition _get_energy_per_photon (Emin Emax : option float) : M float :=
  let Emin :=
    match Emin with
    | Some e => if src_is_not_None then e else pop_Emin (pf pop)
    | None => pop_Emin (pf pop)
    end in
  let Emax :=
    match Emax with
    | Some e => if src_is_not_None then e else pop_Emax (pf pop)
    | None => pop_Emax (pf pop)
    end in
  d <- gets _eV_per_phot ;;
  match lookup2 Emin Emax d with
  | Some c => ret c
  | None =>
      let Eavg :=
        quad num (fun E => Spectrum (src pop) E * E)%float Emin Emax in
      modify (fun s => set_eV_per_phot
                         (store2 Emin Emax Eavg (_eV_per_phot s)) s) ;;
      ret Eavg
  end.

(** The [rhoL_from_sfrd] property: whether the SFRD sets the
    emissivity. *)
Definition rhoL_from_sfrd : bool :=
  is_fcoll_model
  || match pop_sfrd (pf pop) with Some _ => true | None => false end.

(** [SFRD(z)]: the comoving star formation rate density.  The names
    [negative_SFRD] and [sys] are not bound in the module, so the report
    of a negative rate raises [NameError]; [NotImplemented] is not
    callable, so [raise NotImplemented(...)] raises [TypeError]. *)
Definition SFRD (z : float) : M float :=
  if (zform pop <? z)%float then ret 0%float
  else
    match pop_sfrd (pf pop) with
    | Some f => lift (pydiv (f z) (rhodot_cgs K))
    | None =>
        if is_fcoll_model then
          match pop_fstar (pf pop) with
          | FstarFunction _ =>
              raise (TypeError
                "unsupported operand type(s) for *: 'function' and 'float'")
          | FstarConst f0 =>
              let sfrd := (f0 * rho_b_z0 (cosm pop) * dfcolldt pop z)%float in
              if (sfrd <? 0)%float then raise (NameError "negative_SFRD")
              else ret sfrd
          end
        else if is_ham_model then
          f <- _sfrd_ham ;;
          v <- lift (f z) ;;
          ret (v * g_per_msun K / s_per_yr K)%float
        else raise (TypeError "'NotImplementedType' object is not callable")
    end.

(** [Emissivity(z, E=None, Emin=None, Emax=None)]: the emissivity of the
    population. *)
Definition Emissivity (z : float) (E Emin Emax : option float) : M float :=
  if is_fcoll_model
     || match pop_sfrd (pf pop) with Some _ => true | None => false end
  then
    s <- SFRD z ;;
    y <- yield_per_sfr ;;
    let rhoL := (s * y)%float in
    c <- _convert_band Emin Emax ;;
    let rhoL := (rhoL * c)%float in
    let rhoL :=
      if py2_gt Emax 13.6%float && py2_lt Emin (pop_Emin_xray (pf pop))
      then (rhoL * pop_fesc (pf pop))%float else rhoL in
    match E with
    | Some e => ret (rhoL * Spectrum (src pop) e)%float
    | None => ret rhoL
    end
  else raise (TypeError "'NotImplementedType' object is not callable").

(** [NumberEmissivity(z, E=None, Emin=None, Emax=None)] *)
Definition NumberEmissivity (z : float) (E Emin Emax : option float)
  : M float :=
  r <- Emissivity z E Emin Emax ;;
  match E with
  | Some e => lift (pydiv r (e * erg_per_ev K)%float)
  | None =>
      raise (TypeError
        "unsupported operand type(s) for *: 'NoneType' and 'float'")
  end.

(** ** Calls on an instance *)

(** The properties and methods of the instance that this development
    models.  [LuminosityFunction] is left out: what it returns rests on
    attributes ([lf_type], [Lstar], ...) that the module does not define,
    and of the attributes above it touches only [_conversion_factors],
    through [_convert_band]. *)
Inductive call : Type :=
| Get_yield_per_sfr
| Get_Mmin
| Get_eta
| Get_constraints
| Get_Marr
| Get_fstar_ham
| Get_fstar_coeff
| Call_fstar (z : float) (Mh : pynum)
| Get_sfr_ham
| Get_sfrd_ham_tab
| Get_sfrd_ham
| Call_convert_band (Emin Emax : option float)
| Call_get_energy_per_photon (Emin Emax : option float)
| Call_SFRD (z : float)
| Call_Emissivity (z : float) (E Emin Emax : option float)
| Call_NumberEmissivity (z : float) (E Emin Emax : option float).

(** The store after a call, whether it returned or raised. *)
Definition exec (c : call) (st : State) : State :=
  match c with
  | Get_yield_per_sfr => snd (yield_per_sfr st)
  | Get_Mmin => snd (Mmin st)
  | Get_eta => snd (eta st)
  | Get_constraints => snd (constraints st)
  | Get_Marr => snd (_Marr st)
  | Get_fstar_ham => snd (_fstar_ham st)
  | Get_fstar_coeff => snd (_fstar_coeff st)
  | Call_fstar z Mh => snd (fstar z Mh st)
  | Get_sfr_ham => snd (_sfr_ham st)
  | Get_sfrd_ham_tab => snd (_sfrd_ham_tab st)
  | Get_sfrd_ham => snd (_sfrd_ham st)
  | Call_convert_band Emin Emax => snd (_convert_band Emin Emax st)
  | Call_get_energy_per_photon Emin Emax =>
      snd (_get_energy_per_photon Emin Emax st)
  | Call_SFRD z => snd (SFRD z st)
  | Call_Emissivity z E Emin Emax => snd (Emissivity z E Emin Emax st)
  | Call_NumberEmissivity z E Emin Emax =>
      snd (NumberEmissivity z E Emin Emax st)
  end.

(** The stores an instance can be in: the fresh one, and those that calls
    lead to. *)
Inductive reachable : State -> Prop :=
| reachable_fresh : reachable fresh
| reachable_exec c st : reachable st -> reachable (exec c st).

End GalaxyPopulation.

(** The unit tags [normalize_sed] accepts. *)
Definition supported_units : list string :=
  ["erg/s/sfr"; "erg/s/hz/sfr"; "photons/baryon"; "photons/msun";
   "photons/s/sfr"]%string.

(* ================================================================== *)
(** * The vocabulary of the properties *)
(* ================================================================== *)

(** The band a call asks for: a bound that is omitted is the native
    one. *)
Definition requested_band (pop : Population) (Emin Emax : option float)
  : float * float :=
  (match Emin with Some e => e | None => pop_Emin (pf pop) end,
   match Emax with Some e => e | None => pop_Emax (pf pop) end).

(** Whether a call passes a bound at all. *)
Definition bound_given (Emin Emax : option float) : bool :=
  match Emin, Emax with
  | None, None => false
  | _, _ => true
  end.



(** [keeps I m]: the method [m] maintains [I], also when it raises. *)
Definition keeps {A} (I : State -> Prop) (m : M A) : Prop :=
  forall st, I st -> I (snd (m st)).

(** [g[i, j]] *)
Definition grid_get {A} (g : list (list A)) (i j : nat) : option A :=
  match nth_error g i with
  | Some row => nth_error row j
  | None => None
  end.

(** What a cached attribute holds stays what it is. *)
Definition caches_kept (st st' : State) : Prop :=
  (forall v, _yield_per_sfr st = Some v -> _yield_per_sfr st' = Some v)
  /\ (forall v, _constraints st = Some v -> _constraints st' = Some v)
  /\ (forall v, _eta st = Some v -> _eta st' = Some v).

(** A grid whose rows all have [n] entries. *)
Definition rows_of_length {A} (n : nat) (g : list (list A)) : Prop :=
  forall i row, nth_error g i = Some row -> length row = n.

Section Vocabulary.

Variable num : Numerics.
Variable pop : Population.

(** The caches of [Mmin] and [_Marr] hold what the properties compute. *)
Definition coherent (st : State) : Prop :=
  (forall v, _Mmin st = Some v -> v = Mmin_value pop)
  /\ (forall a, _Marr_ st = Some a -> a = Marr_value num pop).

(** The entries [(i, j)] of a grid with [Marr[j] < Mmin[i]] are zero. *)
Definition zero_below_Mmin (g : list (list float)) : Prop :=
  forall i j row v Mj m,
    nth_error g i = Some row ->
    nth_error row j = Some v ->
    nth_error (Marr_value num pop) j = Some Mj ->
    pynum_getitem (Mmin_value pop) i = Ok m ->
    (Mj <? m)%float = true ->
    v = 0%float.

(** A grid with a row per constraint redshift and a column per mass. *)
Definition grid_shape (g : list (list float)) : Prop :=
  length g = length (c_z (pop_constraints (pf pop)))
  /\ rows_of_length (length (Marr_value num pop)) g.

Definition grid_invariant (st : State) : Prop :=
  coherent st
  /\ forall g, _fstar_ham_pts st = Some g ->
               zero_below_Mmin g /\ grid_shape g.

(** A method that leaves the grid alone and keeps the caches and
    [grid_invariant]. *)
Definition quiet {A} (m : M A) : Prop :=
  forall st,
    caches_kept st (snd (m st))
    /\ _fstar_ham_pts (snd (m st)) = _fstar_ham_pts st
    /\ (grid_invariant st -> grid_invariant (snd (m st))).

(** The entry [v] of the grid at [(i, j)] is what the root finder
    returns, from the seed 0.001, for the objective [to_min] built from
    [Macc(z_i, M_j)], the attribute [eta[i]], [kappa_UV], the constraints
    [alpha], [L_star] and [phi_star] of redshift [z_i], and the
    interpolated number of halos above [M_j]. *)
Definition solved_cell (st : State) (kappa_UV : float) (i j : nat)
                       (v : float) : Prop :=
  exists l L_star ee eta_i z alpha phi_star Mj Macc int_nMh,
    _constraints st = Some l /\ nth_error l i = Some L_star
    /\ _eta st = Some ee /\ nth_error ee i = Some eta_i
    /\ nth_error (c_z (pop_constraints (pf pop))) i = Some z
    /\ nth_error (c_alpha (pop_constraints (pf pop))) i = Some alpha
    /\ nth_error (c_phi_star (pop_constraints (pf pop))) i = Some phi_star
    /\ nth_error (Marr_value num pop) j = Some Mj
    /\ call_Macc pop z Mj = Ok Macc
    /\ np_interp Mj (halos_M (halos pop)) (MF_ngtm (halos pop) z)
       = Ok int_nMh
    /\ v = fsolve num
             (to_min num Macc eta_i kappa_UV alpha L_star phi_star int_nMh)
             0.001%float 0.0001%float 1000%Z.

End Vocabulary.

(** [a] equals [b] to within the relative tolerance [tol]. *)
Definition rel_close (tol a b : float) : bool :=
  (abs (a - b) <=? tol * abs b)%float.

(** The efficiency [f] satisfies the abundance-matching equation at
    [(i, j)], to within the relative tolerance 1e-3:
    [phi_star * Gamma(alpha + 1, L(f) / L_star)] equals the interpolated
    [n(>M_j)], with [L(f) = f * Macc(z_i, M_j) * eta[i] / kappa_UV] and
    [kappa_UV = 1 / yield_per_sfr]. *)
Definition abundance_matched (num : Numerics) (pop : Population)
                             (st : State) (i j : nat) (f : float) : Prop :=
  let cs := pop_constraints (pf pop) in
  exists y kappa_UV ee eta_i l L_star z alpha phi_star Mj Macc int_nMh,
    _yield_per_sfr st = Some y /\ pydiv 1 y = Ok kappa_UV
    /\ _eta st = Some ee /\ nth_error ee i = Some eta_i
    /\ _constraints st = Some l /\ nth_error l i = Some L_star
    /\ nth_error (c_z cs) i = Some z
    /\ nth_error (c_alpha cs) i = Some alpha
    /\ nth_error (c_phi_star cs) i = Some phi_star
    /\ nth_error (Marr_value num pop) j = Some Mj
    /\ call_Macc pop z Mj = Ok Macc
    /\ np_interp Mj (halos_M (halos pop)) (MF_ngtm (halos pop) z)
       = Ok int_nMh
    /\ rel_close 1e-3
         (phi_star * gammainc num (alpha + 1)
                       (LofM Macc eta_i kappa_UV f / L_star))%float
         int_nMh = true.

(** On a new instance of the population, every entry of the grid that
    [_fstar_ham] returns, at a mass that is not below [Mmin[i]],
    satisfies the abundance-matching equation. *)
Definition ham_grid_matches (K : Constants) (num : Numerics)
                            (pop : Population) : Prop :=
  forall g st1,
    _fstar_ham K num pop fresh = (Ok g, st1) ->
    forall i j z Mj m,
      nth_error (c_z (pop_constraints (pf pop))) i = Some z ->
      nth_error (Marr_value num pop) j = Some Mj ->
      pynum_getitem (Mmin_value pop) i = Ok m ->
      (Mj <? m)%float = false ->
      exists f, grid_get g i j = Some f
                /\ abundance_matched num pop st1 i j f.

(* ================================================================== *)
(** * Sample instances *)
(* ================================================================== *)

(** Concrete constants, routines and populations on which the theorems
    below are instantiated.  The constants are those of cgs units; the
    routines are simple stand-ins ([ex_quad] is the midpoint rule, exact on
    a constant spectrum; the root finder gives back its seed). *)

Definition ex_K : Constants :=
  {| s_per_yr := 31557600;
     g_per_msun := 1.98892e33;
     erg_per_ev := 1.60217646e-12;
     rhodot_cgs := 2.1453e-48;
     cm_per_mpc_cubed := 2.93799e73 |}.

Definition ex_quad (f : float -> float) (a b : float) : float :=
  ((b - a) * f ((a + b) / 2))%float.

(** [10**x] and [log10] on the sample mass grid. *)
Definition ex_pow10 (x : float) : float :=
  if (x =? 8)%float then 1e8%float
  else if (x =? 9)%float then 1e9%float
  else if (x =? 10)%float then 1e10%float
  else 1%float.

Definition ex_log10 (x : float) : float :=
  if (x =? 1e8)%float then 8%float
  else if (x =? 1e9)%float then 9%float
  else if (x =? 1e10)%float then 10%float
  else 0%float.

Definition ex_num : Numerics :=
  {| ln10 := 2.302585092994046;
     np_log10 := ex_log10;
     pow10 := ex_pow10;
     np_pow := fun x y => if (y =? 2)%float then (x * x)%float
                          else (x * x * x)%float;
     simps := fun _ _ => 1%float;
     quad := ex_quad;
     gammainc := fun _ _ => 1%float;
     fsolve := fun _ x0 _ _ => x0;
     curve_fit := fun _ _ p0 => Ok p0;
     interp1d_cubic := fun _ _ => Ok (fun _ => Ok 0%float) |}.

Definition ex_cosm : Cosmology :=
  {| rho_m_z0 := 2.7e-30; rho_b_z0 := 4.2e-31; fbaryon := 0.16;
     g_per_baryon := 1.9e-24 |}.

Definition ex_src (c : float) : Source :=
  {| Spectrum := fun _ => c; AveragePhotonEnergy := fun _ _ => 20%float |}.

Definition ex_halos : Halos :=
  {| halos_z := [6; 7]%float;
     halos_M := [1e8; 1e9; 1e10]%float;
     halos_logM := [8; 9; 10]%float;
     halos_dndm := [[1e-8; 1e-10; 1e-12]; [1e-8; 1e-10; 1e-12]]%float;
     MF_ngtm := fun _ => [1; 1; 1]%float;
     VirialMass := fun _ _ _ => 1e8%float |}.

Definition ex_constraints (phi_star : float) : Constraints :=
  {| c_z := [6]%float; c_alpha := [0]%float; c_phi_star := [phi_star];
     c_M_star := [-21]%float |}.

Definition ex_pf (model units : string) (sfrd : option (float -> float))
  : ParameterFile :=
  {| pop_model := model;
     pop_yield := 1e40;
     pop_yield_units := units;
     pop_EminNorm := 10.2;
     pop_EmaxNorm := 13.6;
     pop_Emin := 1;
     pop_Emax := 1000;
     pop_Emin_xray := 200;
     pop_fesc := 0.1;
     pop_fstar := FstarConst 0.1;
     pop_sfrd := sfrd;
     pop_Macc := Some (fun _ M => M);
     pop_Mmin := Some (PyArray [1e9; 1e9]%float);
     pop_Tmin := 1e4;
     mu := 0.61;
     pop_logM := [8; 9; 10]%float;
     pop_constraints := ex_constraints 1e-3 |}.

Definition ex_pop (model units : string) (sfrd : option (float -> float))
                  (dfcolldt : float -> float) : Population :=
  {| pf := ex_pf model units sfrd;
     cosm := ex_cosm;
     halos := ex_halos;
     src := ex_src 2;
     zform := 50;
     dfcolldt := dfcolldt;
     mAB_to_L := fun _ _ => 1e29%float |}.

(** A collapsed-fraction population whose collapsed fraction grows. *)
Definition ex_fcoll : Population :=
  ex_pop "fcoll" " Erg / S / SFR" None (fun _ => 1e-17%float).

(** An abundance-matching population. *)
Definition ex_ham : Population :=
  ex_pop "ham" "erg/s/hz/sfr" None (fun _ => 1e-17%float).

(** A collapsed-fraction population whose collapsed fraction shrinks. *)
Definition ex_fcoll_shrinking : Population :=
  ex_pop "fcoll" "erg/s/sfr" None (fun _ => (-1e-17)%float).

(** The sample routines with a root finder and an incomplete gamma
    function of one's choice. *)
Definition ex_num_with (fs : (float -> float) -> float -> float -> Z -> float)
                       (gi : float -> float -> float) : Numerics :=
  {| ln10 := ln10 ex_num;
     np_log10 := np_log10 ex_num;
     pow10 := pow10 ex_num;
     np_pow := np_pow ex_num;
     simps := simps ex_num;
     quad := quad ex_num;
     gammainc := gi;
     fsolve := fs;
     curve_fit := curve_fit ex_num;
     interp1d_cubic := interp1d_cubic ex_num |}.

(** The sample abundance-matching population with a luminosity function
    normalized to zero: no galaxies, and one halo per unit volume above
    every mass. *)
Definition ex_ham_no_galaxies : Population :=
  {| pf := {| pop_model := "ham";
              pop_yield := 1e40;
              pop_yield_units := "erg/s/hz/sfr";
              pop_EminNorm := 10.2;
              pop_EmaxNorm := 13.6;
              pop_Emin := 1;
              pop_Emax := 1000;
              pop_Emin_xray := 200;
              pop_fesc := 0.1;
              pop_fstar := FstarConst 0.1;
              pop_sfrd := None;
              pop_Macc := Some (fun _ M => M);
              pop_Mmin := Some (PyArray [1e9; 1e9]%float);
              pop_Tmin := 1e4;
              mu := 0.61;
              pop_logM := [8; 9; 10]%float;
              pop_constraints := ex_constraints 0 |};
     cosm := ex_cosm;
     halos := ex_halos;
     src := ex_src 2;
     zform := 50;
     dfcolldt := fun _ => 1e-17%float;
     mAB_to_L := fun _ _ => 1e29%float |}.


(* ================================================================== *)
(** * Sequences of calls and what they keep *)
(* ================================================================== *)

(** The store after a sequence of calls on the instance. *)
Definition run (K : Constants) (num : Numerics) (pop : Population)
               (cs : list call) (st : State) : State :=
  fold_left (fun s c => exec K num pop c s) cs st.

(** An attribute that exists in [st] holds the same value in [st']. *)
Definition kept {A} (get : State -> option A) (st st' : State) : Prop :=
  forall v, get st = Some v -> get st' = Some v.

(** The entries of a dictionary of [st] are entries of that of [st']. *)
Definition entries_kept (get : State -> list (float * float * float))
                        (st st' : State) : Prop :=
  forall a b v, lookup2 a b (get st) = Some v -> lookup2 a b (get st') = Some v.

(** Nothing that the instance has cached in [st] is different in [st'].
    [_Mmin_of_z] is assigned by [_sfrd_ham_tab] after it has created its
    table, so it is kept once the table exists. *)
Definition attributes_kept (st st' : State) : Prop :=
  kept _yield_per_sfr st st'
  /\ kept _Mmin st st'
  /\ kept _eta st st'
  /\ kept _constraints st st'
  /\ kept _Marr_ st st'
  /\ kept _fstar_ham_pts st st'
  /\ kept _fstar_coeff_ st st'
  /\ (_fstar st = true -> _fstar st' = true)
  /\ kept _sfr_ham_ st st'
  /\ kept _sfrd_ham_tab_ st st'
  /\ (_sfrd_ham_tab_ st <> None -> kept _Mmin_of_z st st')
  /\ kept _sfrd_ham_ st st'
  /\ entries_kept _conversion_factors st st'
  /\ entries_kept _eV_per_phot st st'.

(** The property [I] of the store says that the attribute [get] exists, or
    it says nothing about the attribute: it survives every assignment
    [set] to it. *)
Definition spares {A} (I : State -> Prop) (get : State -> option A)
                  (set : option A -> State -> State) : Prop :=
  (forall st, I st -> get st <> None)
  \/ (forall v st, I st -> I (set v st)).

(* ================================================================== *)
(** * Further sample instances *)
(* ================================================================== *)

(** The sample abundance-matching population with a threshold mass and
    luminosity-function constraints of one's choice. *)
Definition ex_ham_with (Mmin : option pynum) (cs : Constraints)
  : Population :=
  {| pf := {| pop_model := "ham";
              pop_yield := 1e40;
              pop_yield_units := "erg/s/hz/sfr";
              pop_EminNorm := 10.2;
              pop_EmaxNorm := 13.6;
              pop_Emin := 1;
              pop_Emax := 1000;
              pop_Emin_xray := 200;
              pop_fesc := 0.1;
              pop_fstar := FstarConst 0.1;
              pop_sfrd := None;
              pop_Macc := Some (fun _ M => M);
              pop_Mmin := Mmin;
              pop_Tmin := 1e4;
              mu := 0.61;
              pop_logM := [8; 9; 10]%float;
              pop_constraints := cs |};
     cosm := ex_cosm;
     halos := ex_halos;
     src := ex_src 2;
     zform := 50;
     dfcolldt := fun _ => 1e-17%float;
     mAB_to_L := fun M z => (M * z)%float |}.

(** A threshold mass given for one of the two redshifts of the halo
    tables only. *)
Definition ex_ham_short_Mmin : Population :=
  ex_ham_with (Some (PyArray [1e9]%float)) (ex_constraints 1e-3).

(** A threshold mass given as one number. *)
Definition ex_ham_scalar_Mmin : Population :=
  ex_ham_with (Some (PyScalar 1e9)) (ex_constraints 1e-3).

(** Constraints at three redshifts with the characteristic magnitude of
    two of them. *)
Definition ex_ham_short_M_star : Population :=
  ex_ham_with (Some (PyArray [1e9; 1e9]%float))
    {| c_z := [6; 7; 8]%float; c_alpha := [0; 0; 0]%float;
       c_phi_star := [1e-3; 1e-3; 1e-3]%float;
       c_M_star := [-21; -20]%float |}.

(** A population of the halo-occupation kind, which [is_hod_model]
    recognizes. *)
Definition ex_hod : Population :=
  ex_pop "HOD" "erg/s/sfr" None (fun _ => 1e-17%float).

(** A collapsed-fraction population whose yield is given in units that
    [normalize_sed] does not know. *)
Definition ex_fcoll_furlongs : Population :=
  ex_pop "fcoll" "Furlongs" None (fun _ => 1e-17%float).

(* ================================================================== *)
(** * The loops of the abundance-matching rates *)
(* ================================================================== *)

(** One turn of the loop of [_sfr_ham]. *)
Definition sfr_ham_row (K : Constants) (num : Numerics) (pop : Population)
                       (i : nat) (z : float) : M unit :=
  (Macc <- lift (call_Macc_array pop z (halos_M (halos pop))) ;;
   f <- fstar K num pop z (PyArray (halos_M (halos pop))) ;;
   row <- lift (np_mul_pynum (map (mul (fbaryon (cosm pop))) Macc) f) ;;
   row <- lift (broadcast_row (length (halos_M (halos pop))) row) ;;
   modify (store_sfr_ham i row))%py.

(** The threshold masses [_sfrd_ham_tab] computes for itself. *)
Definition Mmin_of_z_value (pop : Population) : Res (list float) :=
  let hz := halos_z (halos pop) in
  match pop_Mmin (pf pop) with
  | None =>
      Ok (map (fun z => VirialMass (halos pop) (pop_Tmin (pf pop)) z
                                   (mu (pf pop))) hz)
  | Some (PyScalar x) => Ok (map (mul x) (repeat 1%float (length hz)))
  | Some (PyArray xs) => np_mul xs (repeat 1%float (length hz))
  end.

(** One turn of the loop of [_sfrd_ham_tab]. *)
Definition sfrd_ham_tab_entry (K : Constants) (num : Numerics)
                              (pop : Population) (Mmin_of_z : list float)
                              (i : nat) (z : float) : M unit :=
  (sfr <- _sfr_ham K num pop ;;
   sfr_i <- lift (getitem sfr i) ;;
   dndm_i <- lift (getitem (halos_dndm (halos pop)) i) ;;
   integrand <- lift (np_mul sfr_i dndm_i) ;;
   Mmin_i <- lift (getitem Mmin_of_z i) ;;
   k <- lift (np_argmin (map (fun m => abs (Mmin_i - m))%float
                             (halos_M (halos pop)))) ;;
   let k := Z.of_nat k in
   modify (store_sfrd_ham_tab i
             (simps num (slice_from integrand k)
                        (slice_from (halos_logM (halos pop)) k)
              * ln10 num)%float))%py.

(** Row [i] of the table [g] is [fbaryon * Macc(z, M) * fstar(z, M)] over
    the masses [M] of the halo tables, with [fstar] as the instance
    evaluates it in the store [st] (which that evaluation leaves as it
    is). *)
Definition sfr_row_of (K : Constants) (num : Numerics) (pop : Population)
                      (st : State) (g : list (list float))
                      (i : nat) (z : float) : Prop :=
  exists Macc f row row',
    call_Macc_array pop z (halos_M (halos pop)) = Ok Macc
    /\ fstar K num pop z (PyArray (halos_M (halos pop))) st = (Ok f, st)
    /\ np_mul_pynum (map (mul (fbaryon (cosm pop))) Macc) f = Ok row
    /\ broadcast_row (length (halos_M (halos pop))) row = Ok row'
    /\ nth_error g i = Some row'.

(** The efficiency function and its coefficients are in [st'] what they
    are in [st]. *)
Definition same_fstar (st st' : State) : Prop :=
  (_fstar st = true -> _fstar st' = true)
  /\ kept _fstar_coeff_ st st'.

(** Entry [i] of the array [tab] is the integral of row [i] of the table
    [sfr] times the mass function, over the logarithm of the mass from
    the mass of the halo tables nearest to [mz[i]] upwards, by Simpson's
    rule. *)
Definition sfrd_tab_entry_of (num : Numerics) (pop : Population)
                             (sfr : list (list float)) (mz tab : list float)
                             (i : nat) : Prop :=
  exists sfr_i dndm_i integrand Mmin_i k,
    nth_error sfr i = Some sfr_i
    /\ nth_error (halos_dndm (halos pop)) i = Some dndm_i
    /\ np_mul sfr_i dndm_i = Ok integrand
    /\ nth_error mz i = Some Mmin_i
    /\ np_argmin (map (fun m => abs (Mmin_i - m))%float
                      (halos_M (halos pop))) = Ok k
    /\ nth_error tab i
       = Some (simps num (slice_from integrand (Z.of_nat k))
                         (slice_from (halos_logM (halos pop)) (Z.of_nat k))
               * ln10 num)%float.

(* ================================================================== *)
(** * The arguments of the spectral source *)
(* ================================================================== *)

(** The classes a population picks its source from. *)
Inductive source_class : Type :=
| Star
| BlackHole
| LiteratureSource.

(** The [_Source] property: the class of the source, from
    [pf['pop_sed']]. *)
Definition _Source (pop_sed : string) : source_class :=
  if (pop_sed =? "bb")%string then Star
  else if ((pop_sed =? "pl") || (pop_sed =? "mcd")
           || (pop_sed =? "simpl"))%string
  then BlackHole
  else LiteratureSource.

(** [s.replace(old, new)] for a non-empty [old]: every occurrence of
    [old], from the left and without overlap.  [skip] counts the
    characters of an occurrence that are still to be dropped. *)
Fixpoint replace_from (skip : nat) (old new s : string) : string :=
  match s with
  | EmptyString => EmptyString
  | String c r =>
      match skip with
      | S n => replace_from n old new r
      | O =>
          if String.prefix old s
          then (new ++ replace_from (String.length old - 1) old new r)%string
          else String c (replace_from 0 old new r)
      end
  end.

Definition replace (old new s : string) : string := replace_from 0 old new s.

(** A dictionary with string keys: [d[k]] and [d[k] = v]. *)
Fixpoint dict_get {V} (k : string) (d : list (string * V)) : option V :=
  match d with
  | [] => None
  | (k', v) :: r => if (k' =? k)%string then Some v else dict_get k r
  end.

Fixpoint dict_set {V} (k : string) (v : V) (d : list (string * V))
  : list (string * V) :=
  match d with
  | [] => [(k, v)]
  | (k', w) :: r =>
      if (k' =? k)%string then (k', v) :: r else (k', w) :: dict_set k v r
  end.

(** The loop of [src_kwargs] over the default parameters of a source
    class: each parameter takes the value of the population's parameter
    of the same name with [source] replaced by [pop], or else its
    default. *)
Definition fill_kwargs {V} (defaults pf_dict : list (string * V))
  : list (string * V) :=
  fold_left (fun kw (item : string * V) =>
               let par := fst item in
               let par_pop := replace "source" "pop" par in
               match dict_get par_pop pf_dict with
               | Some v => dict_set par v kw
               | None => dict_set par (snd item) kw
               end)
            defaults [].

(** The [src_kwargs] property: the keyword arguments for the source.
    [spars] and [bpars] are the dictionaries [StellarParameters()] and
    [BlackHoleParameters()]; [pf_dict] is the parameter file, as a
    dictionary. *)
Definition src_kwargs {V} (pop_sed : string)
                      (spars bpars pf_dict : list (string * V))
  : list (string * V) :=
  match _Source pop_sed with
  | Star => fill_kwargs spars pf_dict
  | BlackHole => fill_kwargs bpars pf_dict
  | LiteratureSource => pf_dict
  end.

(* ================================================================== *)
(** * Stores an instance can reach *)
(* ================================================================== *)

(** Every entry of the dictionary [d] is the integral of [f] over a band
    whose bounds equal those of its key. *)
Definition band_integrals (num : Numerics) (f : float -> float)
                          (d : list (float * float * float)) : Prop :=
  forall a b c,
    lookup2 a b d = Some c ->
    exists x y, (x =? a)%float = true /\ (y =? b)%float = true
                /\ c = quad num f x y.

(** The list of characteristic luminosities that [constraints] builds. *)
Definition L_star_value (pop : Population) : list float :=
  map2 (mAB_to_L pop) (c_M_star (pop_constraints (pf pop)))
       (c_z (pop_constraints (pf pop))).

(** The initial guess of the fit and the model that is fitted. *)
Definition fit_guess : list float :=
  [-158.17; 34.7; 9.91; -0.913; -2.542; 0.062]%float.

Definition fit_model (num : Numerics) (pop : Population)
                     (Marr : list float) (coeff : list float)
  : Res (list float) :=
  res_mapM (fun zM => _fstar_poly num (fst zM) (snd zM) coeff)
           (meshgrid_flat Marr (c_z (pop_constraints (pf pop)))).

(** The arrays of the instance have the shape of the halo tables, and the
    attributes of the abundance match exist in an abundance-matching
    population only. *)
Definition shaped (pop : Population) (st : State) : Prop :=
  let nz := length (halos_z (halos pop)) in
  let nm := length (halos_M (halos pop)) in
  (forall a, _eta st = Some a -> is_ham_model pop = true /\ length a = nz)
  /\ (forall g, _sfr_ham_ st = Some g ->
                length g = nz /\ rows_of_length nm g)
  /\ (forall a, _sfrd_ham_tab_ st = Some a -> length a = nz)
  /\ (_fstar st = true ->
      is_ham_model pop = true /\ is_user_fstar pop = false).

(** What the instance has derived is derived from what it holds: the
    characteristic luminosities from the constraints, the threshold
    masses of [_sfrd_ham_tab] from the parameters, the spline from the
    array of rates it holds, and the coefficients from the grid of
    efficiencies and the grid of masses it holds. *)
Definition derived (num : Numerics) (pop : Population) (st : State)
  : Prop :=
  (forall l, _constraints st = Some l -> l = L_star_value pop)
  /\ (forall mz, _Mmin_of_z st = Some mz -> Mmin_of_z_value pop = Ok mz)
  /\ (forall f, _sfrd_ham_ st = Some f ->
        exists tab, _sfrd_ham_tab_ st = Some tab
                    /\ interp1d_cubic num (halos_z (halos pop)) tab = Ok f)
  /\ (forall coeff, _fstar_coeff_ st = Some coeff ->
        exists Marr g,
          _Marr_ st = Some Marr /\ _fstar_ham_pts st = Some g
          /\ curve_fit num (fit_model num pop Marr) (concat g) fit_guess
             = Ok coeff).

(** A grid that holds nothing but zeros. *)
Definition all_zero (g : list (list float)) : Prop :=
  forall i j v, grid_get g i j = Some v -> v = 0%float.


(* ================================================================== *)
(** * The spectral normalizer *)
(* ================================================================== *)

Section NormalizeFacts.

Variable K : Constants.
Variable pop : Population.

Local Open Scope string_scope.

Lemma pydiv_not_ValueError x y msg : pydiv x y <> Raise (ValueError msg).
Proof. unfold pydiv. destruct (y =? 0)%float; discriminate. Qed.

Lemma pydiv_nonzero x y : (y =? 0)%float = false -> pydiv x y = Ok (x / y)%float.
Proof. unfold pydiv. intros ->. reflexivity. Qed.

(** What [normalize_sed] does with the normalized tag
    ([normalized_units]: the unit tag with its space characters removed
    and the rest lower-cased): it raises the unrecognized-unit
    [ValueError] for every normalized tag outside the five supported ones,
    and never raises it for a supported one; for the tag erg/s/sfr it
    returns exactly [pop_yield * s_per_yr / g_per_msun] (Python's
    division, so for a non-zero [g_per_msun]). *)
Theorem normalize_sed_units :
  let units := normalized_units pop in
  (~ In units supported_units ->
     normalize_sed K pop =
       Raise (ValueError ("Unrecognized yield units: " ++ units)))
  /\ (In units supported_units ->
        forall msg, normalize_sed K pop <> Raise (ValueError msg))
  /\ (units = "erg/s/sfr" -> (g_per_msun K =? 0)%float = false ->
        normalize_sed K pop =
          Ok (pop_yield (pf pop) * s_per_yr K / g_per_msun K)%float).
Proof.
  intros units. unfold normalize_sed. fold units.
  unfold supported_units.
  destruct (String.eqb_spec units "erg/s/sfr") as [E1 | N1].
  { split; [| split].
    - intros H. exfalso. apply H. left. congruence.
    - intros _ msg. apply pydiv_not_ValueError.
    - intros _ Hg. apply pydiv_nonzero. exact Hg. }
  destruct (String.eqb_spec units "erg/s/hz/sfr") as [E2 | N2].
  { split; [| split].
    - intros H. exfalso. apply H. right. left. congruence.
    - intros _ msg. discriminate.
    - intros H. contradiction. }
  destruct (String.eqb_spec units "photons/baryon") as [E3 | N3].
  { split; [| split].
    - intros H. exfalso. apply H. do 2 right. left. congruence.
    - intros _ msg. apply pydiv_not_ValueError.
    - intros H. contradiction. }
  destruct (String.eqb_spec units "photons/msun") as [E4 | N4].
  { split; [| split].
    - intros H. exfalso. apply H. do 3 right. left. congruence.
    - intros _ msg. apply pydiv_not_ValueError.
    - intros H. contradiction. }
  destruct (String.eqb_spec units "photons/s/sfr") as [E5 | N5].
  { split; [| split].
    - intros H. exfalso. apply H. do 4 right. left. congruence.
    - intros _ msg. unfold pydiv.
      destruct (g_per_msun K =? 0)%float; discriminate.
    - intros H. contradiction. }
  split; [| split].
  - intros _. reflexivity.
  - intros [H | [H | [H | [H | [H | []]]]]]; congruence.
  - intros H. contradiction.
Qed.

End NormalizeFacts.

(** On the sample population the tag reads [" Erg / S / SFR"]; a tag
    in furlongs is not recognized. *)
Lemma normalize_sed_units_witness :
  normalized_units ex_fcoll = "erg/s/sfr"%string
  /\ normalize_sed ex_K ex_fcoll = Ok (1e40 * 31557600 / 1.98892e33)%float
  /\ (forall msg, normalize_sed ex_K ex_fcoll <> Raise (ValueError msg))
  /\ normalize_sed ex_K (ex_pop "fcoll" "Furlongs" None (fun _ => 0%float))
     = Raise (ValueError "Unrecognized yield units: furlongs").
Proof.
  split; [reflexivity |].
  destruct (normalize_sed_units ex_K ex_fcoll) as [_ [H2 H3]].
  destruct (normalize_sed_units ex_K
              (ex_pop "fcoll" "Furlongs" None (fun _ => 0%float)))
    as [H1 _].
  split; [apply H3; reflexivity |].
  split; [apply H2; left; reflexivity |].
  apply H1. intros [H | [H | [H | [H | [H | []]]]]]; discriminate.
Defined.

(** C7.  The normalization falls short of the comment that heads it in
    the code ("Remove whitespace and convert everything to lower-case"):
    it removes space characters only.  The tag erg/s/sfr followed by a tab
    is the supported tag erg/s/sfr once its whitespace is stripped and it
    is lower-cased, so that [normalize_sed] should return
    [pop_yield * s_per_yr / g_per_msun], as it does for the tag without
    the tab; the code keeps the tab, matches the tag against none of the
    supported ones and raises the unrecognized-unit error. *)
Lemma normalize_sed_keeps_tab :
  let tab := String (ascii_of_nat 9) EmptyString in
  let tag := ("erg/s/sfr" ++ tab)%string in
  let pop := ex_pop "fcoll" tag None (fun _ => 1e-17%float) in
  strip_lower tag = "erg/s/sfr"%string
  /\ normalized_units pop = tag
  /\ normalize_sed ex_K pop =
       Raise (ValueError ("Unrecognized yield units: " ++ tag)%string)
  /\ normalize_sed ex_K (ex_pop "fcoll" "erg/s/sfr" None
                                (fun _ => 1e-17%float))
     = Ok (1e40 * 31557600 / 1.98892e33)%float.
Proof.
  repeat split.
Qed.

(* ================================================================== *)
(** * The star-formation-rate density *)
(* ================================================================== *)

Section SFRDFacts.

Variable K : Constants.
Variable num : Numerics.
Variable pop : Population.

(** C5.  Beyond the formation redshift [SFRD] returns exactly [0.0], for
    every population (whatever its model and whatever function of
    redshift the user supplied), and leaves the instance as it was. *)
Theorem SFRD_zero_beyond_zform (z : float) (st : State) :
  (zform pop <? z)%float = true ->
  SFRD K num pop z st = (Ok 0%float, st).
Proof.
  intros H. unfold SFRD. rewrite H. reflexivity.
Qed.

(** C4 (as amended).  For a collapsed-fraction population without a
    user-supplied SFRD and with a numeric efficiency: at a redshift not
    beyond the formation redshift where
    [pop_fstar * rho_b_z0 * dfcolldt(z)] is negative, [SFRD] raises
    instead of returning; and whatever [SFRD] returns to the caller is not
    negative. *)
Theorem SFRD_fcoll_halts_on_negative (f0 : float) :
  is_fcoll_model pop = true ->
  pop_sfrd (pf pop) = None ->
  pop_fstar (pf pop) = FstarConst f0 ->
  (forall z st,
      (zform pop <? z)%float = false ->
      (f0 * rho_b_z0 (cosm pop) * dfcolldt pop z <? 0)%float = true ->
      SFRD K num pop z st = (Raise (NameError "negative_SFRD"), st))
  /\ (forall z st v st',
        SFRD K num pop z st = (Ok v, st') -> (v <? 0)%float = false).
Proof.
  intros Hm Hs Hf. split.
  - intros z st Hz Hneg. unfold SFRD. rewrite Hz, Hs, Hm, Hf, Hneg.
    reflexivity.
  - intros z st v st'. unfold SFRD. rewrite Hs, Hm, Hf.
    destruct (zform pop <? z)%float.
    + unfold ret. intros E. injection E as <- _. reflexivity.
    + destruct (f0 * rho_b_z0 (cosm pop) * dfcolldt pop z <? 0)%float eqn:E0.
      * discriminate.
      * unfold ret. intros E. injection E as <- _. exact E0.
Qed.

(** C6 (as amended).  For a collapsed-fraction population without a
    user-supplied SFRD and with the fixed efficiency [0.1]: when
    [0.1 * rho_b_z0 * dfcolldt(10)] is not negative, [SFRD(10)] returns
    exactly that product (no unit conversion is applied on this path);
    and [SFRD(100)], with 100 beyond the formation redshift, returns
    [0.0]. *)
Theorem SFRD_fcoll_scenario (st : State) :
  is_fcoll_model pop = true ->
  pop_sfrd (pf pop) = None ->
  pop_fstar (pf pop) = FstarConst 0.1%float ->
  ((zform pop <? 10)%float = false ->
   (0.1 * rho_b_z0 (cosm pop) * dfcolldt pop 10 <? 0)%float = false ->
   SFRD K num pop 10%float st
   = (Ok (0.1 * rho_b_z0 (cosm pop) * dfcolldt pop 10)%float, st))
  /\ ((zform pop <? 100)%float = true ->
      SFRD K num pop 100%float st = (Ok 0%float, st)).
Proof.
  intros Hm Hs Hf. split.
  - intros Hz Hpos. unfold SFRD. rewrite Hz, Hs, Hm, Hf, Hpos. reflexivity.
  - intros Hz. unfold SFRD. rewrite Hz. reflexivity.
Qed.

End SFRDFacts.

Lemma SFRD_zero_beyond_zform_witness :
  SFRD ex_K ex_num ex_ham 100%float fresh = (Ok 0%float, fresh).
Proof.
  apply (SFRD_zero_beyond_zform ex_K ex_num ex_ham 100%float fresh).
  reflexivity.
Defined.

Lemma SFRD_fcoll_halts_on_negative_witness :
  SFRD ex_K ex_num ex_fcoll_shrinking 10%float fresh
  = (Raise (NameError "negative_SFRD"), fresh)
  /\ (0.1 * 4.2e-31 * 1e-17 <? 0)%float = false.
Proof.
  split.
  - apply (SFRD_fcoll_halts_on_negative ex_K ex_num ex_fcoll_shrinking
             0.1%float); reflexivity.
  - destruct (SFRD_fcoll_halts_on_negative ex_K ex_num ex_fcoll 0.1%float
                eq_refl eq_refl eq_refl) as [_ H].
    apply (H 10%float fresh _ fresh). reflexivity.
Defined.

(** C4, as first stated, fails: a collapsed-fraction population with a
    user-supplied SFRD returns that function's value, negative or not,
    also where [pop_fstar * rho_b_z0 * dfcolldt(z)] is negative. *)
Lemma SFRD_fcoll_user_sfrd_negative :
  let pop := ex_pop "fcoll" "erg/s/sfr" (Some (fun _ => (-1)%float))
                    (fun _ => (-1e-17)%float) in
  is_fcoll_model pop = true
  /\ (zform pop <? 10)%float = false
  /\ (0.1 * rho_b_z0 (cosm pop) * dfcolldt pop 10 <? 0)%float = true
  /\ exists v, SFRD ex_K ex_num pop 10%float fresh = (Ok v, fresh)
               /\ (v <? 0)%float = true.
Proof.
  repeat split; try reflexivity.
  eexists. split; reflexivity.
Qed.

Lemma SFRD_fcoll_scenario_witness :
  SFRD ex_K ex_num ex_fcoll 10%float fresh
  = (Ok (0.1 * 4.2e-31 * 1e-17)%float, fresh)
  /\ SFRD ex_K ex_num ex_fcoll 100%float fresh = (Ok 0%float, fresh).
Proof.
  split;
    apply (SFRD_fcoll_scenario ex_K ex_num ex_fcoll fresh); reflexivity.
Defined.

(** C6, as first stated, fails: where the collapsed fraction shrinks the
    product is negative and [SFRD(10)] raises instead of returning it. *)
Lemma SFRD_fcoll_scenario_negative :
  is_fcoll_model ex_fcoll_shrinking = true
  /\ pop_sfrd (pf ex_fcoll_shrinking) = None
  /\ pop_fstar (pf ex_fcoll_shrinking) = FstarConst 0.1%float
  /\ (zform ex_fcoll_shrinking <? 10)%float = false
  /\ SFRD ex_K ex_num ex_fcoll_shrinking 10%float fresh
     = (Raise (NameError "negative_SFRD"), fresh).
Proof.
  repeat split; reflexivity.
Qed.

(* ================================================================== *)
(** * The correction factor eta *)
(* ================================================================== *)

(** C8.  Outside the abundance-matching model every access to [eta]
    raises the model-mismatch error, and leaves the instance as it
    was. *)
Theorem eta_outside_ham K num pop (st : State) :
  is_ham_model pop = false ->
  eta K num pop st = (Raise (AttributeError "eta is a HAM thing!"), st).
Proof.
  intros H. unfold eta. rewrite H. reflexivity.
Qed.

Lemma eta_outside_ham_witness :
  eta ex_K ex_num ex_fcoll fresh
  = (Raise (AttributeError "eta is a HAM thing!"), fresh).
Proof.
  apply (eta_outside_ham ex_K ex_num ex_fcoll fresh). reflexivity.
Defined.

(* ================================================================== *)
(** * Band conversion and emissivity *)
(* ================================================================== *)

Section BandFacts.

Variable num : Numerics.
Variable pop : Population.

Lemma lookup2_store2 a b v d :
  (a =? a)%float = true -> (b =? b)%float = true ->
  lookup2 a b (store2 a b v d) = Some v.
Proof.
  intros Ha Hb. induction d as [| [[x y] w] d IH]; simpl.
  - rewrite Ha, Hb. reflexivity.
  - destruct ((x =? a)%float && (y =? b)%float) eqn:E; simpl; rewrite E.
    + reflexivity.
    + exact IH.
Qed.

Lemma convert_band_cases (Emin Emax : option float) (st : State) :
  let '(a, b) := requested_band pop Emin Emax in
  _convert_band num pop Emin Emax st =
    if bound_given Emin Emax then
      match lookup2 a b (_conversion_factors st) with
      | Some c => (Ok c, st)
      | None =>
          let q := quad num (Spectrum (src pop)) a b in
          (Ok q, set_conversion_factors
                   (store2 a b q (_conversion_factors st)) st)
      end
    else (Ok 1%float, st).
Proof.
  unfold _convert_band, requested_band, bound_given, src_is_not_None.
  destruct Emin as [a |], Emax as [b |]; unfold bind, gets, ret, modify;
    simpl; try reflexivity;
    match goal with
    | |- context [lookup2 ?x ?y ?d] => destruct (lookup2 x y d); reflexivity
    end.
Qed.


(** C3 (as amended).  [_convert_band] returns exactly [1.0], and touches
    nothing, when both bounds are omitted.  When a bound is passed (also
    when the bounds passed are the native [pop_Emin] and [pop_Emax]) it
    returns the factor cached for the requested band, or else the
    integral of the source spectrum over that band, which it caches. *)
Theorem convert_band_native (st : State) :
  _convert_band num pop None None st = (Ok 1%float, st)
  /\ (forall Emin Emax a b,
        bound_given Emin Emax = true ->
        requested_band pop Emin Emax = (a, b) ->
        (forall c, lookup2 a b (_conversion_factors st) = Some c ->
                   _convert_band num pop Emin Emax st = (Ok c, st))
        /\ (lookup2 a b (_conversion_factors st) = None ->
            let q := quad num (Spectrum (src pop)) a b in
            _convert_band num pop Emin Emax st
            = (Ok q, set_conversion_factors
                       (store2 a b q (_conversion_factors st)) st))).
Proof.
  split; [reflexivity |].
  intros Emin Emax a b Hg Hb.
  pose proof (convert_band_cases Emin Emax st) as H.
  rewrite Hb, Hg in H. split.
  - intros c Hc. rewrite Hc in H. exact H.
  - intros Hn. rewrite Hn in H. exact H.
Qed.

End BandFacts.

Lemma convert_band_native_witness :
  let cached := set_conversion_factors [(1, 1000, 1998)%float] fresh in
  _convert_band ex_num ex_fcoll None None fresh = (Ok 1%float, fresh)
  /\ _convert_band ex_num ex_fcoll (Some 1%float) (Some 1000%float) fresh
     = (Ok 1998%float, cached)
  /\ _convert_band ex_num ex_fcoll (Some 1%float) (Some 1000%float) cached
     = (Ok 1998%float, cached).
Proof.
  intros cached.
  destruct (convert_band_native ex_num ex_fcoll fresh) as [H1 H2].
  destruct (convert_band_native ex_num ex_fcoll cached) as [_ H3].
  split; [exact H1 | split].
  - apply (proj2 (H2 (Some 1%float) (Some 1000%float) 1%float 1000%float
                      eq_refl eq_refl)). reflexivity.
  - apply (proj1 (H3 (Some 1%float) (Some 1000%float) 1%float 1000%float
                      eq_refl eq_refl)). reflexivity.
Defined.

(** C3, as first stated, fails: asked for the native band by its bounds,
    [_convert_band] integrates the spectrum over it; for a spectrum that
    is 2 throughout [1, 1000] that is 1998, not 1. *)
Lemma convert_band_native_bounds_not_one :
  let Emin := pop_Emin (pf ex_fcoll) in
  let Emax := pop_Emax (pf ex_fcoll) in
  fst (_convert_band ex_num ex_fcoll (Some Emin) (Some Emax) fresh)
  = Ok 1998%float
  /\ (1998 =? 1)%float = false.
Proof.
  split; reflexivity.
Qed.

Section EmissivityFacts.

Variable K : Constants.
Variable num : Numerics.
Variable pop : Population.


(** C10.  For a collapsed-fraction population, [Emissivity(z)] with [E],
    [Emin] and [Emax] all omitted is [SFRD(z) * yield_per_sfr] times the
    band factor [1.0], with no escape-fraction factor, whatever the
    native band: it raises what [SFRD] or [yield_per_sfr] raise, and
    otherwise returns that product. *)
Theorem Emissivity_defaults (z : float) (st : State) :
  is_fcoll_model pop = true ->
  Emissivity K num pop z None None None st
  = bind (SFRD K num pop z) (fun s =>
    bind (yield_per_sfr K pop) (fun y =>
    ret (s * y * 1)%float)) st.
Proof.
  intros Hm. unfold Emissivity. rewrite Hm, Bool.orb_true_l.
  unfold bind.
  destruct (SFRD K num pop z st) as [[s | e] st1]; [| reflexivity].
  destruct (yield_per_sfr K pop st1) as [[y | e] st2]; reflexivity.
Qed.

End EmissivityFacts.



(** The native band of the sample population straddles the Lyman limit
    and reaches into the X-rays, and its escape fraction is 0.1. *)
Lemma Emissivity_defaults_witness :
  (pop_Emin (pf ex_fcoll) <? pop_Emin_xray (pf ex_fcoll))%float = true
  /\ (13.6 <? pop_Emax (pf ex_fcoll))%float = true
  /\ Emissivity ex_K ex_num ex_fcoll 10%float None None None fresh
     = (Ok (0.1 * 4.2e-31 * 1e-17 * (1e40 * 31557600 / 1.98892e33) * 1)%float,
        set_yield_per_sfr (Some (1e40 * 31557600 / 1.98892e33)%float) fresh).
Proof.
  split; [reflexivity | split; [reflexivity |]].
  rewrite (Emissivity_defaults ex_K ex_num ex_fcoll 10%float fresh eq_refl).
  reflexivity.
Defined.

(* ================================================================== *)
(** * A program logic for methods *)
(* ================================================================== *)

Lemma snd_bind {A B} (m : M A) (k : A -> M B) st :
  snd (bind m k st)
  = match fst (m st) with
    | Ok a => snd (k a (snd (m st)))
    | Raise _ => snd (m st)
    end.
Proof. unfold bind. destruct (m st) as [[a | e] st']; reflexivity. Qed.

Section KeepsRules.

Variable I : State -> Prop.

Lemma keeps_ret {A} (a : A) : keeps I (ret a).
Proof. intros st H. exact H. Qed.

Lemma keeps_raise {A} (e : exn) : keeps I (@raise A e).
Proof. intros st H. exact H. Qed.

Lemma keeps_lift {A} (r : Res A) : keeps I (lift r).
Proof. intros st H. exact H. Qed.

Lemma keeps_gets {A} (f : State -> A) : keeps I (gets f).
Proof. intros st H. exact H. Qed.

Lemma keeps_modify (f : State -> State) :
  (forall st, I st -> I (f st)) -> keeps I (modify f).
Proof. intros Hf st H. apply Hf, H. Qed.

Lemma keeps_bind {A B} (m : M A) (k : A -> M B) :
  keeps I m -> (forall a, keeps I (k a)) -> keeps I (bind m k).
Proof.
  intros Hm Hk st H. rewrite snd_bind.
  destruct (fst (m st)); [apply Hk |]; apply Hm, H.
Qed.

(** A step whose continuation may use what the step returned. *)
Lemma keeps_bind_value {A B} (m : M A) (k : A -> M B) (R : A -> Prop) :
  keeps I m ->
  (forall st a, I st -> fst (m st) = Ok a -> R a) ->
  (forall a, R a -> keeps I (k a)) ->
  keeps I (bind m k).
Proof.
  intros Hm HR Hk st H. rewrite snd_bind.
  destruct (fst (m st)) as [a | e] eqn:E; [| apply Hm, H].
  apply Hk; [apply (HR st a H E) | apply Hm, H].
Qed.

Lemma keeps_bind_lift {A B} (r : Res A) (k : A -> M B) :
  (forall a, r = Ok a -> keeps I (k a)) -> keeps I (bind (lift r) k).
Proof.
  intros Hk st H. rewrite snd_bind. unfold lift; simpl.
  destruct r as [a | e]; [apply (Hk a eq_refl), H | exact H].
Qed.

Lemma keeps_for_from {A} (xs : list A) (body : nat -> A -> M unit) i0 :
  (forall k x, nth_error xs k = Some x -> keeps I (body (i0 + k) x)) ->
  keeps I (for_from i0 xs body).
Proof.
  revert i0. induction xs as [| x xs IH]; intros i0 Hb; simpl.
  - apply keeps_ret.
  - apply keeps_bind.
    + specialize (Hb 0 x eq_refl). rewrite Nat.add_0_r in Hb. exact Hb.
    + intros _. apply IH. intros k y Hk.
      specialize (Hb (S k) y Hk). rewrite Nat.add_succ_r in Hb. exact Hb.
Qed.

Lemma keeps_for_enumerate {A} (xs : list A) (body : nat -> A -> M unit) :
  (forall k x, nth_error xs k = Some x -> keeps I (body k x)) ->
  keeps I (for_enumerate xs body).
Proof. intros Hb. apply keeps_for_from. exact Hb. Qed.

End KeepsRules.

(** The standard steps of a proof that a method maintains a property. *)
Ltac keeps_steps :=
  repeat (cbv zeta;
          lazymatch goal with
          | |- keeps _ (bind _ _) => apply keeps_bind; [| intros ?]
          | |- keeps _ (ret _) => apply keeps_ret
          | |- keeps _ (raise _) => apply keeps_raise
          | |- keeps _ (lift _) => apply keeps_lift
          | |- keeps _ (gets _) => apply keeps_gets
          | |- keeps _ (for_enumerate _ _) =>
              apply keeps_for_enumerate; intros ? ? ?
          | |- keeps _ (if ?b then _ else _) => destruct b
          | |- keeps _ (match ?x with _ => _ end) => destruct x
          | |- keeps _ (modify _) => apply keeps_modify; intros ? ?
          | _ => fail
          end).

(* ================================================================== *)
(** * Properties that every call maintains *)
(* ================================================================== *)

Section KeepsMethods.

Variable K : Constants.
Variable num : Numerics.
Variable pop : Population.

(** A property [I] of the store that the assignments of the methods
    respect: the three caches of pure values are only ever set, from
    unset, to the value their property computes; the other attributes
    may be set to anything, except the efficiency grid, which only
    [_fstar_ham] writes. *)
Variable I : State -> Prop.

Hypothesis I_yield_per_sfr : forall y st,
  I st -> _yield_per_sfr st = None -> normalize_sed K pop = Ok y ->
  I (set_yield_per_sfr (Some y) st).
Hypothesis I_Mmin : forall st,
  I st -> _Mmin st = None -> I (set_Mmin (Some (Mmin_value pop)) st).
Hypothesis I_Marr : forall st,
  I st -> _Marr_ st = None -> I (set_Marr (Some (Marr_value num pop)) st).
Hypothesis I_eta : forall v st, I st -> I (set_eta v st).
Hypothesis I_constraints : forall v st, I st -> I (set_constraints v st).
Hypothesis I_fstar_coeff : forall v st, I st -> I (set_fstar_coeff v st).
Hypothesis I_fstar : forall v st, I st -> I (set_fstar v st).
Hypothesis I_sfr_ham : forall v st, I st -> I (set_sfr_ham v st).
Hypothesis I_sfrd_ham_tab : forall v st, I st -> I (set_sfrd_ham_tab v st).
Hypothesis I_Mmin_of_z : forall v st, I st -> I (set_Mmin_of_z v st).
Hypothesis I_sfrd_ham : forall v st, I st -> I (set_sfrd_ham v st).
Hypothesis I_conversion_factors : forall v st,
  I st -> I (set_conversion_factors v st).
Hypothesis I_eV_per_phot : forall v st, I st -> I (set_eV_per_phot v st).
Hypothesis I_fstar_ham : keeps I (_fstar_ham K num pop).

Lemma keeps_yield_per_sfr : keeps I (yield_per_sfr K pop).
Proof.
  intros st H. unfold yield_per_sfr, bind, gets, lift, modify, ret. simpl.
  destruct (_yield_per_sfr st) eqn:E; simpl; [exact H |].
  destruct (normalize_sed K pop) eqn:En; simpl; auto.
Qed.

Lemma keeps_Mmin : keeps I (Mmin pop).
Proof.
  intros st H. unfold Mmin, bind, gets, modify, ret. simpl.
  destruct (_Mmin st) eqn:E; simpl; auto.
Qed.

Lemma keeps_Marr : keeps I (_Marr num pop).
Proof.
  intros st H. unfold _Marr, bind, gets, modify, ret. simpl.
  destruct (_Marr_ st) eqn:E; simpl; auto.
Qed.

Lemma keeps_eta_body i z : keeps I (eta_body K num pop i z).
Proof.
  unfold eta_body. keeps_steps; try apply keeps_Mmin.
  unfold store_eta. destruct (_eta _); auto.
Qed.

Lemma keeps_eta : keeps I (eta K num pop).
Proof.
  unfold eta. keeps_steps; auto using keeps_eta_body.
Qed.

Lemma keeps_constraints : keeps I (constraints pop).
Proof.
  unfold constraints. keeps_steps; auto.
  unfold append_L_star. destruct (_constraints _); auto.
Qed.

Lemma keeps_fstar_coeff : keeps I (_fstar_coeff K num pop).
Proof.
  unfold _fstar_coeff.
  keeps_steps; auto using keeps_Marr, keeps_constraints.
Qed.

Lemma keeps_fstar z Mh : keeps I (fstar K num pop z Mh).
Proof.
  unfold fstar. keeps_steps; auto using keeps_fstar_coeff.
Qed.

Lemma keeps_sfr_ham : keeps I (_sfr_ham K num pop).
Proof.
  unfold _sfr_ham. keeps_steps; auto using keeps_fstar.
  unfold store_sfr_ham. destruct (_sfr_ham_ _); auto.
Qed.

Lemma keeps_sfrd_ham_tab : keeps I (_sfrd_ham_tab K num pop).
Proof.
  unfold _sfrd_ham_tab. keeps_steps; auto using keeps_sfr_ham.
  all: unfold store_sfrd_ham_tab; destruct (_sfrd_ham_tab_ _); auto.
Qed.

Lemma keeps_sfrd_ham : keeps I (_sfrd_ham K num pop).
Proof.
  unfold _sfrd_ham. keeps_steps; auto using keeps_sfrd_ham_tab.
Qed.

Lemma keeps_convert_band Emin Emax : keeps I (_convert_band num pop Emin Emax).
Proof.
  unfold _convert_band, src_is_not_None.
  destruct Emin, Emax; keeps_steps; auto.
Qed.

Lemma keeps_get_energy_per_photon Emin Emax :
  keeps I (_get_energy_per_photon num pop Emin Emax).
Proof.
  unfold _get_energy_per_photon, src_is_not_None.
  destruct Emin, Emax; keeps_steps; auto.
Qed.

Lemma keeps_SFRD z : keeps I (SFRD K num pop z).
Proof.
  unfold SFRD. keeps_steps; auto using keeps_sfrd_ham.
Qed.

Lemma keeps_Emissivity z E Emin Emax :
  keeps I (Emissivity K num pop z E Emin Emax).
Proof.
  unfold Emissivity.
  keeps_steps;
    auto using keeps_SFRD, keeps_yield_per_sfr, keeps_convert_band.
Qed.

Lemma keeps_NumberEmissivity z E Emin Emax :
  keeps I (NumberEmissivity K num pop z E Emin Emax).
Proof.
  unfold NumberEmissivity. keeps_steps; auto using keeps_Emissivity.
Qed.

(** Every call maintains [I]. *)
Lemma keeps_exec (c : call) (st : State) :
  I st -> I (exec K num pop c st).
Proof.
  intros H. destruct c; simpl.
  - apply keeps_yield_per_sfr, H.
  - apply keeps_Mmin, H.
  - apply keeps_eta, H.
  - apply keeps_constraints, H.
  - apply keeps_Marr, H.
  - apply I_fstar_ham, H.
  - apply keeps_fstar_coeff, H.
  - apply keeps_fstar, H.
  - apply keeps_sfr_ham, H.
  - apply keeps_sfrd_ham_tab, H.
  - apply keeps_sfrd_ham, H.
  - apply keeps_convert_band, H.
  - apply keeps_get_energy_per_photon, H.
  - apply keeps_SFRD, H.
  - apply keeps_Emissivity, H.
  - apply keeps_NumberEmissivity, H.
Qed.

End KeepsMethods.

(* ================================================================== *)
(** * What the properties return *)
(* ================================================================== *)

Lemma nth_error_repeat_inv {A} (x y : A) n i :
  nth_error (repeat x n) i = Some y -> y = x.
Proof.
  intros H. apply nth_error_In in H. apply repeat_spec in H. exact H.
Qed.

Lemma nth_error_update_neq {A} (i k : nat) (v : A) xs :
  k <> i -> nth_error (update i v xs) k = nth_error xs k.
Proof.
  revert i k. induction xs as [| x xs IH]; intros i k Hk.
  - destruct i; reflexivity.
  - destruct i, k; simpl; try reflexivity; try congruence.
    apply IH. congruence.
Qed.

Lemma nth_error_update_eq {A} (i : nat) (v w : A) xs :
  nth_error (update i v xs) i = Some w -> w = v.
Proof.
  revert i. induction xs as [| x xs IH]; intros i.
  - destruct i; discriminate.
  - destruct i; simpl; [congruence | apply IH].
Qed.

Lemma nth_error_update_same {A} (i : nat) (v : A) xs :
  i < length xs -> nth_error (update i v xs) i = Some v.
Proof.
  revert i. induction xs as [| x xs IH]; intros i Hi; simpl in Hi.
  - lia.
  - destruct i; simpl; [reflexivity | apply IH; lia].
Qed.

Lemma length_update {A} (i : nat) (v : A) xs :
  length (update i v xs) = length xs.
Proof.
  revert i. induction xs as [| x xs IH]; intros i.
  - destruct i; reflexivity.
  - destruct i; simpl; [reflexivity | rewrite IH; reflexivity].
Qed.

Lemma bind_Ok {A B} (m : M A) (k : A -> M B) st b st' :
  bind m k st = (Ok b, st') ->
  exists a st1, m st = (Ok a, st1) /\ k a st1 = (Ok b, st').
Proof.
  unfold bind. destruct (m st) as [[a | e] st1]; [eauto | discriminate].
Qed.

Lemma bind_lift_Ok {A B} (r : Res A) (k : A -> M B) st b st' :
  bind (lift r) k st = (Ok b, st') ->
  exists a, r = Ok a /\ k a st = (Ok b, st').
Proof.
  unfold bind, lift. destruct r as [a | e]; [eauto | discriminate].
Qed.

Lemma getitem_Ok {A} (xs : list A) i x :
  getitem xs i = Ok x -> nth_error xs i = Some x.
Proof.
  unfold getitem. destruct (nth_error xs i); congruence.
Qed.

Lemma nth_error_update2_row {A} (g : list (list A)) i j v row :
  nth_error g i = Some row ->
  nth_error (update2 i j v g) i = Some (update j v row).
Proof.
  intros H. unfold update2. rewrite H.
  apply nth_error_update_same. apply nth_error_Some. congruence.
Qed.

Lemma nth_error_update2_other {A} (g : list (list A)) i j v i' :
  i' <> i -> nth_error (update2 i j v g) i' = nth_error g i'.
Proof.
  intros H. unfold update2. destruct (nth_error g i); [| reflexivity].
  apply nth_error_update_neq, H.
Qed.

Lemma length_update2 {A} (g : list (list A)) i j v :
  length (update2 i j v g) = length g.
Proof.
  unfold update2. destruct (nth_error g i); [| reflexivity].
  apply length_update.
Qed.

Section AttributeFacts.

Variable K : Constants.
Variable num : Numerics.
Variable pop : Population.

Lemma constraints_cached st l :
  _constraints st = Some l ->
  constraints pop st = (Ok (pop_constraints (pf pop), l), st).
Proof.
  intros H. unfold constraints, bind, gets. simpl. rewrite H. reflexivity.
Qed.

Lemma eta_cached st ee :
  _eta st = Some ee -> snd (eta K num pop st) = st.
Proof.
  intros H. unfold eta. destruct (negb (is_ham_model pop)); [reflexivity |].
  unfold bind, gets. simpl. rewrite H. reflexivity.
Qed.

(** What the properties return is what their attribute then holds. *)

Lemma keeps_eta_set_eta_body i z :
  keeps (fun s => _eta s <> None) (eta_body K num pop i z).
Proof.
  unfold eta_body. keeps_steps; try (apply keeps_Mmin; auto).
  unfold store_eta. destruct (_eta _) eqn:E; simpl; congruence.
Qed.

Lemma eta_uncached st :
  is_ham_model pop = true -> _eta st = None ->
  eta K num pop st
  = let st1 :=
      set_eta (Some (zeros (length (halos_z (halos pop))))) st in
    match for_enumerate (halos_z (halos pop)) (eta_body K num pop) st1 with
    | (Ok _, st2) =>
        (Ok (match _eta st2 with Some a => a | None => [] end), st2)
    | (Raise e, st2) => (Raise e, st2)
    end.
Proof.
  intros Hm E. unfold eta. rewrite Hm. simpl negb. cbv iota.
  unfold bind, gets, modify, ret. simpl. rewrite E. simpl.
  destruct (for_enumerate _ _ _) as [[[] | e] st2]; reflexivity.
Qed.

Lemma eta_returns_attribute st ee :
  fst (eta K num pop st) = Ok ee -> _eta (snd (eta K num pop st)) = Some ee.
Proof.
  destruct (is_ham_model pop) eqn:Hm.
  2:{ unfold eta. rewrite Hm. discriminate. }
  destruct (_eta st) as [a |] eqn:E.
  - unfold eta. rewrite Hm. unfold bind, gets, ret. simpl. rewrite E.
    simpl. intros H. injection H as <-. exact E.
  - rewrite (eta_uncached st Hm E). cbv zeta.
    set (st1 := set_eta _ st).
    assert (Hl : _eta (snd (for_enumerate (halos_z (halos pop))
                              (eta_body K num pop) st1)) <> None).
    { apply (keeps_for_enumerate (fun s => _eta s <> None)).
      - intros k x _. apply keeps_eta_set_eta_body.
      - simpl. discriminate. }
    destruct (for_enumerate _ _ st1) as [[[] | e] st2]; simpl in *.
    + destruct (_eta st2) as [a |]; [| congruence].
      intros H. injection H as <-. reflexivity.
    + discriminate.
Qed.

Lemma keeps_constraints_set_body i z :
  keeps (fun s => _constraints s <> None)
        (Mstar <- lift (getitem (c_M_star (pop_constraints (pf pop))) i) ;;
         modify (append_L_star (mAB_to_L pop Mstar z)))%py.
Proof.
  keeps_steps.
  unfold append_L_star. destruct (_constraints _) eqn:E; simpl; congruence.
Qed.

Lemma constraints_uncached st :
  _constraints st = None ->
  constraints pop st
  = let cs := pop_constraints (pf pop) in
    match for_enumerate (c_z cs) (fun i z =>
            Mstar <- lift (getitem (c_M_star cs) i) ;;
            modify (append_L_star (mAB_to_L pop Mstar z)))%py
            (set_constraints (Some []) st) with
    | (Ok _, st2) =>
        (Ok (cs, match _constraints st2 with Some l => l | None => [] end),
         st2)
    | (Raise e, st2) => (Raise e, st2)
    end.
Proof.
  intros E. unfold constraints.
  unfold bind at 1. unfold gets at 1. rewrite E.
  unfold bind at 1. unfold modify at 1.
  unfold bind at 1.
  destruct (for_enumerate _ _ _) as [[[] | e] st2]; reflexivity.
Qed.

Lemma constraints_returns_attribute st c :
  fst (constraints pop st) = Ok c ->
  fst c = pop_constraints (pf pop)
  /\ _constraints (snd (constraints pop st)) = Some (snd c).
Proof.
  destruct (_constraints st) as [l |] eqn:E.
  - rewrite (constraints_cached st l E). simpl.
    intros H. injection H as <-. auto.
  - rewrite (constraints_uncached st E). cbv zeta.
    set (st1 := set_constraints _ st).
    set (body := fun (i : nat) (z : float) => bind _ _).
    assert (Hl : _constraints
                   (snd (for_enumerate
                           (c_z (pop_constraints (pf pop))) body st1))
                 <> None).
    { apply (keeps_for_enumerate (fun s => _constraints s <> None)).
      - intros k x _. apply keeps_constraints_set_body.
      - simpl. discriminate. }
    destruct (for_enumerate _ body st1) as [[[] | e] st2]; simpl in *.
    + destruct (_constraints st2) as [a |]; [| congruence].
      intros H. injection H as <-. auto.
    + discriminate.
Qed.

Lemma yield_returns_attribute st y :
  fst (yield_per_sfr K pop st) = Ok y ->
  _yield_per_sfr (snd (yield_per_sfr K pop st)) = Some y.
Proof.
  unfold yield_per_sfr, bind, gets, lift, modify, ret. simpl.
  destruct (_yield_per_sfr st) as [v |] eqn:E; simpl.
  - intros H. injection H as <-. exact E.
  - destruct (normalize_sed K pop); simpl; [| discriminate].
    intros H. injection H as <-. reflexivity.
Qed.

End AttributeFacts.

(* ================================================================== *)
(** * The efficiency grid *)
(* ================================================================== *)

Section GridFacts.

Variable K : Constants.
Variable num : Numerics.
Variable pop : Population.

Lemma zero_below_Mmin_zeros2 n m : zero_below_Mmin num pop (zeros2 n m).
Proof.
  intros i j row v Mj mi Hrow Hv _ _ _. unfold zeros2 in Hrow.
  apply nth_error_repeat_inv in Hrow. subst row.
  apply nth_error_repeat_inv in Hv. exact Hv.
Qed.

Lemma grid_shape_zeros2 :
  grid_shape num pop
    (zeros2 (length (c_z (pop_constraints (pf pop))))
            (length (Marr_value num pop))).
Proof.
  split.
  - unfold zeros2. apply repeat_length.
  - intros i row H. unfold zeros2 in H. apply nth_error_repeat_inv in H.
    subst row. apply repeat_length.
Qed.

Lemma grid_shape_update2 g i j v :
  grid_shape num pop g -> grid_shape num pop (update2 i j v g).
Proof.
  intros [Hl Hr]. split.
  - rewrite length_update2. exact Hl.
  - intros i' r Hr'. destruct (Nat.eq_dec i' i) as [-> | Ni].
    + unfold update2 in Hr'.
      destruct (nth_error g i) as [row |] eqn:Er; [| apply (Hr i r Hr')].
      apply nth_error_update_eq in Hr'. subst r.
      rewrite length_update. apply (Hr i row Er).
    + rewrite nth_error_update2_other in Hr' by exact Ni.
      apply (Hr i' r Hr').
Qed.

Lemma zero_below_Mmin_update2 g i j v Mj m :
  zero_below_Mmin num pop g ->
  nth_error (Marr_value num pop) j = Some Mj ->
  pynum_getitem (Mmin_value pop) i = Ok m ->
  (Mj <? m)%float = false ->
  zero_below_Mmin num pop (update2 i j v g).
Proof.
  intros Hg HMj Hm Hlt. unfold update2.
  destruct (nth_error g i) as [row |] eqn:Er; [| exact Hg].
  intros i' j' row' v' Mj' m' Hrow' Hv' HMj' Hm' Hlt'.
  destruct (Nat.eq_dec i' i) as [-> | Ni].
  - apply nth_error_update_eq in Hrow'. subst row'.
    destruct (Nat.eq_dec j' j) as [-> | Nj].
    + congruence.
    + rewrite nth_error_update_neq in Hv' by exact Nj.
      exact (Hg i j' row v' Mj' m' Er Hv' HMj' Hm' Hlt').
  - rewrite nth_error_update_neq in Hrow' by exact Ni.
    exact (Hg i' j' row' v' Mj' m' Hrow' Hv' HMj' Hm' Hlt').
Qed.

(** [grid_invariant] and the assignments of the methods. *)

Lemma gi_yield_per_sfr y st :
  grid_invariant num pop st -> _yield_per_sfr st = None ->
  normalize_sed K pop = Ok y -> grid_invariant num pop (set_yield_per_sfr (Some y) st).
Proof. intros H _ _. exact H. Qed.

Lemma gi_Mmin st :
  grid_invariant num pop st -> _Mmin st = None ->
  grid_invariant num pop (set_Mmin (Some (Mmin_value pop)) st).
Proof.
  intros [[_ Ha] Hg] _. split; [split |]; simpl; auto. congruence.
Qed.

Lemma gi_Marr st :
  grid_invariant num pop st -> _Marr_ st = None ->
  grid_invariant num pop (set_Marr (Some (Marr_value num pop)) st).
Proof.
  intros [[Hv _] Hg] _. split; [split |]; simpl; auto. congruence.
Qed.

Lemma gi_eta v st : grid_invariant num pop st -> grid_invariant num pop (set_eta v st).
Proof. intros H. exact H. Qed.

Lemma gi_constraints v st :
  grid_invariant num pop st -> grid_invariant num pop (set_constraints v st).
Proof. intros H. exact H. Qed.

Lemma Mmin_value_coherent st v :
  grid_invariant num pop st -> fst (Mmin pop st) = Ok v -> v = Mmin_value pop.
Proof.
  intros [[Hv _] _]. unfold Mmin, bind, gets, modify, ret. simpl.
  destruct (_Mmin st) as [w |] eqn:E; simpl; intros H; injection H as <-;
    auto.
Qed.

Lemma Marr_value_coherent st a :
  grid_invariant num pop st -> fst (_Marr num pop st) = Ok a ->
  a = Marr_value num pop.
Proof.
  intros [[_ Ha] _]. unfold _Marr, bind, gets, modify, ret. simpl.
  destruct (_Marr_ st) as [w |] eqn:E; simpl; intros H; injection H as <-;
    auto.
Qed.

Lemma keeps_gi_ham_cell kappa_UV i z alpha L_star phi_star j Mj :
  nth_error (Marr_value num pop) j = Some Mj ->
  keeps (grid_invariant num pop)
        (ham_cell K num pop kappa_UV i z alpha L_star phi_star j Mj).
Proof.
  intros HMj. unfold ham_cell.
  apply keeps_bind_value with (R := fun mm => mm = Mmin_value pop).
  { apply keeps_Mmin, gi_Mmin. }
  { intros st a. apply Mmin_value_coherent. }
  intros mm ->. apply keeps_bind_lift. intros m Hm.
  destruct (Mj <? m)%float eqn:Hlt; [apply keeps_ret |].
  keeps_steps; try (apply keeps_eta; [apply gi_Mmin | apply gi_eta]).
  match goal with H : grid_invariant num pop _ |- _ => destruct H as [Hc Hg] end.
  unfold store_fstar_ham.
  destruct (_fstar_ham_pts _) as [g |] eqn:Eg; [| split; [exact Hc |]].
  - split; [exact Hc |]. simpl. intros g' Hg'. injection Hg' as <-.
    destruct (Hg g eq_refl) as [Hzero Hshape]. split.
    + apply zero_below_Mmin_update2 with (Mj := Mj) (m := m); auto.
    + apply grid_shape_update2, Hshape.
  - intros g' Hg'. congruence.
Qed.

Lemma keeps_gi_fstar_ham : keeps (grid_invariant num pop) (_fstar_ham K num pop).
Proof.
  unfold _fstar_ham.
  apply keeps_bind; [apply keeps_gets |]. intros [g |]; [apply keeps_ret |].
  apply keeps_bind; [apply keeps_yield_per_sfr, gi_yield_per_sfr |].
  intros y. apply keeps_bind_lift. intros kappa_UV _.
  apply keeps_bind_value with (R := fun a => a = Marr_value num pop).
  { apply keeps_Marr, gi_Marr. }
  { intros st a. apply Marr_value_coherent. }
  intros Marr ->.
  apply keeps_bind_value
    with (R := fun c => fst c = pop_constraints (pf pop)).
  { apply keeps_constraints, gi_constraints. }
  { intros st c _ Hc. apply (constraints_returns_attribute pop st c Hc). }
  intros c Hc. cbv zeta. rewrite Hc. apply keeps_bind.
  { apply keeps_modify. intros st [Hcoh _]. split; [exact Hcoh |].
    simpl. intros g Hg. injection Hg as <-.
    split; [apply zero_below_Mmin_zeros2 | apply grid_shape_zeros2]. }
  intros _.
  apply keeps_bind; [apply keeps_constraints, gi_constraints |]. intros c'.
  apply keeps_bind; [| intros _; keeps_steps].
  apply keeps_for_enumerate. intros i z _. unfold ham_row.
  keeps_steps; try apply keeps_constraints, gi_constraints.
  apply keeps_gi_ham_cell. assumption.
Qed.

(** Every store an instance can be in satisfies [grid_invariant]. *)
Lemma reachable_grid_invariant st :
  reachable K num pop st -> grid_invariant num pop st.
Proof.
  induction 1 as [| c st _ IH].
  - split; [split |]; simpl; intros; discriminate.
  - apply keeps_exec; try exact IH; intros; try assumption.
    + apply gi_Mmin; assumption.
    + apply gi_Marr; assumption.
    + apply keeps_gi_fstar_ham.
Qed.

(** Once the grid exists no call replaces or changes it. *)
Lemma exec_keeps_grid g c st :
  _fstar_ham_pts st = Some g ->
  _fstar_ham_pts (exec K num pop c st) = Some g.
Proof.
  intros H.
  apply (keeps_exec K num pop (fun s => _fstar_ham_pts s = Some g));
    try exact H; intros; try assumption.
  intros s Hs. unfold _fstar_ham, bind, gets. simpl. rewrite Hs. exact Hs.
Qed.

(** C9.  In every store an instance can reach, the efficiency grid, once
    [_fstar_ham] has allocated it, has a row per constraint redshift and a
    column per grid mass, and holds exactly [0] at every [(i, j)] with
    [Marr[j] < Mmin[i]]; no later call changes the grid; and [_fstar_ham]
    returns it as it is. *)
Theorem fstar_ham_zero_below_Mmin (st : State) (g : list (list float)) :
  reachable K num pop st ->
  _fstar_ham_pts st = Some g ->
  (length g = length (c_z (pop_constraints (pf pop)))
   /\ forall i row, nth_error g i = Some row ->
                    length row = length (Marr_value num pop))
  /\ (forall i j row v Mj m,
        nth_error g i = Some row ->
        nth_error row j = Some v ->
        nth_error (Marr_value num pop) j = Some Mj ->
        pynum_getitem (Mmin_value pop) i = Ok m ->
        (Mj <? m)%float = true ->
        v = 0%float)
  /\ (forall c, _fstar_ham_pts (exec K num pop c st) = Some g)
  /\ _fstar_ham K num pop st = (Ok g, st).
Proof.
  intros Hr Hg.
  apply reachable_grid_invariant in Hr. destruct Hr as [_ Hz].
  destruct (Hz g Hg) as [Hzero Hshape].
  split; [exact Hshape | split; [exact Hzero | split]].
  - intros c. apply exec_keeps_grid, Hg.
  - unfold _fstar_ham, bind, gets. simpl. rewrite Hg. reflexivity.
Qed.

End GridFacts.

Lemma fstar_ham_zero_below_Mmin_witness :
  let st := exec ex_K ex_num ex_ham Get_fstar_ham fresh in
  let g := [[0; 0.001; 0.001]]%float in
  _fstar_ham_pts st = Some g
  /\ nth_error (Marr_value ex_num ex_ham) 0 = Some 1e8%float
  /\ pynum_getitem (Mmin_value ex_ham) 0 = Ok 1e9%float
  /\ (forall v, grid_get g 0 0 = Some v -> v = 0%float)
  /\ (forall c, _fstar_ham_pts (exec ex_K ex_num ex_ham c st) = Some g)
  /\ _fstar_ham ex_K ex_num ex_ham st = (Ok g, st).
Proof.
  intros st g.
  assert (Hg : _fstar_ham_pts st = Some g) by (vm_compute; reflexivity).
  destruct (fstar_ham_zero_below_Mmin ex_K ex_num ex_ham st g)
    as [_ [H1 [H2 H3]]].
  - apply reachable_exec, reachable_fresh.
  - exact Hg.
  - repeat split; try assumption; try reflexivity.
    intros v Hv.
    apply (H1 0 0 [0; 0.001; 0.001]%float v 1e8%float 1e9%float);
      try reflexivity. exact Hv.
Defined.

(* ================================================================== *)
(** * What the abundance match stores *)
(* ================================================================== *)

Lemma caches_kept_refl st : caches_kept st st.
Proof. repeat split; auto. Qed.

Lemma caches_kept_trans st1 st2 st3 :
  caches_kept st1 st2 -> caches_kept st2 st3 -> caches_kept st1 st3.
Proof.
  intros [A1 [B1 C1]] [A2 [B2 C2]]. repeat split; auto.
Qed.

Section HamFacts.

Variable K : Constants.
Variable num : Numerics.
Variable pop : Population.

Lemma quiet_Mmin : quiet num pop (Mmin pop).
Proof.
  intros st. split; [split; [| split] | split]; intros.
  - apply (keeps_Mmin pop (fun s => _yield_per_sfr s = Some v)); auto.
  - apply (keeps_Mmin pop (fun s => _constraints s = Some v)); auto.
  - apply (keeps_Mmin pop (fun s => _eta s = Some v)); auto.
  - apply (keeps_Mmin pop
             (fun s => _fstar_ham_pts s = _fstar_ham_pts st)); auto.
  - apply (keeps_Mmin pop (grid_invariant num pop));
      auto using gi_Mmin.
Qed.

Lemma quiet_constraints : quiet num pop (constraints pop).
Proof.
  intros st. split; [split; [| split] | split]; intros.
  - apply (keeps_constraints pop (fun s => _yield_per_sfr s = Some v)); auto.
  - rewrite (constraints_cached pop st v H). exact H.
  - apply (keeps_constraints pop (fun s => _eta s = Some v)); auto.
  - apply (keeps_constraints pop
             (fun s => _fstar_ham_pts s = _fstar_ham_pts st)); auto.
  - apply (keeps_constraints pop (grid_invariant num pop)); auto.
Qed.

Lemma quiet_eta : quiet num pop (eta K num pop).
Proof.
  intros st. split; [split; [| split] | split]; intros.
  - apply (keeps_eta K num pop (fun s => _yield_per_sfr s = Some v)); auto.
  - apply (keeps_eta K num pop (fun s => _constraints s = Some v)); auto.
  - rewrite (eta_cached K num pop st v H). exact H.
  - apply (keeps_eta K num pop
             (fun s => _fstar_ham_pts s = _fstar_ham_pts st)); auto.
  - apply (keeps_eta K num pop (grid_invariant num pop));
      auto using gi_Mmin.
Qed.

End HamFacts.

Section HamRun.

Variable K : Constants.
Variable num : Numerics.
Variable pop : Population.

Lemma solved_cell_kept st st' kappa_UV i j v :
  caches_kept st st' ->
  solved_cell num pop st kappa_UV i j v -> solved_cell num pop st' kappa_UV i j v.
Proof.
  intros [_ [Hc He]].
  intros (l & Ls & ee & e & z & a & p & Mj & Macc & n & H1 & H2 & H3 & H).
  exists l, Ls, ee, e, z, a, p, Mj, Macc, n. auto.
Qed.

Lemma caches_kept_store_fstar_ham i j v st :
  caches_kept st (store_fstar_ham i j v st).
Proof.
  unfold store_fstar_ham. destruct (_fstar_ham_pts st); repeat split; auto.
Qed.

Section Row.

Variables (kappa_UV : float) (i : nat) (z alpha L_star phi_star : float).
Variable l : list float.

Hypothesis Hz : nth_error (c_z (pop_constraints (pf pop))) i = Some z.
Hypothesis Halpha : nth_error (c_alpha (pop_constraints (pf pop))) i = Some alpha.
Hypothesis Hphi : nth_error (c_phi_star (pop_constraints (pf pop))) i = Some phi_star.
Hypothesis HL : nth_error l i = Some L_star.

Lemma ham_cell_run j Mj st st' g :
  grid_invariant num pop st ->
  _fstar_ham_pts st = Some g ->
  _constraints st = Some l ->
  nth_error (Marr_value num pop) j = Some Mj ->
  ham_cell K num pop kappa_UV i z alpha L_star phi_star j Mj st
  = (Ok tt, st') ->
  caches_kept st st'
  /\ grid_invariant num pop st'
  /\ exists m,
       pynum_getitem (Mmin_value pop) i = Ok m
       /\ if (Mj <? m)%float then _fstar_ham_pts st' = Some g
          else exists v,
                 _fstar_ham_pts st' = Some (update2 i j v g)
                 /\ solved_cell num pop st' kappa_UV i j v.
Proof.
  intros Hinv Hg Hl HMj Hrun.
  assert (Hinv' : grid_invariant num pop st').
  { pose proof (keeps_gi_ham_cell K num pop kappa_UV i z alpha L_star
                  phi_star j Mj HMj st Hinv) as H.
    rewrite Hrun in H. exact H. }
  unfold ham_cell in Hrun.
  apply bind_Ok in Hrun as (mm & s1 & E1 & Hrun).
  pose proof (Mmin_value_coherent num pop st mm Hinv) as Hmm.
  rewrite E1 in Hmm. specialize (Hmm eq_refl). subst mm.
  destruct (quiet_Mmin num pop st) as [Hk1 [Hp1 _]].
  rewrite E1 in Hk1, Hp1. simpl in Hk1, Hp1.
  apply bind_lift_Ok in Hrun as (m & Hm & Hrun).
  split; [| split; [exact Hinv' |]].
  - destruct (Mj <? m)%float.
    + injection Hrun as <-. exact Hk1.
    + apply bind_lift_Ok in Hrun as (Macc & _ & Hrun).
      apply bind_Ok in Hrun as (ee & s2 & E2 & Hrun).
      destruct (quiet_eta K num pop s1) as [Hk2 _].
      rewrite E2 in Hk2. simpl in Hk2.
      apply bind_lift_Ok in Hrun as (e & _ & Hrun).
      apply bind_lift_Ok in Hrun as (n & _ & Hrun).
      injection Hrun as <-.
      eapply caches_kept_trans; [exact Hk1 |].
      eapply caches_kept_trans; [exact Hk2 |].
      apply caches_kept_store_fstar_ham.
  - exists m. split; [exact Hm |].
    destruct (Mj <? m)%float.
    + injection Hrun as <-. congruence.
    + apply bind_lift_Ok in Hrun as (Macc & HMacc & Hrun).
      apply bind_Ok in Hrun as (ee & s2 & E2 & Hrun).
      destruct (quiet_eta K num pop s1) as [Hk2 [Hp2 _]].
      rewrite E2 in Hk2, Hp2. simpl in Hk2, Hp2.
      pose proof (eta_returns_attribute K num pop s1 ee) as Hee.
      rewrite E2 in Hee. specialize (Hee eq_refl). simpl in Hee.
      apply bind_lift_Ok in Hrun as (e & He & Hrun).
      apply bind_lift_Ok in Hrun as (n & Hn & Hrun).
      unfold modify in Hrun. injection Hrun as <-.
      assert (Hg2 : _fstar_ham_pts s2 = Some g) by congruence.
      eexists. split.
      * unfold store_fstar_ham. rewrite Hg2. reflexivity.
      * apply solved_cell_kept with (st := s2);
          [apply caches_kept_store_fstar_ham |].
        exists l, L_star, ee, e, z, alpha, phi_star, Mj, Macc, n.
        repeat split; auto.
        -- apply Hk2, Hk1, Hl.
        -- apply getitem_Ok, He.
Qed.

Lemma ham_cells_run xs :
  forall j0 st st' g row,
    grid_invariant num pop st ->
    _fstar_ham_pts st = Some g ->
    _constraints st = Some l ->
    nth_error g i = Some row ->
    (forall k x, nth_error xs k = Some x ->
                 nth_error (Marr_value num pop) (j0 + k) = Some x) ->
    j0 + length xs <= length row ->
    for_from j0 xs (ham_cell K num pop kappa_UV i z alpha L_star phi_star) st
    = (Ok tt, st') ->
    caches_kept st st'
    /\ grid_invariant num pop st'
    /\ exists g' row',
         _fstar_ham_pts st' = Some g'
         /\ length g' = length g
         /\ (forall i', i' <> i -> nth_error g' i' = nth_error g i')
         /\ nth_error g' i = Some row'
         /\ length row' = length row
         /\ (forall j', j' < j0 -> nth_error row' j' = nth_error row j')
         /\ (forall k x m,
                nth_error xs k = Some x ->
                pynum_getitem (Mmin_value pop) i = Ok m ->
                (x <? m)%float = false ->
                exists v, nth_error row' (j0 + k) = Some v
                          /\ solved_cell num pop st' kappa_UV i (j0 + k) v).
Proof.
  induction xs as [| x xs IH]; intros j0 st st' g row Hinv Hg Hl Hrow HM Hlen
    Hrun.
  - simpl in Hrun. injection Hrun as <-.
    split; [apply caches_kept_refl | split; [exact Hinv |]].
    exists g, row. repeat split; auto.
    intros k x m Hk. destruct k; discriminate.
  - simpl in Hrun. simpl in Hlen.
    apply bind_Ok in Hrun as ([] & s1 & E1 & Hrun).
    assert (HMx : nth_error (Marr_value num pop) j0 = Some x).
    { specialize (HM 0 x eq_refl). rewrite Nat.add_0_r in HM. exact HM. }
    destruct (ham_cell_run j0 x st s1 g Hinv Hg Hl HMx E1)
      as (Hk1 & Hinv1 & m & Hm & Hcell).
    assert (Hl1 : _constraints s1 = Some l) by (apply Hk1, Hl).
    (* the grid and its row [i] after the cell *)
    assert (Hg1 : exists g1 row1,
               _fstar_ham_pts s1 = Some g1
               /\ length g1 = length g
               /\ (forall i', i' <> i -> nth_error g1 i' = nth_error g i')
               /\ nth_error g1 i = Some row1
               /\ length row1 = length row
               /\ (forall j', j' <> j0 ->
                              nth_error row1 j' = nth_error row j')
               /\ ((x <? m)%float = false ->
                   exists v, nth_error row1 j0 = Some v
                             /\ solved_cell num pop s1 kappa_UV i j0 v)).
    { destruct (x <? m)%float.
      - exists g, row. repeat split; auto. discriminate.
      - destruct Hcell as (v & Hv & Hs).
        exists (update2 i j0 v g), (update j0 v row). repeat split.
        + exact Hv.
        + apply length_update2.
        + intros i' Hi'. apply nth_error_update2_other, Hi'.
        + apply nth_error_update2_row, Hrow.
        + apply length_update.
        + intros j' Hj'. apply nth_error_update_neq, Hj'.
        + intros _. exists v. split; [| exact Hs].
          apply nth_error_update_same. lia. }
    destruct Hg1 as (g1 & row1 & Hg1 & Hlg1 & Ho1 & Hr1 & Hlr1 & Hs1 & Hv1).
    assert (HM' : forall k y, nth_error xs k = Some y ->
                   nth_error (Marr_value num pop) (S j0 + k) = Some y).
    { intros k y Hk. specialize (HM (S k) y Hk).
      rewrite Nat.add_succ_r in HM. exact HM. }
    assert (Hlen' : S j0 + length xs <= length row1) by lia.
    destruct (IH (S j0) s1 st' g1 row1 Hinv1 Hg1 Hl1 Hr1 HM' Hlen' Hrun)
      as (Hk2 & Hinv2 & g' & row' & Hg' & Hlg' & Ho' & Hr' & Hlr' & Hs' & Hv').
    split; [eapply caches_kept_trans; eassumption | split; [exact Hinv2 |]].
    exists g', row'. repeat split.
    + exact Hg'.
    + congruence.
    + intros i' Hi'. rewrite Ho', Ho1; auto.
    + exact Hr'.
    + congruence.
    + intros j' Hj'. rewrite Hs' by lia. apply Hs1. lia.
    + intros k y m' Hk Hm' Hlt. destruct k as [| k].
      * simpl in Hk. injection Hk as <-.
        assert (m' = m) by congruence. subst m'.
        destruct (Hv1 Hlt) as (v & Hv & Hs).
        exists v. rewrite Nat.add_0_r. split.
        -- rewrite Hs' by lia. exact Hv.
        -- eapply solved_cell_kept; eassumption.
      * simpl in Hk. destruct (Hv' k y m' Hk Hm' Hlt) as (v & Hv & Hs).
        exists v. rewrite Nat.add_succ_r. auto.
Qed.

End Row.

Lemma rows_of_length_zeros2 n m : rows_of_length m (zeros2 n m).
Proof.
  intros i row H. unfold zeros2 in H. apply nth_error_repeat_inv in H.
  subst row. apply repeat_length.
Qed.

Lemma ham_row_run kappa_UV i z st st' g :
  grid_invariant num pop st ->
  _fstar_ham_pts st = Some g ->
  rows_of_length (length (Marr_value num pop)) g ->
  i < length g ->
  nth_error (c_z (pop_constraints (pf pop))) i = Some z ->
  ham_row K num pop kappa_UV (Marr_value num pop) i z st = (Ok tt, st') ->
  caches_kept st st'
  /\ grid_invariant num pop st'
  /\ exists g',
       _fstar_ham_pts st' = Some g'
       /\ length g' = length g
       /\ rows_of_length (length (Marr_value num pop)) g'
       /\ (forall i', i' <> i -> nth_error g' i' = nth_error g i')
       /\ (forall j Mj m,
              nth_error (Marr_value num pop) j = Some Mj ->
              pynum_getitem (Mmin_value pop) i = Ok m ->
              (Mj <? m)%float = false ->
              exists v, grid_get g' i j = Some v
                        /\ solved_cell num pop st' kappa_UV i j v).
Proof.
  intros Hinv Hg Hshape Hi Hz Hrun. unfold ham_row in Hrun.
  apply bind_Ok in Hrun as (c1 & s1 & E1 & Hrun).
  destruct (quiet_constraints num pop st) as [Hk1 [Hp1 Hi1]].
  pose proof (constraints_returns_attribute pop st c1) as Hc1.
  rewrite E1 in Hk1, Hp1, Hi1, Hc1. simpl in Hk1, Hp1, Hi1, Hc1.
  destruct (Hc1 eq_refl) as [Hcs1 Hl1]. clear Hc1.
  apply bind_lift_Ok in Hrun as (alpha & Halpha & Hrun).
  rewrite Hcs1 in Halpha. apply getitem_Ok in Halpha.
  apply bind_Ok in Hrun as (c2 & s2 & E2 & Hrun).
  rewrite (constraints_cached pop s1 (snd c1) Hl1) in E2.
  injection E2 as <- <-.
  apply bind_lift_Ok in Hrun as (L_star & HL & Hrun).
  simpl in HL. apply getitem_Ok in HL.
  apply bind_Ok in Hrun as (c3 & s3 & E3 & Hrun).
  rewrite (constraints_cached pop s1 (snd c1) Hl1) in E3.
  injection E3 as <- <-.
  apply bind_lift_Ok in Hrun as (phi_star & Hphi & Hrun).
  simpl in Hphi. apply getitem_Ok in Hphi.
  unfold for_enumerate in Hrun.
  destruct (nth_error g i) as [row |] eqn:Hrow;
    [| apply nth_error_None in Hrow; lia].
  assert (Hg1 : _fstar_ham_pts s1 = Some g) by congruence.
  assert (Hlen : 0 + length (Marr_value num pop) <= length row).
  { rewrite (Hshape i row Hrow). simpl. lia. }
  destruct (ham_cells_run kappa_UV i z alpha L_star phi_star (snd c1)
              Hz Halpha Hphi HL (Marr_value num pop) 0 s1 st' g row
              (Hi1 Hinv) Hg1 Hl1 Hrow (fun k x H => H) Hlen Hrun)
    as (Hk2 & Hinv2 & g' & row' & Hg' & Hlg' & Ho' & Hr' & Hlr' & _ & Hv').
  split; [eapply caches_kept_trans; eassumption | split; [exact Hinv2 |]].
  exists g'. repeat split; auto.
  - intros i' r Hr. destruct (Nat.eq_dec i' i) as [-> | Ni].
    + rewrite Hr' in Hr. injection Hr as <-.
      rewrite Hlr'. apply (Hshape i row Hrow).
    + rewrite Ho' in Hr by exact Ni. apply (Hshape i' r Hr).
  - intros j Mj m HMj Hm Hlt.
    destruct (Hv' j Mj m HMj Hm Hlt) as (v & Hv & Hs).
    exists v. split; [| exact Hs]. unfold grid_get. rewrite Hr'. exact Hv.
Qed.

Lemma ham_rows_run kappa_UV zs :
  forall i0 st st' g,
    grid_invariant num pop st ->
    _fstar_ham_pts st = Some g ->
    rows_of_length (length (Marr_value num pop)) g ->
    i0 + length zs <= length g ->
    (forall k z, nth_error zs k = Some z ->
                 nth_error (c_z (pop_constraints (pf pop))) (i0 + k) = Some z) ->
    for_from i0 zs (ham_row K num pop kappa_UV (Marr_value num pop)) st
    = (Ok tt, st') ->
    caches_kept st st'
    /\ grid_invariant num pop st'
    /\ exists g',
         _fstar_ham_pts st' = Some g'
         /\ length g' = length g
         /\ rows_of_length (length (Marr_value num pop)) g'
         /\ (forall i', i' < i0 -> nth_error g' i' = nth_error g i')
         /\ (forall k z j Mj m,
                nth_error zs k = Some z ->
                nth_error (Marr_value num pop) j = Some Mj ->
                pynum_getitem (Mmin_value pop) (i0 + k) = Ok m ->
                (Mj <? m)%float = false ->
                exists v, grid_get g' (i0 + k) j = Some v
                          /\ solved_cell num pop st' kappa_UV (i0 + k) j v).
Proof.
  induction zs as [| z zs IH]; intros i0 st st' g Hinv Hg Hshape Hlen Hz Hrun.
  - simpl in Hrun. injection Hrun as <-.
    split; [apply caches_kept_refl | split; [exact Hinv |]].
    exists g. repeat split; auto.
    intros k z j Mj m Hk. destruct k; discriminate.
  - simpl in Hrun. simpl in Hlen.
    apply bind_Ok in Hrun as ([] & s1 & E1 & Hrun).
    assert (Hz0 : nth_error (c_z (pop_constraints (pf pop))) i0 = Some z).
    { specialize (Hz 0 z eq_refl). rewrite Nat.add_0_r in Hz. exact Hz. }
    assert (Hi0 : i0 < length g) by lia.
    destruct (ham_row_run kappa_UV i0 z st s1 g Hinv Hg Hshape Hi0 Hz0 E1)
      as (Hk1 & Hinv1 & g1 & Hg1 & Hlg1 & Hsh1 & Ho1 & Hv1).
    assert (Hz' : forall k y, nth_error zs k = Some y ->
                   nth_error (c_z (pop_constraints (pf pop))) (S i0 + k) = Some y).
    { intros k y Hk. specialize (Hz (S k) y Hk).
      rewrite Nat.add_succ_r in Hz. exact Hz. }
    assert (Hlen' : S i0 + length zs <= length g1) by lia.
    destruct (IH (S i0) s1 st' g1 Hinv1 Hg1 Hsh1 Hlen' Hz' Hrun)
      as (Hk2 & Hinv2 & g' & Hg' & Hlg' & Hsh' & Ho' & Hv').
    split; [eapply caches_kept_trans; eassumption | split; [exact Hinv2 |]].
    exists g'. repeat split; auto.
    + congruence.
    + intros i' Hi'. rewrite Ho' by lia. apply Ho1. lia.
    + intros k y j Mj m Hk HMj Hm Hlt. destruct k as [| k].
      * simpl in Hk. injection Hk as <-. rewrite Nat.add_0_r in *.
        destruct (Hv1 j Mj m HMj Hm Hlt) as (v & Hv & Hs).
        exists v. split.
        -- unfold grid_get in *. rewrite Ho' by lia. exact Hv.
        -- eapply solved_cell_kept; eassumption.
      * simpl in Hk. rewrite Nat.add_succ_r in *.
        apply (Hv' k y j Mj m Hk HMj Hm Hlt).
Qed.

(** C1 (as amended).  When the first access to [_fstar_ham] on an instance
    returns, the grid it returns is the one the instance keeps, and for
    every constraint redshift [z_i] and every grid mass [M_j] that is not
    below [Mmin[i]], its entry [(i, j)] is the value the root finder
    returned for the objective
    [| phi_star * Gamma(alpha + 1, L(f) / L_star) - n(>M_j) |]
    (infinite where [L(f) < 0]), with
    [L(f) = f * Macc(z_i, M_j) * eta[i] / kappa_UV] and
    [kappa_UV = 1 / yield_per_sfr], from the seed 0.001.  Whether that
    value satisfies the abundance-matching equation is the root finder's
    affair: the residual is not checked. *)
Theorem fstar_ham_stores_solver_output (st0 st1 : State)
                                       (g : list (list float)) :
  reachable K num pop st0 ->
  _fstar_ham_pts st0 = None ->
  _fstar_ham K num pop st0 = (Ok g, st1) ->
  exists y kappa_UV,
    _yield_per_sfr st1 = Some y
    /\ pydiv 1 y = Ok kappa_UV
    /\ _fstar_ham_pts st1 = Some g
    /\ forall i j z Mj m,
         nth_error (c_z (pop_constraints (pf pop))) i = Some z ->
         nth_error (Marr_value num pop) j = Some Mj ->
         pynum_getitem (Mmin_value pop) i = Ok m ->
         (Mj <? m)%float = false ->
         exists v, grid_get g i j = Some v
                   /\ solved_cell num pop st1 kappa_UV i j v.
Proof.
  intros Hreach Hnone Hrun.
  pose proof (reachable_grid_invariant K num pop st0 Hreach) as Hinv0.
  unfold _fstar_ham in Hrun.
  apply bind_Ok in Hrun as (c0 & s0 & E0 & Hrun).
  unfold gets in E0. injection E0 as <- <-. rewrite Hnone in Hrun.
  (* yield_per_sfr *)
  apply bind_Ok in Hrun as (y & s1 & E1 & Hrun).
  pose proof (yield_returns_attribute K pop st0 y) as Hy1.
  pose proof (keeps_yield_per_sfr K pop (grid_invariant num pop)
                (gi_yield_per_sfr K num pop) st0 Hinv0) as Hinv1.
  rewrite E1 in Hy1, Hinv1. simpl in Hy1, Hinv1. specialize (Hy1 eq_refl).
  apply bind_lift_Ok in Hrun as (kappa_UV & Hkappa & Hrun).
  (* _Marr *)
  apply bind_Ok in Hrun as (Marr & s2 & E2 & Hrun).
  pose proof (Marr_value_coherent num pop s1 Marr Hinv1) as HMarr.
  pose proof (keeps_Marr num pop (grid_invariant num pop)
                (gi_Marr num pop) s1 Hinv1) as Hinv2.
  pose proof (keeps_Marr num pop (fun s => _yield_per_sfr s = Some y)
                (fun s H _ => H) s1 Hy1) as Hy2.
  rewrite E2 in HMarr, Hinv2, Hy2. simpl in HMarr, Hinv2, Hy2.
  specialize (HMarr eq_refl). subst Marr.
  (* constraints *)
  apply bind_Ok in Hrun as (c & s3 & E3 & Hrun).
  destruct (quiet_constraints num pop s2) as [Hk3 [_ Hi3]].
  pose proof (constraints_returns_attribute pop s2 c) as Hc.
  rewrite E3 in Hk3, Hi3, Hc. simpl in Hk3, Hi3, Hc.
  destruct (Hc eq_refl) as [Hcs Hl3]. clear Hc.
  (* the grid of zeros *)
  cbv zeta in Hrun.
  apply bind_Ok in Hrun as ([] & s4 & E4 & Hrun).
  unfold modify in E4. injection E4 as <-.
  set (g0 := zeros2 (length (c_z (fst c))) (length (Marr_value num pop)))
    in *.
  set (s4 := set_fstar_ham_pts (Some g0) s3) in *.
  assert (Hinv4 : grid_invariant num pop s4).
  { destruct (Hi3 Hinv2) as [Hcoh _]. split; [exact Hcoh |].
    simpl. intros g' Hg'. injection Hg' as <-. unfold g0. rewrite Hcs.
    split; [apply zero_below_Mmin_zeros2 | apply grid_shape_zeros2]. }
  assert (Hl4 : _constraints s4 = Some (snd c)) by exact Hl3.
  assert (Hy4 : _yield_per_sfr s4 = Some y).
  { destruct Hk3 as [Hk3 _]. apply Hk3, Hy2. }
  apply bind_Ok in Hrun as (c' & s5 & E5 & Hrun).
  rewrite (constraints_cached pop s4 (snd c) Hl4) in E5.
  injection E5 as <- <-.
  (* the loop *)
  apply bind_Ok in Hrun as ([] & s6 & E6 & Hrun).
  unfold for_enumerate in E6. simpl fst in E6.
  assert (Hlen : 0 + length (c_z (pop_constraints (pf pop))) <= length g0).
  { unfold g0, zeros2. rewrite repeat_length, Hcs. simpl. lia. }
  destruct (ham_rows_run kappa_UV (c_z (pop_constraints (pf pop))) 0 s4 s6
              g0 Hinv4 eq_refl (rows_of_length_zeros2 _ _) Hlen
              (fun k z H => H) E6)
    as (Hk6 & _ & g' & Hg' & _ & _ & _ & Hv).
  apply bind_Ok in Hrun as (og & s7 & E7 & Hrun).
  unfold gets in E7. injection E7 as <- <-.
  unfold ret in Hrun. rewrite Hg' in Hrun. injection Hrun as <- <-.
  exists y, kappa_UV. repeat split; auto.
  - destruct Hk6 as [Hk6 _]. apply Hk6, Hy4.
  - intros i j z Mj m Hz HMj Hm Hlt.
    apply (Hv i z j Mj m Hz HMj Hm Hlt).
Qed.

End HamRun.

Lemma fstar_ham_stores_solver_output_witness :
  let st1 := snd (_fstar_ham ex_K ex_num ex_ham fresh) in
  let g := [[0; 0.001; 0.001]]%float in
  exists y kappa_UV,
    _yield_per_sfr st1 = Some y
    /\ pydiv 1 y = Ok kappa_UV
    /\ _fstar_ham_pts st1 = Some g
    /\ exists v, grid_get g 0 1 = Some v
                 /\ solved_cell ex_num ex_ham st1 kappa_UV 0 1 v.
Proof.
  intros st1 g.
  assert (Hrun : _fstar_ham ex_K ex_num ex_ham fresh = (Ok g, st1))
    by (vm_compute; reflexivity).
  destruct (fstar_ham_stores_solver_output ex_K ex_num ex_ham fresh st1 g
              (reachable_fresh ex_K ex_num ex_ham) eq_refl Hrun)
    as (y & kappa_UV & Hy & Hk & Hg & Hv).
  exists y, kappa_UV. repeat split; try assumption.
  apply (Hv 0 1 6%float 1e9%float 1e9%float); reflexivity.
Defined.

(* ================================================================== *)
(** * The abundance-matching equation *)
(* ================================================================== *)

(** Zero times anything is a zero or not a number, never close to 1. *)
Lemma zero_mul_not_close_to_one (x : float) :
  rel_close 1e-3 (0 * x)%float 1%float = false.
Proof.
  rewrite <- (SF2Prim_Prim2SF (0 * x)%float), mul_spec.
  change (Prim2SF 0%float) with (S754_zero false).
  unfold SF64mul, SFmul.
  destruct (Prim2SF x) as [s | s | | s m e]; try destruct s; reflexivity.
Qed.

(** C1, as first stated, fails: for the population without galaxies the
    left-hand side of the equation is zero (or not a number) whatever the
    efficiency, and one halo per unit volume is to be matched; so
    whatever the root finder returns, and whatever the incomplete gamma
    function is, the stored efficiency does not satisfy the equation. *)
Lemma ham_grid_does_not_match :
  ~ exists fs gi,
      ham_grid_matches ex_K (ex_num_with fs gi) ex_ham_no_galaxies.
Proof.
  intros (fs & gi & H).
  eassert (Hrun : _fstar_ham ex_K (ex_num_with fs gi) ex_ham_no_galaxies
                    fresh = (Ok _, _))
    by (vm_compute; reflexivity).
  destruct (H _ _ Hrun 0 1 6%float 1e9%float 1e9%float
              eq_refl eq_refl eq_refl eq_refl)
    as (f & _ & M).
  destruct M as (y & kappa & ee & e & l & Ls & z & a & p & Mj & Macc & n
                 & _ & _ & _ & _ & _ & _ & Hz & _ & Hp & HMj & _ & Hn & Hc).
  simpl in Hz, Hp, HMj. injection Hz as <-. injection Hp as <-.
  injection HMj as <-.
  vm_compute in Hn. injection Hn as <-.
  rewrite zero_mul_not_close_to_one in Hc. discriminate.
Qed.

(* ================================================================== *)
(** * Attributes are assigned once *)
(* ================================================================== *)

Lemma lookup2_store2_other a b v k1 k2 w d :
  lookup2 a b d = Some v -> lookup2 k1 k2 d = None ->
  lookup2 a b (store2 k1 k2 w d) = Some v.
Proof.
  induction d as [| [[x y] u] d IH]; simpl; [discriminate |].
  intros Hab Hk.
  destruct ((x =? k1)%float && (y =? k2)%float) eqn:Ek; [discriminate |].
  simpl. destruct ((x =? a)%float && (y =? b)%float); [exact Hab |].
  apply IH; assumption.
Qed.

Lemma get_energy_per_photon_cases num pop (Emin Emax : option float)
                                  (st : State) :
  let '(a, b) := requested_band pop Emin Emax in
  _get_energy_per_photon num pop Emin Emax st =
    match lookup2 a b (_eV_per_phot st) with
    | Some c => (Ok c, st)
    | None =>
        let q := quad num (fun E => Spectrum (src pop) E * E)%float a b in
        (Ok q, set_eV_per_phot (store2 a b q (_eV_per_phot st)) st)
    end.
Proof.
  unfold _get_energy_per_photon, requested_band, src_is_not_None.
  destruct Emin as [a |], Emax as [b |]; unfold bind, gets, ret, modify;
    simpl;
    match goal with
    | |- context [lookup2 ?x ?y ?d] => destruct (lookup2 x y d); reflexivity
    end.
Qed.

(** ** Rules for the properties and methods

    What it takes for a property or method to maintain a property [I] of
    the store, given that the properties it reads maintain [I]. *)

Section OwnerRules.

Variable K : Constants.
Variable num : Numerics.
Variable pop : Population.

Variable I : State -> Prop.

(** A lazily cached property returns at once where its attribute
    exists. *)
Lemma keeps_cached {A B} (get : State -> option A) (k : option A -> M B) :
  (forall st, I st -> get st <> None) ->
  (forall a, keeps I (k (Some a))) ->
  keeps I (bind (gets get) k).
Proof.
  intros Hset Hk st H. unfold bind, gets.
  destruct (get st) as [a |] eqn:E.
  - apply (Hk a st H).
  - exfalso. apply (Hset st H E).
Qed.

Lemma owner_yield_per_sfr :
  spares I _yield_per_sfr set_yield_per_sfr -> keeps I (yield_per_sfr K pop).
Proof.
  intros [Hs | Hf]; unfold yield_per_sfr.
  - apply keeps_cached; [exact Hs | intros a; apply keeps_ret].
  - keeps_steps; auto.
Qed.

Lemma owner_Mmin : spares I _Mmin set_Mmin -> keeps I (Mmin pop).
Proof.
  intros [Hs | Hf]; unfold Mmin.
  - apply keeps_cached; [exact Hs | intros a; apply keeps_ret].
  - keeps_steps; auto.
Qed.

Lemma owner_Marr : spares I _Marr_ set_Marr -> keeps I (_Marr num pop).
Proof.
  intros [Hs | Hf]; unfold _Marr.
  - apply keeps_cached; [exact Hs | intros a; apply keeps_ret].
  - keeps_steps; auto.
Qed.

Lemma owner_constraints :
  spares I _constraints set_constraints -> keeps I (constraints pop).
Proof.
  intros [Hs | Hf]; unfold constraints.
  - apply keeps_cached; [exact Hs | intros a; apply keeps_ret].
  - keeps_steps; auto.
    unfold append_L_star. destruct (_constraints _); auto.
Qed.

Lemma owner_eta :
  keeps I (Mmin pop) -> spares I _eta set_eta -> keeps I (eta K num pop).
Proof.
  intros HMmin [Hs | Hf]; unfold eta;
    (destruct (negb (is_ham_model pop)); [apply keeps_raise |]).
  - apply keeps_cached; [exact Hs | intros a; apply keeps_ret].
  - keeps_steps; auto. unfold eta_body.
    keeps_steps; try exact HMmin.
    unfold store_eta. destruct (_eta _); auto.
Qed.

Lemma owner_fstar_ham :
  keeps I (yield_per_sfr K pop) -> keeps I (_Marr num pop) ->
  keeps I (constraints pop) -> keeps I (Mmin pop) ->
  keeps I (eta K num pop) ->
  spares I _fstar_ham_pts set_fstar_ham_pts ->
  keeps I (_fstar_ham K num pop).
Proof.
  intros Hy HMarr Hc HMmin Heta [Hs | Hf]; unfold _fstar_ham.
  - apply keeps_cached; [exact Hs | intros a; apply keeps_ret].
  - keeps_steps; auto.
    unfold ham_row. keeps_steps; auto.
    unfold ham_cell. keeps_steps; auto.
    unfold store_fstar_ham. destruct (_fstar_ham_pts _); auto.
Qed.

Lemma owner_fstar_coeff :
  keeps I (_Marr num pop) -> keeps I (constraints pop) ->
  keeps I (_fstar_ham K num pop) ->
  spares I _fstar_coeff_ set_fstar_coeff ->
  keeps I (_fstar_coeff K num pop).
Proof.
  intros HMarr Hc Hg [Hs | Hf]; unfold _fstar_coeff.
  - apply keeps_cached; [exact Hs | intros a; apply keeps_ret].
  - keeps_steps; auto.
Qed.

Lemma call_fstar z Mh :
  keeps I (_fstar_coeff K num pop) ->
  (forall st, I st -> I (set_fstar true st)) ->
  keeps I (fstar K num pop z Mh).
Proof.
  intros Hc Hflag. unfold fstar. keeps_steps; auto.
Qed.

Lemma owner_sfr_ham :
  (forall z Mh, keeps I (fstar K num pop z Mh)) ->
  spares I _sfr_ham_ set_sfr_ham ->
  keeps I (_sfr_ham K num pop).
Proof.
  intros Hfstar [Hs | Hf]; unfold _sfr_ham.
  - apply keeps_cached; [exact Hs | intros a; apply keeps_ret].
  - keeps_steps; auto.
    unfold store_sfr_ham. destruct (_sfr_ham_ _); auto.
Qed.

Lemma owner_sfrd_ham_tab :
  keeps I (_sfr_ham K num pop) ->
  spares I _sfrd_ham_tab_ set_sfrd_ham_tab ->
  (forall st, I st -> _sfrd_ham_tab_ st <> None)
  \/ (forall v st, I st -> I (set_Mmin_of_z v st)) ->
  keeps I (_sfrd_ham_tab K num pop).
Proof.
  intros Hsfr Ht Hz. unfold _sfrd_ham_tab.
  destruct Ht as [Hs | Hf];
    [apply keeps_cached; [exact Hs | intros a; apply keeps_ret] |].
  destruct Hz as [Hs | Hz];
    [apply keeps_cached; [exact Hs | intros a; apply keeps_ret] |].
  keeps_steps; auto.
  all: unfold store_sfrd_ham_tab; destruct (_sfrd_ham_tab_ _); auto.
Qed.

Lemma owner_sfrd_ham :
  keeps I (_sfrd_ham_tab K num pop) ->
  spares I _sfrd_ham_ set_sfrd_ham ->
  keeps I (_sfrd_ham K num pop).
Proof.
  intros Ht [Hs | Hf]; unfold _sfrd_ham.
  - apply keeps_cached; [exact Hs | intros a; apply keeps_ret].
  - keeps_steps; auto.
Qed.

Lemma call_convert_band Emin Emax :
  (forall a b st,
      I st -> lookup2 a b (_conversion_factors st) = None ->
      I (set_conversion_factors
           (store2 a b (quad num (Spectrum (src pop)) a b)
                   (_conversion_factors st)) st)) ->
  keeps I (_convert_band num pop Emin Emax).
Proof.
  intros Hd st H. pose proof (convert_band_cases num pop Emin Emax st) as E.
  destruct (requested_band pop Emin Emax) as [a b]. rewrite E.
  destruct (bound_given Emin Emax); [| exact H].
  destruct (lookup2 a b (_conversion_factors st)) eqn:El; simpl; auto.
Qed.

Lemma call_get_energy_per_photon Emin Emax :
  (forall a b st,
      I st -> lookup2 a b (_eV_per_phot st) = None ->
      I (set_eV_per_phot
           (store2 a b
              (quad num (fun E => Spectrum (src pop) E * E)%float a b)
              (_eV_per_phot st)) st)) ->
  keeps I (_get_energy_per_photon num pop Emin Emax).
Proof.
  intros Hd st H.
  pose proof (get_energy_per_photon_cases num pop Emin Emax st) as E.
  destruct (requested_band pop Emin Emax) as [a b]. rewrite E.
  destruct (lookup2 a b (_eV_per_phot st)) eqn:El; simpl; auto.
Qed.

Lemma call_SFRD z :
  keeps I (_sfrd_ham K num pop) -> keeps I (SFRD K num pop z).
Proof.
  intros Hs. unfold SFRD. keeps_steps; auto.
Qed.

Lemma call_Emissivity z E Emin Emax :
  keeps I (SFRD K num pop z) -> keeps I (yield_per_sfr K pop) ->
  keeps I (_convert_band num pop Emin Emax) ->
  keeps I (Emissivity K num pop z E Emin Emax).
Proof.
  intros Hs Hy Hc. unfold Emissivity. keeps_steps; auto.
Qed.

Lemma call_NumberEmissivity z E Emin Emax :
  keeps I (Emissivity K num pop z E Emin Emax) ->
  keeps I (NumberEmissivity K num pop z E Emin Emax).
Proof.
  intros He. unfold NumberEmissivity. keeps_steps; auto.
Qed.

End OwnerRules.

(** ** Every call, from the properties *)

Section Calls.

Variable K : Constants.
Variable num : Numerics.
Variable pop : Population.

Variable I : State -> Prop.

Hypothesis C_yield_per_sfr : keeps I (yield_per_sfr K pop).
Hypothesis C_Mmin : keeps I (Mmin pop).
Hypothesis C_eta : keeps I (eta K num pop).
Hypothesis C_constraints : keeps I (constraints pop).
Hypothesis C_Marr : keeps I (_Marr num pop).
Hypothesis C_fstar_ham : keeps I (_fstar_ham K num pop).
Hypothesis C_fstar_coeff : keeps I (_fstar_coeff K num pop).
Hypothesis C_fstar : forall z Mh, keeps I (fstar K num pop z Mh).
Hypothesis C_sfr_ham : keeps I (_sfr_ham K num pop).
Hypothesis C_sfrd_ham_tab : keeps I (_sfrd_ham_tab K num pop).
Hypothesis C_sfrd_ham : keeps I (_sfrd_ham K num pop).
Hypothesis C_convert_band : forall Emin Emax,
  keeps I (_convert_band num pop Emin Emax).
Hypothesis C_get_energy_per_photon : forall Emin Emax,
  keeps I (_get_energy_per_photon num pop Emin Emax).

(** Every call maintains what the properties and the two band methods
    maintain. *)
Lemma calls_exec (c : call) (st : State) :
  I st -> I (exec K num pop c st).
Proof.
  intros H. destruct c; simpl;
    try (first [ apply C_yield_per_sfr | apply C_Mmin | apply C_eta
               | apply C_constraints | apply C_Marr | apply C_fstar_ham
               | apply C_fstar_coeff | apply C_fstar | apply C_sfr_ham
               | apply C_sfrd_ham_tab | apply C_sfrd_ham
               | apply C_convert_band | apply C_get_energy_per_photon ];
         exact H).
  - apply call_SFRD; assumption.
  - apply call_Emissivity; auto using call_SFRD.
  - apply call_NumberEmissivity;
      [apply call_Emissivity; auto using call_SFRD | exact H].
Qed.

End Calls.

(** ** Properties of the store that spare the attributes *)

Section Spared.

Variable K : Constants.
Variable num : Numerics.
Variable pop : Population.

Variable I : State -> Prop.

Hypothesis S_yield_per_sfr : spares I _yield_per_sfr set_yield_per_sfr.
Hypothesis S_Mmin : spares I _Mmin set_Mmin.
Hypothesis S_Marr : spares I _Marr_ set_Marr.
Hypothesis S_eta : spares I _eta set_eta.
Hypothesis S_constraints : spares I _constraints set_constraints.
Hypothesis S_fstar_ham : spares I _fstar_ham_pts set_fstar_ham_pts.
Hypothesis S_fstar_coeff : spares I _fstar_coeff_ set_fstar_coeff.
Hypothesis S_fstar : forall st, I st -> I (set_fstar true st).
Hypothesis S_sfr_ham : spares I _sfr_ham_ set_sfr_ham.
Hypothesis S_sfrd_ham_tab : spares I _sfrd_ham_tab_ set_sfrd_ham_tab.
Hypothesis S_Mmin_of_z :
  (forall st, I st -> _sfrd_ham_tab_ st <> None)
  \/ (forall v st, I st -> I (set_Mmin_of_z v st)).
Hypothesis S_sfrd_ham : spares I _sfrd_ham_ set_sfrd_ham.
Hypothesis S_conversion_factors : forall a b st,
  I st -> lookup2 a b (_conversion_factors st) = None ->
  I (set_conversion_factors
       (store2 a b (quad num (Spectrum (src pop)) a b)
               (_conversion_factors st)) st).
Hypothesis S_eV_per_phot : forall a b st,
  I st -> lookup2 a b (_eV_per_phot st) = None ->
  I (set_eV_per_phot
       (store2 a b (quad num (fun E => Spectrum (src pop) E * E)%float a b)
               (_eV_per_phot st)) st).

Lemma spared_yield_per_sfr : keeps I (yield_per_sfr K pop).
Proof. apply owner_yield_per_sfr, S_yield_per_sfr. Qed.

Lemma spared_Mmin : keeps I (Mmin pop).
Proof. apply owner_Mmin, S_Mmin. Qed.

Lemma spared_Marr : keeps I (_Marr num pop).
Proof. apply owner_Marr, S_Marr. Qed.

Lemma spared_constraints : keeps I (constraints pop).
Proof. apply owner_constraints, S_constraints. Qed.

Lemma spared_eta : keeps I (eta K num pop).
Proof. apply owner_eta; [apply spared_Mmin | apply S_eta]. Qed.

Lemma spared_fstar_ham : keeps I (_fstar_ham K num pop).
Proof.
  apply owner_fstar_ham;
    auto using spared_yield_per_sfr, spared_Marr, spared_constraints,
               spared_Mmin, spared_eta.
Qed.

Lemma spared_fstar_coeff : keeps I (_fstar_coeff K num pop).
Proof.
  apply owner_fstar_coeff;
    auto using spared_Marr, spared_constraints, spared_fstar_ham.
Qed.

Lemma spared_fstar z Mh : keeps I (fstar K num pop z Mh).
Proof. apply call_fstar; auto using spared_fstar_coeff. Qed.

Lemma spared_sfr_ham : keeps I (_sfr_ham K num pop).
Proof. apply owner_sfr_ham; auto using spared_fstar. Qed.

Lemma spared_sfrd_ham_tab : keeps I (_sfrd_ham_tab K num pop).
Proof. apply owner_sfrd_ham_tab; auto using spared_sfr_ham. Qed.

Lemma spared_sfrd_ham : keeps I (_sfrd_ham K num pop).
Proof. apply owner_sfrd_ham; auto using spared_sfrd_ham_tab. Qed.

(** Every call maintains a property that spares the attributes. *)
Lemma spared_exec (c : call) (st : State) :
  I st -> I (exec K num pop c st).
Proof.
  apply calls_exec;
    auto using spared_yield_per_sfr, spared_Mmin, spared_eta,
               spared_constraints, spared_Marr, spared_fstar_ham,
               spared_fstar_coeff, spared_fstar, spared_sfr_ham,
               spared_sfrd_ham_tab, spared_sfrd_ham,
               call_convert_band, call_get_energy_per_photon.
Qed.

End Spared.


Ltac spare :=
  first [ solve [left; intros ? Hs; simpl in *; congruence]
        | solve [right; intros ? ? Hs; exact Hs]
        | solve [intros ? Hs; exact Hs]
        | solve [intros; simpl in *; first [assumption | congruence]] ].

Lemma attributes_kept_refl st : attributes_kept st st.
Proof. unfold attributes_kept, kept, entries_kept. repeat split; auto. Qed.

Lemma attributes_kept_trans st1 st2 st3 :
  attributes_kept st1 st2 -> attributes_kept st2 st3 ->
  attributes_kept st1 st3.
Proof.
  unfold attributes_kept, kept, entries_kept.
  intros (A1 & A2 & A3 & A4 & A5 & A6 & A7 & A8 & A9 & A10 & A11 & A12 & A13
          & A14)
         (B1 & B2 & B3 & B4 & B5 & B6 & B7 & B8 & B9 & B10 & B11 & B12 & B13
          & B14).
  repeat split; auto.
  intros Ht v Hv. apply B11.
  - destruct (_sfrd_ham_tab_ st1) as [t |] eqn:E; [| congruence].
    rewrite (A10 t eq_refl). discriminate.
  - apply A11; assumption.
Qed.

Section SetOnce.

Variable K : Constants.
Variable num : Numerics.
Variable pop : Population.

(** A call leaves what is cached as it is. *)
Lemma exec_keeps_attributes (c : call) (st : State) :
  attributes_kept st (exec K num pop c st).
Proof.
  unfold attributes_kept, kept, entries_kept.
  repeat match goal with |- _ /\ _ => split end.
  - intros v H.
    apply (spared_exec K num pop (fun s => _yield_per_sfr s = Some v));
      try spare.
  - intros v H.
    apply (spared_exec K num pop (fun s => _Mmin s = Some v)); try spare.
  - intros v H.
    apply (spared_exec K num pop (fun s => _eta s = Some v)); try spare.
  - intros v H.
    apply (spared_exec K num pop (fun s => _constraints s = Some v));
      try spare.
  - intros v H.
    apply (spared_exec K num pop (fun s => _Marr_ s = Some v)); try spare.
  - intros v H.
    apply (spared_exec K num pop (fun s => _fstar_ham_pts s = Some v));
      try spare.
  - intros v H.
    apply (spared_exec K num pop (fun s => _fstar_coeff_ s = Some v));
      try spare.
  - intros H.
    apply (spared_exec K num pop (fun s => _fstar s = true)); try spare.
  - intros v H.
    apply (spared_exec K num pop (fun s => _sfr_ham_ s = Some v)); try spare.
  - intros v H.
    apply (spared_exec K num pop (fun s => _sfrd_ham_tab_ s = Some v));
      try spare.
  - intros Ht v H.
    apply (spared_exec K num pop
             (fun s => _Mmin_of_z s = Some v /\ _sfrd_ham_tab_ s <> None));
      try spare.
    + left. intros s [_ Hs]. exact Hs.
    + left. intros s [_ Hs]. exact Hs.
    + split; assumption.
  - intros v H.
    apply (spared_exec K num pop (fun s => _sfrd_ham_ s = Some v)); try spare.
  - intros a b v H.
    apply (spared_exec K num pop
             (fun s => lookup2 a b (_conversion_factors s) = Some v));
      try spare.
    intros k1 k2 s Hs Hk. simpl. apply lookup2_store2_other; assumption.
  - intros a b v H.
    apply (spared_exec K num pop
             (fun s => lookup2 a b (_eV_per_phot s) = Some v));
      try spare.
    intros k1 k2 s Hs Hk. simpl. apply lookup2_store2_other; assumption.
Qed.

(** X1.  Whatever an instance has cached stays as it is: after any
    sequence of property accesses and method calls, whether they return
    or raise, every attribute that existed before holds the value it held
    (the yield, [Mmin], [eta], the constraints, the mass grid, the
    efficiency grid, the fitted coefficients, the abundance-matching
    rates and their spline), the efficiency function stays attached, and
    every band that had a conversion factor or a photon energy cached
    still has that one. *)
Theorem attributes_assigned_once (cs : list call) (st : State) :
  attributes_kept st (run K num pop cs st).
Proof.
  revert st. induction cs as [| c cs IH]; intros st; simpl.
  - apply attributes_kept_refl.
  - eapply attributes_kept_trans; [apply exec_keeps_attributes | apply IH].
Qed.

End SetOnce.

Lemma run_keeps K num pop (I : State -> Prop) :
  (forall c st, I st -> I (exec K num pop c st)) ->
  forall cs st, I st -> I (run K num pop cs st).
Proof.
  intros Hstep cs. induction cs as [| c cs IH]; intros st H; simpl.
  - exact H.
  - apply IH, Hstep, H.
Qed.

Lemma reachable_run K num pop cs st :
  reachable K num pop st -> reachable K num pop (run K num pop cs st).
Proof.
  apply (run_keeps K num pop (reachable K num pop)).
  intros c s Hs. apply reachable_exec, Hs.
Qed.

(* ================================================================== *)
(** * The band caches *)
(* ================================================================== *)

Section BandCaches.

Variable K : Constants.
Variable num : Numerics.
Variable pop : Population.

Lemma run_keeps_conversion_factor a b c cs st :
  lookup2 a b (_conversion_factors st) = Some c ->
  lookup2 a b (_conversion_factors (run K num pop cs st)) = Some c.
Proof.
  apply (run_keeps K num pop
           (fun s => lookup2 a b (_conversion_factors s) = Some c)).
  intros c0 s Hs.
  pose proof (exec_keeps_attributes K num pop c0 s) as H.
  unfold attributes_kept in H.
  destruct H as (_ & _ & _ & _ & _ & _ & _ & _ & _ & _ & _ & _ & H & _).
  apply H, Hs.
Qed.

Lemma run_keeps_eV_per_phot a b c cs st :
  lookup2 a b (_eV_per_phot st) = Some c ->
  lookup2 a b (_eV_per_phot (run K num pop cs st)) = Some c.
Proof.
  apply (run_keeps K num pop
           (fun s => lookup2 a b (_eV_per_phot s) = Some c)).
  intros c0 s Hs.
  pose proof (exec_keeps_attributes K num pop c0 s) as H.
  unfold attributes_kept in H.
  destruct H as (_ & _ & _ & _ & _ & _ & _ & _ & _ & _ & _ & _ & _ & H).
  apply H, Hs.
Qed.

(** X2.  The band-conversion factor is computed once per instance: for a
    band whose bounds are numbers, once [_convert_band(Emin, Emax)] has
    been called, every later call with these arguments, after whatever
    other accesses and calls, returns the same factor and leaves the
    instance as it finds it. *)
Theorem convert_band_memoised (Emin Emax : option float) (a b : float)
                              (st : State) (cs : list call) :
  requested_band pop Emin Emax = (a, b) ->
  (a =? a)%float = true -> (b =? b)%float = true ->
  let r := _convert_band num pop Emin Emax st in
  let st' := run K num pop cs (snd r) in
  _convert_band num pop Emin Emax st' = (fst r, st').
Proof.
  intros Hr Ha Hb r st'.
  pose proof (convert_band_cases num pop Emin Emax st) as H.
  pose proof (convert_band_cases num pop Emin Emax st') as H'.
  rewrite Hr in H, H'. subst r. rewrite H'.
  destruct (bound_given Emin Emax); [| rewrite H; reflexivity].
  assert (Hl : exists c,
             fst (_convert_band num pop Emin Emax st) = Ok c
             /\ lookup2 a b (_conversion_factors
                               (snd (_convert_band num pop Emin Emax st)))
                = Some c).
  { rewrite H.
    destruct (lookup2 a b (_conversion_factors st)) as [c |] eqn:E; simpl.
    - exists c. auto.
    - eexists. split; [reflexivity |]. apply lookup2_store2; assumption. }
  destruct Hl as (c & Hc & Hl).
  apply (run_keeps_conversion_factor a b c cs) in Hl.
  fold st' in Hl. rewrite Hl, Hc. reflexivity.
Qed.

Lemma get_energy_per_photon_cached Emin Emax a b c st :
  requested_band pop Emin Emax = (a, b) ->
  lookup2 a b (_eV_per_phot st) = Some c ->
  _get_energy_per_photon num pop Emin Emax st = (Ok c, st).
Proof.
  intros Hr Hl.
  pose proof (get_energy_per_photon_cases num pop Emin Emax st) as H.
  rewrite Hr, Hl in H. exact H.
Qed.

(** X3.  [_get_energy_per_photon(Emin, Emax)] returns the value cached for
    the requested band (an omitted bound is the native one) or, when none
    is cached, the integral of [Spectrum(E) * E] over the band; it files
    the result under that band also when both bounds are omitted; and for
    a band whose bounds are numbers every later call with these
    arguments returns the same value and leaves the instance as it finds
    it. *)
Theorem get_energy_per_photon_memoised (Emin Emax : option float)
                                       (a b : float) (st : State) :
  requested_band pop Emin Emax = (a, b) ->
  (a =? a)%float = true -> (b =? b)%float = true ->
  let r := _get_energy_per_photon num pop Emin Emax st in
  exists c,
    fst r = Ok c
    /\ c = match lookup2 a b (_eV_per_phot st) with
           | Some c0 => c0
           | None => quad num (fun E => Spectrum (src pop) E * E)%float a b
           end
    /\ lookup2 a b (_eV_per_phot (snd r)) = Some c
    /\ forall cs,
         let st' := run K num pop cs (snd r) in
         _get_energy_per_photon num pop Emin Emax st' = (Ok c, st').
Proof.
  intros Hr Ha Hb r.
  pose proof (get_energy_per_photon_cases num pop Emin Emax st) as H.
  rewrite Hr in H. subst r. rewrite H.
  destruct (lookup2 a b (_eV_per_phot st)) as [c |] eqn:E; cbv zeta;
    simpl fst; simpl snd.
  - exists c. split; [reflexivity |]. split; [reflexivity |].
    split; [exact E |]. intros cs.
    apply (get_energy_per_photon_cached Emin Emax a b c _ Hr).
    apply run_keeps_eV_per_phot, E.
  - eexists. split; [reflexivity |]. split; [reflexivity |].
    assert (Hl : lookup2 a b
                   (store2 a b
                      (quad num (fun E => Spectrum (src pop) E * E)%float a b)
                      (_eV_per_phot st))
                 = Some (quad num (fun E => Spectrum (src pop) E * E)%float
                              a b))
      by (apply lookup2_store2; assumption).
    split; [exact Hl |]. intros cs.
    apply (get_energy_per_photon_cached Emin Emax a b _ _ Hr).
    apply run_keeps_eV_per_phot. exact Hl.
Qed.

End BandCaches.

Lemma convert_band_memoised_witness :
  let r := _convert_band ex_num ex_fcoll (Some 10.2%float) None fresh in
  let st' :=
    run ex_K ex_num ex_fcoll
        [Call_Emissivity 10%float None None (Some 13.6%float);
         Get_yield_per_sfr] (snd r) in
  fst r = Ok (ex_quad (fun _ => 2%float) 10.2%float 1000%float)
  /\ _convert_band ex_num ex_fcoll (Some 10.2%float) None st' = (fst r, st').
Proof.
  intros r st'. split; [reflexivity |].
  apply (convert_band_memoised ex_K ex_num ex_fcoll (Some 10.2%float) None
           10.2%float 1000%float fresh); reflexivity.
Defined.

Lemma get_energy_per_photon_memoised_witness :
  let r := _get_energy_per_photon ex_num ex_fcoll None None fresh in
  exists c,
    fst r = Ok c
    /\ c = ex_quad (fun E => 2 * E)%float 1%float 1000%float
    /\ lookup2 1%float 1000%float (_eV_per_phot (snd r)) = Some c
    /\ _get_energy_per_photon ex_num ex_fcoll None None
         (run ex_K ex_num ex_fcoll [Get_Mmin] (snd r))
       = (Ok c, run ex_K ex_num ex_fcoll [Get_Mmin] (snd r)).
Proof.
  intros r.
  destruct (get_energy_per_photon_memoised ex_K ex_num ex_fcoll None None
              1%float 1000%float fresh eq_refl eq_refl eq_refl)
    as (c & H1 & H2 & H3 & H4).
  exists c. split; [exact H1 |]. split; [exact H2 |]. split; [exact H3 |].
  apply (H4 [Get_Mmin]).
Defined.

(* ================================================================== *)
(** * Properties that fill their array in place *)
(* ================================================================== *)

Section FilledInPlace.

Variable K : Constants.
Variable num : Numerics.
Variable pop : Population.

Lemma run_keeps_eta a cs st :
  _eta st = Some a -> _eta (run K num pop cs st) = Some a.
Proof.
  apply (run_keeps K num pop (fun s => _eta s = Some a)).
  intros c s Hs.
  pose proof (exec_keeps_attributes K num pop c s) as H.
  unfold attributes_kept in H. destruct H as (_ & _ & H & _).
  apply H, Hs.
Qed.

Lemma eta_cached_value st a :
  is_ham_model pop = true -> _eta st = Some a ->
  eta K num pop st = (Ok a, st).
Proof.
  intros Hm H. unfold eta. rewrite Hm. unfold bind, gets. simpl.
  rewrite H. reflexivity.
Qed.

Lemma keeps_eta_length_body n i z :
  keeps (fun s => exists a, _eta s = Some a /\ length a = n)
        (eta_body K num pop i z).
Proof.
  unfold eta_body. keeps_steps; try (apply keeps_Mmin; auto).
  cbv beta in *.
  match goal with H : exists _, _ |- _ => destruct H as (ee & Ha & Hl) end.
  unfold store_eta. rewrite Ha. simpl. eexists. split; [reflexivity |].
  rewrite length_update. exact Hl.
Qed.

(** Whatever the first access to [eta] does, the attribute is an array
    with an entry per redshift of the halo tables afterwards. *)
Lemma eta_allocates st :
  is_ham_model pop = true -> _eta st = None ->
  exists a, _eta (snd (eta K num pop st)) = Some a
            /\ length a = length (halos_z (halos pop)).
Proof.
  intros Hm E. rewrite (eta_uncached K num pop st Hm E). cbv zeta.
  set (st1 := set_eta _ st).
  pose proof (keeps_for_enumerate
                (fun s => exists a, _eta s = Some a
                                    /\ length a = length (halos_z (halos pop)))
                (halos_z (halos pop)) (eta_body K num pop)
                (fun k x _ => keeps_eta_length_body _ k x) st1) as H.
  destruct (for_enumerate _ _ st1) as [[[] | e] st2]; simpl in *;
    apply H; eexists; (split; [reflexivity |]); apply repeat_length.
Qed.

(** X4.  In an abundance-matching population [eta] raises at most once
    per instance: it creates its array, one entry per redshift of the
    halo tables, before it fills it, so whatever the first access did -
    returned, or raised part-way - every later access, after whatever
    other accesses and calls, returns the array as that access left
    it. *)
Theorem eta_raises_at_most_once (st : State) (cs : list call) :
  is_ham_model pop = true ->
  let st1 := snd (eta K num pop st) in
  let st2 := run K num pop cs st1 in
  exists a,
    _eta st1 = Some a
    /\ (_eta st = None -> length a = length (halos_z (halos pop)))
    /\ eta K num pop st2 = (Ok a, st2).
Proof.
  intros Hm st1 st2.
  assert (H : exists a, _eta st1 = Some a
                        /\ (_eta st = None ->
                            length a = length (halos_z (halos pop)))).
  { subst st1. destruct (_eta st) as [a |] eqn:E.
    - exists a. rewrite (eta_cached K num pop st a E).
      split; [exact E | discriminate].
    - destruct (eta_allocates st Hm E) as (a & Ha & Hl). exists a. auto. }
  destruct H as (a & Ha & Hl). exists a.
  split; [exact Ha |]. split; [exact Hl |].
  apply eta_cached_value; [exact Hm |]. apply run_keeps_eta, Ha.
Qed.

End FilledInPlace.

Lemma eta_raises_at_most_once_witness :
  let st1 := snd (eta ex_K ex_num ex_ham_short_Mmin fresh) in
  let st2 := run ex_K ex_num ex_ham_short_Mmin [Get_constraints] st1 in
  fst (eta ex_K ex_num ex_ham_short_Mmin fresh) = Raise IndexError
  /\ exists a,
       _eta st1 = Some a /\ length a = 2
       /\ nth_error a 1 = Some 0%float
       /\ eta ex_K ex_num ex_ham_short_Mmin st2 = (Ok a, st2).
Proof.
  intros st1 st2. split; [vm_compute; reflexivity |].
  destruct (eta_raises_at_most_once ex_K ex_num ex_ham_short_Mmin fresh
              [Get_constraints] eq_refl) as (a & Ha & Hl & Hr).
  exists a. split; [exact Ha |]. split; [apply Hl; reflexivity |].
  split; [| exact Hr].
  fold st1 in Ha. assert (E : _eta st1 = Some [_; 0]%float) by
    (vm_compute; reflexivity).
  rewrite Ha in E. injection E as ->. reflexivity.
Defined.

(* ================================================================== *)
(** * The constraints *)
(* ================================================================== *)

Lemma set_constraints_same st l :
  _constraints st = Some l -> set_constraints (Some l) st = st.
Proof. destruct st. simpl. intros ->. reflexivity. Qed.

Lemma nth_error_skipn_nil {A} (xs : list A) i :
  nth_error xs i = None -> skipn i xs = [].
Proof.
  intros H. apply nth_error_None in H. apply skipn_all2. exact H.
Qed.

Lemma nth_error_skipn_cons {A} (xs : list A) i x :
  nth_error xs i = Some x -> skipn i xs = x :: skipn (S i) xs.
Proof.
  revert i. induction xs as [| y xs IH]; intros i H.
  - destruct i; discriminate.
  - destruct i; simpl in *; [congruence | apply IH, H].
Qed.

Section ConstraintsFacts.

Variable pop : Population.

(** The loop of [constraints], started at the redshift of index [i0]. *)
Lemma constraints_loop zs :
  forall i0 l st,
    _constraints st = Some l ->
    let Ms := skipn i0 (c_M_star (pop_constraints (pf pop))) in
    for_from i0 zs (fun i z =>
      Mstar <- lift (getitem (c_M_star (pop_constraints (pf pop))) i) ;;
      modify (append_L_star (mAB_to_L pop Mstar z)))%py st
    = (if (length zs <=? length Ms)%nat then Ok tt else Raise IndexError,
       set_constraints (Some (l ++ map2 (mAB_to_L pop) Ms zs)%list) st).
Proof.
  induction zs as [| z zs IH]; intros i0 l st Hl Ms; simpl.
  - unfold ret. destruct Ms; simpl; rewrite app_nil_r;
      rewrite (set_constraints_same st l Hl); reflexivity.
  - unfold bind at 1. unfold bind at 1. unfold lift, getitem.
    destruct (nth_error (c_M_star (pop_constraints (pf pop))) i0)
      as [m |] eqn:E.
    + subst Ms. rewrite (nth_error_skipn_cons _ _ _ E). simpl.
      unfold modify, append_L_star. rewrite Hl.
      rewrite (IH (S i0) (l ++ [mAB_to_L pop m z])%list); [| reflexivity].
      cbv zeta. rewrite <- app_assoc. reflexivity.
    + subst Ms. rewrite (nth_error_skipn_nil _ _ E). simpl.
      rewrite app_nil_r, (set_constraints_same st l Hl). reflexivity.
Qed.

Lemma constraints_uncached_run (st : State) :
  _constraints st = None ->
  constraints pop st
  = (if (length (c_z (pop_constraints (pf pop)))
         <=? length (c_M_star (pop_constraints (pf pop))))%nat
     then Ok (pop_constraints (pf pop), L_star_value pop)
     else Raise IndexError,
     set_constraints (Some (L_star_value pop)) st).
Proof.
  intros E. rewrite (constraints_uncached pop st E). cbv zeta.
  unfold for_enumerate.
  rewrite (constraints_loop (c_z (pop_constraints (pf pop))) 0 []
             (set_constraints (Some []) st) eq_refl).
  cbv zeta. simpl skipn. simpl app. fold (L_star_value pop).
  destruct (length (c_z (pop_constraints (pf pop)))
            <=? length (c_M_star (pop_constraints (pf pop))))%nat;
    reflexivity.
Qed.

(** X5.  On an instance that has not built its constraints, [constraints]
    leaves the list [L_star] of the luminosities
    [mAB_to_L(M_star[i], z[i])], as far as there is both a redshift and a
    magnitude; it returns the constraints with that list when every
    redshift has its magnitude, and raises [IndexError] otherwise; and
    the next access returns the constraints with the list as it was left,
    also after a raise. *)
Theorem constraints_first_access (st : State) :
  _constraints st = None ->
  let cs := pop_constraints (pf pop) in
  let L := map2 (mAB_to_L pop) (c_M_star cs) (c_z cs) in
  let st1 := set_constraints (Some L) st in
  constraints pop st
  = (if (length (c_z cs) <=? length (c_M_star cs))%nat
     then Ok (cs, L) else Raise IndexError, st1)
  /\ constraints pop st1 = (Ok (cs, L), st1).
Proof.
  intros E cs L st1. split.
  - apply (constraints_uncached_run st E).
  - apply constraints_cached. reflexivity.
Qed.

End ConstraintsFacts.

Lemma constraints_first_access_witness :
  let cs := pop_constraints (pf ex_ham_short_M_star) in
  let st1 := set_constraints (Some [-21 * 6; -20 * 7]%float) fresh in
  constraints ex_ham_short_M_star fresh = (Raise IndexError, st1)
  /\ constraints ex_ham_short_M_star st1
     = (Ok (cs, [-21 * 6; -20 * 7]%float), st1).
Proof.
  intros cs st1.
  exact (constraints_first_access ex_ham_short_M_star fresh eq_refl).
Defined.

(* ================================================================== *)
(** * What the rates touch *)
(* ================================================================== *)

Lemma set_caches_same st :
  set_conversion_factors (_conversion_factors st)
    (set_yield_per_sfr (_yield_per_sfr st) st) = st.
Proof. destruct st. reflexivity. Qed.

Lemma fcoll_not_ham pop : is_fcoll_model pop = true -> is_ham_model pop = false.
Proof.
  unfold is_fcoll_model, is_ham_model. intros H.
  apply String.eqb_eq in H. rewrite H. reflexivity.
Qed.

Section RateFacts.

Variable K : Constants.
Variable num : Numerics.
Variable pop : Population.

Lemma SFRD_gated_store z st :
  rhoL_from_sfrd pop = true -> snd (SFRD K num pop z st) = st.
Proof.
  unfold rhoL_from_sfrd, SFRD. intros Hg.
  destruct (zform pop <? z)%float; [reflexivity |].
  destruct (pop_sfrd (pf pop)) as [f |]; [reflexivity |].
  rewrite Bool.orb_false_r in Hg. rewrite Hg.
  destruct (pop_fstar (pf pop)) as [f0 | f]; [| reflexivity].
  destruct (_ <? 0)%float; reflexivity.
Qed.

Lemma yield_per_sfr_store st :
  exists y, snd (yield_per_sfr K pop st) = set_yield_per_sfr y st
            /\ _conversion_factors (snd (yield_per_sfr K pop st))
               = _conversion_factors st.
Proof.
  unfold yield_per_sfr, bind, gets, lift, modify, ret. simpl.
  destruct (_yield_per_sfr st) as [y |] eqn:E; simpl.
  - exists (Some y). destruct st; simpl in *; subst; auto.
  - destruct (normalize_sed K pop) as [y | e]; simpl.
    + exists (Some y). auto.
    + exists None. destruct st; simpl in *; subst; auto.
Qed.

Lemma convert_band_store Emin Emax st :
  exists d, snd (_convert_band num pop Emin Emax st)
            = set_conversion_factors d st.
Proof.
  pose proof (convert_band_cases num pop Emin Emax st) as H.
  destruct (requested_band pop Emin Emax) as [a b]. rewrite H.
  destruct (bound_given Emin Emax);
    [destruct (lookup2 a b (_conversion_factors st)) |]; simpl;
    try (eexists; reflexivity);
    exists (_conversion_factors st); destruct st; reflexivity.
Qed.

Lemma Emissivity_store z E Emin Emax st :
  exists y d,
    snd (Emissivity K num pop z E Emin Emax st)
    = set_conversion_factors d (set_yield_per_sfr y st).
Proof.
  unfold Emissivity.
  destruct (is_fcoll_model pop
            || match pop_sfrd (pf pop) with Some _ => true | None => false end)
    eqn:Hg.
  2:{ exists (_yield_per_sfr st), (_conversion_factors st).
      symmetry. apply set_caches_same. }
  rewrite snd_bind. pose proof (SFRD_gated_store z st Hg) as Hs.
  destruct (fst (SFRD K num pop z st)) as [s | e].
  2:{ rewrite Hs. exists (_yield_per_sfr st), (_conversion_factors st).
      symmetry. apply set_caches_same. }
  rewrite Hs. rewrite snd_bind.
  destruct (yield_per_sfr_store st) as (y & Hy & Hc).
  destruct (fst (yield_per_sfr K pop st)) as [yv | e].
  2:{ rewrite Hy. exists y, (_conversion_factors st).
      rewrite <- Hy. rewrite <- Hc.
      destruct (snd (yield_per_sfr K pop st)). reflexivity. }
  rewrite snd_bind.
  destruct (convert_band_store Emin Emax (snd (yield_per_sfr K pop st)))
    as (d & Hd).
  exists y, d.
  destruct (fst (_convert_band num pop Emin Emax
                   (snd (yield_per_sfr K pop st)))) as [c | e].
  - destruct E as [e |]; simpl; rewrite Hd, Hy; reflexivity.
  - rewrite Hd, Hy. reflexivity.
Qed.

(** X6.  [SFRD] reaches the recorded attributes only for the abundance
    match: for a population that is not of the abundance-matching kind,
    or has a user-supplied SFRD, or beyond the formation redshift, it
    leaves every attribute that the store records as it is - the cached
    yield, [_Mmin], [_eta], the constraints, the grids, coefficients,
    rates and spline of the abundance match, and both band dictionaries -
    whether it returns or raises.  ([_sfrd_], which the property [_sfrd]
    creates on first use, is not among them.) *)
Theorem SFRD_store_untouched (z : float) (st : State) :
  is_ham_model pop = false \/ pop_sfrd (pf pop) <> None
  \/ (zform pop <? z)%float = true ->
  snd (SFRD K num pop z st) = st.
Proof.
  intros H. unfold SFRD.
  destruct (zform pop <? z)%float; [reflexivity |].
  destruct (pop_sfrd (pf pop)) as [f |]; [reflexivity |].
  destruct (is_fcoll_model pop).
  - destruct (pop_fstar (pf pop)) as [f0 | f]; [| reflexivity].
    destruct (_ <? 0)%float; reflexivity.
  - destruct H as [H | [H | H]]; [rewrite H; reflexivity | | discriminate].
    exfalso. apply H. reflexivity.
Qed.

(** X7.  [Emissivity] and [NumberEmissivity] never start the abundance
    match: whatever the population and the arguments, and whether they
    return or raise, of the attributes that the store records only the
    cached yield and the cached band-conversion factors can differ
    afterwards; [_Mmin], [_eta], the constraints, the grids,
    coefficients, rates and spline of the abundance match and the cached
    photon energies are as they were.  ([_sfrd_] and [_src], which the
    properties [_sfrd] and [src] create on first use, are not among the
    recorded attributes.) *)
Theorem Emissivity_touches_two_caches (z : float) (E Emin Emax : option float)
                                      (st : State) :
  (exists y d,
      snd (Emissivity K num pop z E Emin Emax st)
      = set_conversion_factors d (set_yield_per_sfr y st))
  /\ (exists y d,
        snd (NumberEmissivity K num pop z E Emin Emax st)
        = set_conversion_factors d (set_yield_per_sfr y st)).
Proof.
  split; [apply Emissivity_store |].
  destruct (Emissivity_store z E Emin Emax st) as (y & d & H).
  exists y, d. unfold NumberEmissivity. rewrite snd_bind.
  destruct (fst (Emissivity K num pop z E Emin Emax st)); [| exact H].
  destruct E; exact H.
Qed.

(** X8.  Called without a photon energy ([E] omitted, the default),
    [NumberEmissivity] never returns: when [Emissivity] raises, it raises
    that very exception, and when [Emissivity] returns, it raises the
    [TypeError] of the product of [None] and a number; either way the
    instance is as [Emissivity] left it. *)
Theorem NumberEmissivity_needs_E (z : float) (Emin Emax : option float)
                                 (st : State) :
  let r := Emissivity K num pop z None Emin Emax st in
  NumberEmissivity K num pop z None Emin Emax st
  = (match fst r with
     | Ok _ =>
         Raise (TypeError
           "unsupported operand type(s) for *: 'NoneType' and 'float'")
     | Raise e => Raise e
     end, snd r)
  /\ forall v, fst (NumberEmissivity K num pop z None Emin Emax st) <> Ok v.
Proof.
  unfold NumberEmissivity, bind.
  destruct (Emissivity K num pop z None Emin Emax st) as [[r | e] st'];
    simpl; (split; [reflexivity | intros v; discriminate]).
Qed.

(** X9.  Asking [Emissivity] for the emissivity at a photon energy [E] is
    asking for the band emissivity and multiplying it by [Spectrum(E)]:
    it returns that product where the band call returns, raises what the
    band call raises, and leaves the attributes that the store records as
    the band call leaves them (evaluating [src.Spectrum(E)] writes none
    of them). *)
Theorem Emissivity_at_E (z e : float) (Emin Emax : option float)
                        (st : State) :
  Emissivity K num pop z (Some e) Emin Emax st
  = bind (Emissivity K num pop z None Emin Emax)
         (fun rhoL => ret (rhoL * Spectrum (src pop) e)%float) st.
Proof.
  unfold Emissivity.
  destruct (is_fcoll_model pop || _); [| reflexivity].
  unfold bind.
  destruct (SFRD K num pop z st) as [[s | x] st1]; [| reflexivity].
  destruct (yield_per_sfr K pop st1) as [[y | x] st2]; [| reflexivity].
  destruct (_convert_band num pop Emin Emax st2) as [[c | x] st3];
    reflexivity.
Qed.

(** X10.  A population of the halo-occupation or the user kind has no
    SFRD of its own: without a user-supplied SFRD, [SFRD] raises at every
    redshift that is not beyond the formation redshift ([TypeError], as
    [NotImplemented] is not an exception class), and so does
    [Emissivity] at every redshift; neither writes an attribute that the
    store records ([Emissivity] raises at its gate, [SFRD] after the
    property [_sfrd] has made [_sfrd_], which the store does not
    record). *)
Theorem SFRD_unsupported_models (z : float) (st : State) :
  is_hod_model pop = true \/ is_user_model pop = true ->
  pop_sfrd (pf pop) = None ->
  let refused :=
    Raise (TypeError "'NotImplementedType' object is not callable") in
  ((zform pop <? z)%float = false ->
   SFRD K num pop z st = (refused, st))
  /\ (forall E Emin Emax,
        Emissivity K num pop z E Emin Emax st = (refused, st)).
Proof.
  intros Hm Hs refused.
  assert (Hf : is_fcoll_model pop = false /\ is_ham_model pop = false).
  { unfold is_hod_model, is_user_model, is_fcoll_model, is_ham_model in *.
    destruct Hm as [H | H]; apply String.eqb_eq in H; rewrite H;
      split; reflexivity. }
  destruct Hf as [Hf Hh]. split.
  - intros Hz. unfold SFRD. rewrite Hz, Hs, Hf, Hh. reflexivity.
  - intros E Emin Emax. unfold Emissivity. rewrite Hs, Hf. reflexivity.
Qed.

End RateFacts.

Lemma SFRD_store_untouched_witness :
  snd (SFRD ex_K ex_num ex_fcoll 10%float
         (set_constraints (Some [1]%float) fresh))
  = set_constraints (Some [1]%float) fresh.
Proof.
  apply (SFRD_store_untouched ex_K ex_num ex_fcoll). left. reflexivity.
Defined.

Lemma SFRD_unsupported_models_witness :
  let refused :=
    Raise (TypeError "'NotImplementedType' object is not callable") in
  is_hod_model ex_hod = true
  /\ SFRD ex_K ex_num ex_hod 10%float fresh = (refused, fresh)
  /\ Emissivity ex_K ex_num ex_hod 100%float None None None fresh
     = (refused, fresh).
Proof.
  intros refused. split; [reflexivity |].
  destruct (SFRD_unsupported_models ex_K ex_num ex_hod 10%float fresh
              (or_introl eq_refl) eq_refl) as [H1 _].
  destruct (SFRD_unsupported_models ex_K ex_num ex_hod 100%float fresh
              (or_introl eq_refl) eq_refl) as [_ H2].
  split; [apply H1; reflexivity | apply H2].
Defined.

(* ================================================================== *)
(** * Unrecognized units *)
(* ================================================================== *)

Lemma normalize_sed_unsupported K pop :
  ~ In (normalized_units pop) supported_units ->
  normalize_sed K pop
  = Raise (ValueError ("Unrecognized yield units: "
                       ++ normalized_units pop)%string).
Proof.
  intros H. unfold normalize_sed, supported_units in *.
  repeat match goal with
  | |- context [String.eqb ?a ?b] =>
      destruct (String.eqb_spec a b) as [E | _];
      [exfalso; apply H; rewrite E; simpl; tauto |]
  end.
  reflexivity.
Qed.

Section UnitFacts.

Variable K : Constants.
Variable num : Numerics.
Variable pop : Population.

(** X11.  A yield in units that [normalize_sed] does not recognize stops
    everything that needs the yield, and the failure is not cached: on an
    instance without a cached yield, [yield_per_sfr] raises the
    unrecognized-unit [ValueError], [_fstar_ham] raises it before it
    creates its grid, and [Emissivity] raises it whenever [SFRD] has
    returned - each leaving the attributes that the store records as they
    were, [_yield_per_sfr] still unset, so that the next call raises
    again.  (By then [normalize_sed] has read [pop.src], and [SFRD] the
    property [_sfrd]; the attributes these create are not among the
    recorded ones.) *)
Theorem unrecognized_units_stop_rates (st : State) :
  ~ In (normalized_units pop) supported_units ->
  _yield_per_sfr st = None ->
  let e :=
    ValueError ("Unrecognized yield units: " ++ normalized_units pop)%string
  in
  yield_per_sfr K pop st = (Raise e, st)
  /\ (_fstar_ham_pts st = None ->
      _fstar_ham K num pop st = (Raise e, st))
  /\ (forall z E Emin Emax s,
        rhoL_from_sfrd pop = true ->
        fst (SFRD K num pop z st) = Ok s ->
        Emissivity K num pop z E Emin Emax st = (Raise e, st)).
Proof.
  intros Hu Hy e.
  assert (H1 : yield_per_sfr K pop st = (Raise e, st)).
  { unfold yield_per_sfr, bind, gets, lift. simpl. rewrite Hy.
    rewrite (normalize_sed_unsupported K pop Hu). reflexivity. }
  split; [exact H1 | split].
  - intros Hg. unfold _fstar_ham. unfold bind at 1. unfold gets at 1.
    rewrite Hg. unfold bind at 1. rewrite H1. reflexivity.
  - intros z E Emin Emax s Hg Hs. unfold Emissivity.
    unfold rhoL_from_sfrd in Hg. rewrite Hg. unfold bind at 1.
    pose proof (SFRD_gated_store K num pop z st Hg) as Hst.
    destruct (SFRD K num pop z st) as [[s' | x] st']; simpl in *;
      [| discriminate].
    subst st'. unfold bind at 1. rewrite H1. reflexivity.
Qed.

End UnitFacts.

Lemma unrecognized_units_stop_rates_witness :
  let e := ValueError "Unrecognized yield units: furlongs" in
  yield_per_sfr ex_K ex_fcoll_furlongs fresh = (Raise e, fresh)
  /\ _fstar_ham ex_K ex_num ex_fcoll_furlongs fresh = (Raise e, fresh)
  /\ SFRD ex_K ex_num ex_fcoll_furlongs 10%float fresh
     = (Ok (0.1 * 4.2e-31 * 1e-17)%float, fresh)
  /\ Emissivity ex_K ex_num ex_fcoll_furlongs 10%float None None None fresh
     = (Raise e, fresh).
Proof.
  intros e.
  assert (Hu : ~ In (normalized_units ex_fcoll_furlongs) supported_units).
  { intros [H | [H | [H | [H | [H | []]]]]]; discriminate. }
  destruct (unrecognized_units_stop_rates ex_K ex_num ex_fcoll_furlongs
              fresh Hu eq_refl) as (H1 & H2 & H3).
  split; [exact H1 |]. split; [apply H2; reflexivity |].
  split; [reflexivity |].
  apply (H3 10%float None None None (0.1 * 4.2e-31 * 1e-17)%float);
    reflexivity.
Defined.

(* ================================================================== *)
(** * The threshold mass of the abundance match *)
(* ================================================================== *)

Section ScalarMmin.

Variable K : Constants.
Variable num : Numerics.
Variable pop : Population.

Lemma Mmin_run st :
  coherent num pop st ->
  exists st', Mmin pop st = (Ok (Mmin_value pop), st')
              /\ _eta st' = _eta st.
Proof.
  intros [Hc _]. unfold Mmin, bind, gets, modify, ret. simpl.
  destruct (_Mmin st) as [v |] eqn:E; simpl.
  - rewrite (Hc v eq_refl). eauto.
  - eauto.
Qed.

(** X12.  The abundance match needs a threshold mass per redshift: in an
    abundance-matching population whose [pop_Mmin] is one number, the
    first access to [eta] raises [TypeError] at the first redshift of the
    halo tables (a number cannot be indexed), leaving [_eta] an array of
    zeros - which is what every later access returns. *)
Theorem eta_needs_array_Mmin (x : float) (st : State) (cs : list call) :
  reachable K num pop st ->
  is_ham_model pop = true ->
  pop_Mmin (pf pop) = Some (PyScalar x) ->
  halos_z (halos pop) <> [] ->
  _eta st = None ->
  let nothing := zeros (length (halos_z (halos pop))) in
  exists msg st1,
    eta K num pop st = (Raise (TypeError msg), st1)
    /\ _eta st1 = Some nothing
    /\ let st2 := run K num pop cs st1 in
       eta K num pop st2 = (Ok nothing, st2).
Proof.
  intros Hr Hm Hp Hz E nothing.
  apply (reachable_grid_invariant K num pop) in Hr. destruct Hr as [Hc _].
  assert (H : exists msg st1,
             eta K num pop st = (Raise (TypeError msg), st1)
             /\ _eta st1 = Some nothing).
  { rewrite (eta_uncached K num pop st Hm E). cbv zeta.
    set (st0 := set_eta _ st).
    destruct (halos_z (halos pop)) as [| z0 zs] eqn:Ez; [congruence |].
    unfold for_enumerate. simpl for_from. unfold bind at 1.
    unfold eta_body. unfold bind at 1.
    destruct (Mmin_run st0 Hc) as (st' & Hrun & He). rewrite Hrun.
    unfold Mmin_value. rewrite Hp. unfold bind at 1. simpl.
    eexists. exists st'. split; [reflexivity |]. rewrite He. reflexivity. }
  destruct H as (msg & st1 & H1 & H2). exists msg, st1.
  split; [exact H1 |]. split; [exact H2 |]. intros st2.
  apply eta_cached_value; [exact Hm |]. apply run_keeps_eta, H2.
Qed.

End ScalarMmin.

Lemma eta_needs_array_Mmin_witness :
  exists msg st1,
    eta ex_K ex_num ex_ham_scalar_Mmin fresh = (Raise (TypeError msg), st1)
    /\ _eta st1 = Some [0; 0]%float
    /\ eta ex_K ex_num ex_ham_scalar_Mmin
         (run ex_K ex_num ex_ham_scalar_Mmin [Get_Mmin; Get_eta] st1)
       = (Ok [0; 0]%float,
          run ex_K ex_num ex_ham_scalar_Mmin [Get_Mmin; Get_eta] st1).
Proof.
  destruct (eta_needs_array_Mmin ex_K ex_num ex_ham_scalar_Mmin 1e9%float
              fresh [Get_Mmin; Get_eta]
              (reachable_fresh ex_K ex_num ex_ham_scalar_Mmin)
              eq_refl eq_refl)
    as (msg & st1 & H1 & H2 & H3); [discriminate | reflexivity |].
  exists msg, st1. split; [exact H1 |]. split; [exact H2 | exact H3].
Defined.

(* ================================================================== *)
(** * The rates of the abundance match *)
(* ================================================================== *)

Lemma broadcast_row_length n row r :
  broadcast_row n row = Ok r -> length r = n.
Proof.
  unfold broadcast_row. destruct (length row =? n)%nat eqn:E.
  - intros H. injection H as <-. apply Nat.eqb_eq, E.
  - destruct row as [| x [| y row]]; try discriminate.
    intros H. injection H as <-. apply repeat_length.
Qed.

Lemma rows_of_length_update {A} n i (row : list A) g :
  rows_of_length n g -> length row = n -> rows_of_length n (update i row g).
Proof.
  intros Hg Hr i' r H. destruct (Nat.eq_dec i' i) as [-> | Ni].
  - apply nth_error_update_eq in H. subst r. exact Hr.
  - rewrite nth_error_update_neq in H by exact Ni. apply (Hg i' r H).
Qed.

Section HamRates.

Variable K : Constants.
Variable num : Numerics.
Variable pop : Population.

Lemma sfr_ham_cached st g :
  _sfr_ham_ st = Some g -> _sfr_ham K num pop st = (Ok g, st).
Proof.
  intros H. unfold _sfr_ham, bind, gets. simpl. rewrite H. reflexivity.
Qed.

Lemma sfr_ham_uncached st :
  _sfr_ham_ st = None ->
  _sfr_ham K num pop st
  = let st1 :=
      set_sfr_ham (Some (zeros2 (length (halos_z (halos pop)))
                                (length (halos_M (halos pop))))) st in
    match for_enumerate (halos_z (halos pop)) (sfr_ham_row K num pop) st1
    with
    | (Ok _, st2) =>
        (Ok (match _sfr_ham_ st2 with Some g => g | None => [] end), st2)
    | (Raise e, st2) => (Raise e, st2)
    end.
Proof.
  intros E. unfold _sfr_ham.
  unfold bind at 1. unfold gets at 1. rewrite E.
  unfold bind at 1. unfold modify at 1.
  unfold bind at 1. fold (sfr_ham_row K num pop).
  destruct (for_enumerate _ _ _) as [[[] | e] st2]; reflexivity.
Qed.

Lemma sfrd_ham_tab_cached st a :
  _sfrd_ham_tab_ st = Some a -> _sfrd_ham_tab K num pop st = (Ok a, st).
Proof.
  intros H. unfold _sfrd_ham_tab, bind, gets. simpl. rewrite H. reflexivity.
Qed.

Lemma sfrd_ham_tab_uncached st :
  _sfrd_ham_tab_ st = None ->
  _sfrd_ham_tab K num pop st
  = let st1 :=
      set_sfrd_ham_tab (Some (zeros (length (halos_z (halos pop))))) st in
    match Mmin_of_z_value pop with
    | Raise e => (Raise e, st1)
    | Ok Mmin_of_z =>
        match for_enumerate (halos_z (halos pop))
                (sfrd_ham_tab_entry K num pop Mmin_of_z)
                (set_Mmin_of_z (Some Mmin_of_z) st1)
        with
        | (Ok _, st2) =>
            (Ok (match _sfrd_ham_tab_ st2 with Some a => a | None => [] end),
             st2)
        | (Raise e, st2) => (Raise e, st2)
        end
    end.
Proof.
  intros E. unfold _sfrd_ham_tab.
  unfold bind at 1. unfold gets at 1. rewrite E.
  unfold bind at 1. unfold modify at 1.
  unfold bind at 1. unfold lift at 1. fold (Mmin_of_z_value pop).
  destruct (Mmin_of_z_value pop) as [mz | e]; [| reflexivity].
  unfold bind at 1. unfold modify at 1.
  unfold bind at 1. fold (sfrd_ham_tab_entry K num pop mz).
  destruct (for_enumerate _ _ _) as [[[] | e] st2]; reflexivity.
Qed.

(** The shape of the table of rates. *)
Lemma keeps_sfr_ham_shape_row n m i z :
  m = length (halos_M (halos pop)) ->
  keeps (fun s => exists g, _sfr_ham_ s = Some g /\ length g = n
                            /\ rows_of_length m g)
        (sfr_ham_row K num pop i z).
Proof.
  intros ->. unfold sfr_ham_row.
  apply keeps_bind_lift. intros Macc _.
  apply keeps_bind; [apply spared_fstar; spare |]. intros f.
  apply keeps_bind_lift. intros row _.
  apply keeps_bind_lift. intros row' Hrow'.
  apply keeps_modify. intros s (g & Hg & Hl & Hr).
  unfold store_sfr_ham. rewrite Hg. simpl. eexists.
  split; [reflexivity |]. split; [rewrite length_update; exact Hl |].
  apply rows_of_length_update; [exact Hr |].
  apply (broadcast_row_length _ _ _ Hrow').
Qed.

Lemma sfr_ham_allocates st :
  _sfr_ham_ st = None ->
  exists g, _sfr_ham_ (snd (_sfr_ham K num pop st)) = Some g
            /\ length g = length (halos_z (halos pop))
            /\ rows_of_length (length (halos_M (halos pop))) g.
Proof.
  intros E. rewrite (sfr_ham_uncached st E). cbv zeta.
  set (st1 := set_sfr_ham _ st).
  pose proof (keeps_for_enumerate _ (halos_z (halos pop))
                (sfr_ham_row K num pop)
                (fun k x _ =>
                   keeps_sfr_ham_shape_row
                     (length (halos_z (halos pop))) _ k x eq_refl) st1)
    as H.
  destruct (for_enumerate _ _ st1) as [[[] | e] st2]; simpl in *;
    apply H; eexists; (split; [reflexivity |]);
    (split; [apply repeat_length | apply rows_of_length_zeros2]).
Qed.

Lemma keeps_sfrd_ham_tab_length n mz i z :
  keeps (fun s => exists a, _sfrd_ham_tab_ s = Some a /\ length a = n)
        (sfrd_ham_tab_entry K num pop mz i z).
Proof.
  unfold sfrd_ham_tab_entry.
  keeps_steps; try (apply spared_sfr_ham; spare).
  cbv beta in *.
  match goal with H : exists _, _ |- _ => destruct H as (tab & Ha & Hl) end.
  unfold store_sfrd_ham_tab. rewrite Ha. simpl. eexists.
  split; [reflexivity |]. rewrite length_update. exact Hl.
Qed.

Lemma sfrd_ham_tab_allocates st :
  _sfrd_ham_tab_ st = None ->
  exists a, _sfrd_ham_tab_ (snd (_sfrd_ham_tab K num pop st)) = Some a
            /\ length a = length (halos_z (halos pop)).
Proof.
  intros E. rewrite (sfrd_ham_tab_uncached st E). cbv zeta.
  set (st1 := set_sfrd_ham_tab _ st).
  destruct (Mmin_of_z_value pop) as [mz | e].
  2:{ simpl. eexists. split; [reflexivity | apply repeat_length]. }
  pose proof (keeps_for_enumerate _ (halos_z (halos pop))
                (sfrd_ham_tab_entry K num pop mz)
                (fun k x _ =>
                   keeps_sfrd_ham_tab_length
                     (length (halos_z (halos pop))) mz k x)
                (set_Mmin_of_z (Some mz) st1))
    as H.
  destruct (for_enumerate _ _ _) as [[[] | e] st2]; simpl in *;
    apply H; eexists; (split; [reflexivity |]); apply repeat_length.
Qed.

Lemma run_keeps_sfr_ham g cs st :
  _sfr_ham_ st = Some g -> _sfr_ham_ (run K num pop cs st) = Some g.
Proof.
  apply (run_keeps K num pop (fun s => _sfr_ham_ s = Some g)).
  intros c s Hs.
  pose proof (exec_keeps_attributes K num pop c s) as H.
  unfold attributes_kept in H.
  destruct H as (_ & _ & _ & _ & _ & _ & _ & _ & H & _).
  apply H, Hs.
Qed.

Lemma run_keeps_sfrd_ham_tab a cs st :
  _sfrd_ham_tab_ st = Some a ->
  _sfrd_ham_tab_ (run K num pop cs st) = Some a.
Proof.
  apply (run_keeps K num pop (fun s => _sfrd_ham_tab_ s = Some a)).
  intros c s Hs.
  pose proof (exec_keeps_attributes K num pop c s) as H.
  unfold attributes_kept in H.
  destruct H as (_ & _ & _ & _ & _ & _ & _ & _ & _ & H & _).
  apply H, Hs.
Qed.

(** X13.  The tables of the abundance-matching rates are created before
    they are filled: whatever the first access to [_sfr_ham] did -
    returned, or raised part-way - the attribute is afterwards a table
    with a row per redshift and a column per mass of the halo tables, and
    every later access returns it as that access left it; likewise
    [_sfrd_ham_tab] and its array with an entry per redshift. *)
Theorem ham_rates_raise_at_most_once (st : State) (cs : list call) :
  (let st1 := snd (_sfr_ham K num pop st) in
   let st2 := run K num pop cs st1 in
   exists g,
     _sfr_ham_ st1 = Some g
     /\ (_sfr_ham_ st = None ->
         length g = length (halos_z (halos pop))
         /\ rows_of_length (length (halos_M (halos pop))) g)
     /\ _sfr_ham K num pop st2 = (Ok g, st2))
  /\ (let st1 := snd (_sfrd_ham_tab K num pop st) in
      let st2 := run K num pop cs st1 in
      exists a,
        _sfrd_ham_tab_ st1 = Some a
        /\ (_sfrd_ham_tab_ st = None ->
            length a = length (halos_z (halos pop)))
        /\ _sfrd_ham_tab K num pop st2 = (Ok a, st2)).
Proof.
  split; intros st1 st2.
  - assert (H : exists g,
               _sfr_ham_ st1 = Some g
               /\ (_sfr_ham_ st = None ->
                   length g = length (halos_z (halos pop))
                   /\ rows_of_length (length (halos_M (halos pop))) g)).
    { subst st1. destruct (_sfr_ham_ st) as [g |] eqn:E.
      - exists g. rewrite (sfr_ham_cached st g E).
        split; [exact E | discriminate].
      - destruct (sfr_ham_allocates st E) as (g & Hg & Hs). exists g. auto. }
    destruct H as (g & Hg & Hs). exists g.
    split; [exact Hg |]. split; [exact Hs |].
    apply sfr_ham_cached, run_keeps_sfr_ham, Hg.
  - assert (H : exists a,
               _sfrd_ham_tab_ st1 = Some a
               /\ (_sfrd_ham_tab_ st = None ->
                   length a = length (halos_z (halos pop)))).
    { subst st1. destruct (_sfrd_ham_tab_ st) as [a |] eqn:E.
      - exists a. rewrite (sfrd_ham_tab_cached st a E).
        split; [exact E | discriminate].
      - destruct (sfrd_ham_tab_allocates st E) as (a & Ha & Hs).
        exists a. auto. }
    destruct H as (a & Ha & Hs). exists a.
    split; [exact Ha |]. split; [exact Hs |].
    apply sfrd_ham_tab_cached, run_keeps_sfrd_ham_tab, Ha.
Qed.

End HamRates.

Lemma ham_rates_raise_at_most_once_witness :
  let st1 := snd (_sfr_ham ex_K ex_num ex_ham_short_Mmin fresh) in
  let st2 := run ex_K ex_num ex_ham_short_Mmin [Call_SFRD 10%float] st1 in
  fst (_sfr_ham ex_K ex_num ex_ham_short_Mmin fresh) = Raise IndexError
  /\ exists g,
       _sfr_ham_ st1 = Some g
       /\ length g = 2
       /\ _sfr_ham ex_K ex_num ex_ham_short_Mmin st2 = (Ok g, st2).
Proof.
  intros st1 st2. split; [vm_compute; reflexivity |].
  destruct (ham_rates_raise_at_most_once ex_K ex_num ex_ham_short_Mmin fresh
              [Call_SFRD 10%float]) as [H _].
  cbv zeta in H. destruct H as (g & Hg & Hs & Hr).
  exists g. split; [exact Hg |]. split; [| exact Hr].
  apply Hs. reflexivity.
Defined.

(* ================================================================== *)
(** * The fitted efficiency *)
(* ================================================================== *)

Section FittedEfficiency.

Variable K : Constants.
Variable num : Numerics.
Variable pop : Population.

(** X14.  [_fstar_poly] reads exactly six coefficients: with fewer it
    raises [IndexError], and with six or more it returns a value that
    depends on the first six only. *)
Theorem fstar_poly_arity (z Mh : float) (coeff : list float) :
  (length coeff < 6 -> _fstar_poly num z Mh coeff = Raise IndexError)
  /\ (6 <= length coeff ->
      exists v, _fstar_poly num z Mh coeff = Ok v
                /\ _fstar_poly num z Mh (firstn 6 coeff) = Ok v).
Proof.
  destruct coeff as [| c0 [| c1 [| c2 [| c3 [| c4 [| c5 r]]]]]]; simpl;
    split; intros H; try lia; try reflexivity;
    eexists; split; reflexivity.
Qed.

Lemma fstar_coeff_cached st coeff :
  _fstar_coeff_ st = Some coeff ->
  _fstar_coeff K num pop st = (Ok coeff, st).
Proof.
  intros H. unfold _fstar_coeff, bind, gets. simpl. rewrite H. reflexivity.
Qed.

Lemma fstar_coeff_returns_attribute st coeff st' :
  _fstar_coeff K num pop st = (Ok coeff, st') ->
  _fstar_coeff_ st' = Some coeff.
Proof.
  destruct (_fstar_coeff_ st) as [c |] eqn:E.
  - rewrite (fstar_coeff_cached st c E). intros H. injection H as <- <-.
    exact E.
  - unfold _fstar_coeff. unfold bind at 1. unfold gets at 1. rewrite E.
    intros H.
    apply bind_Ok in H as (Marr & s1 & _ & H).
    apply bind_Ok in H as (cs & s2 & _ & H).
    apply bind_Ok in H as (g & s3 & _ & H).
    cbv zeta in H.
    apply bind_lift_Ok in H as (c & _ & H).
    apply bind_Ok in H as ([] & s4 & E4 & H).
    unfold modify in E4. injection E4 as <-.
    unfold ret in H. injection H as <- <-. reflexivity.
Qed.

Lemma fstar_coeff_keeps_flag st :
  _fstar st = true -> _fstar (snd (_fstar_coeff K num pop st)) = true.
Proof.
  apply (spared_fstar_coeff K num pop (fun s => _fstar s = true)); spare.
Qed.

(** In the abundance match with a numeric [pop_fstar], what [fstar]
    returns is the polynomial at the coefficients it leaves cached. *)
Lemma fstar_ham_run f0 z Mh st v st' :
  is_ham_model pop = true ->
  pop_fstar (pf pop) = FstarConst f0 ->
  fstar K num pop z Mh st = (Ok v, st') ->
  exists coeff,
    _fstar_coeff_ st' = Some coeff
    /\ _fstar st' = true
    /\ _fstar_poly_pynum num z Mh coeff = Ok v.
Proof.
  intros Hm Hf. unfold fstar. rewrite Hf, Hm. simpl negb. cbv iota.
  intros H.
  apply bind_Ok in H as (has & s1 & E1 & H).
  unfold gets in E1. injection E1 as <- <-.
  apply bind_Ok in H as ([] & s2 & E2 & H).
  assert (Hflag : _fstar s2 = true).
  { destruct (_fstar st) eqn:Ef.
    - unfold ret in E2. injection E2 as <-. exact Ef.
    - unfold modify in E2. injection E2 as <-. reflexivity. }
  apply bind_Ok in H as (coeff & s3 & E3 & H).
  unfold lift in H. injection H as Hv <-.
  exists coeff. split; [apply (fstar_coeff_returns_attribute s2 _ _ E3) |].
  split; [| exact Hv].
  pose proof (fstar_coeff_keeps_flag s2 Hflag) as Hk.
  rewrite E3 in Hk. exact Hk.
Qed.

Lemma fstar_ham_settled f0 z Mh st coeff :
  is_ham_model pop = true ->
  pop_fstar (pf pop) = FstarConst f0 ->
  _fstar st = true ->
  _fstar_coeff_ st = Some coeff ->
  fstar K num pop z Mh st = (_fstar_poly_pynum num z Mh coeff, st).
Proof.
  intros Hm Hf Hflag Hc. unfold fstar. rewrite Hf, Hm.
  change (negb true) with false. unfold bind, gets. cbv beta iota.
  rewrite Hflag.
  unfold ret. cbv beta iota.
  rewrite (fstar_coeff_cached st coeff Hc). reflexivity.
Qed.

Lemma run_keeps_fitted coeff cs st :
  _fstar st = true /\ _fstar_coeff_ st = Some coeff ->
  _fstar (run K num pop cs st) = true
  /\ _fstar_coeff_ (run K num pop cs st) = Some coeff.
Proof.
  apply (run_keeps K num pop
           (fun s => _fstar s = true /\ _fstar_coeff_ s = Some coeff)).
  intros c s [Hf Hc].
  pose proof (exec_keeps_attributes K num pop c s) as H.
  unfold attributes_kept in H.
  destruct H as (_ & _ & _ & _ & _ & _ & H7 & H8 & _).
  split; [apply H8, Hf | apply H7, Hc].
Qed.

(** X15.  In an abundance-matching population with a numeric [pop_fstar],
    that number plays no part in [fstar(z, M)]: what [fstar] returns is
    the six-coefficient polynomial at [(z, M)] with the coefficients that
    [_fstar_coeff] fitted, which the instance then holds; and from then
    on every call [fstar(z, M)], after whatever other accesses and calls,
    returns that value and leaves the instance as it finds it. *)
Theorem fstar_ham_is_fitted_polynomial (f0 z : float) (Mh : pynum)
                                       (st st' : State) (v : pynum) :
  is_ham_model pop = true ->
  pop_fstar (pf pop) = FstarConst f0 ->
  fstar K num pop z Mh st = (Ok v, st') ->
  exists coeff,
    _fstar_coeff_ st' = Some coeff
    /\ _fstar_poly_pynum num z Mh coeff = Ok v
    /\ forall cs,
         let st2 := run K num pop cs st' in
         fstar K num pop z Mh st2 = (Ok v, st2).
Proof.
  intros Hm Hf Hrun.
  destruct (fstar_ham_run f0 z Mh st v st' Hm Hf Hrun)
    as (coeff & Hc & Hflag & Hv).
  exists coeff. split; [exact Hc |]. split; [exact Hv |].
  intros cs st2.
  destruct (run_keeps_fitted coeff cs st' (conj Hflag Hc)) as [Hflag2 Hc2].
  fold st2 in Hflag2, Hc2.
  rewrite (fstar_ham_settled f0 z Mh st2 coeff Hm Hf Hflag2 Hc2), Hv.
  reflexivity.
Qed.

End FittedEfficiency.

Lemma fstar_poly_arity_witness :
  _fstar_poly ex_num 6%float 1e9%float [1; 2; 3; 4; 5]%float
  = Raise IndexError
  /\ exists v,
       _fstar_poly ex_num 6%float 1e9%float [1; 2; 3; 4; 5; 6; 7]%float
       = Ok v
       /\ _fstar_poly ex_num 6%float 1e9%float [1; 2; 3; 4; 5; 6]%float
          = Ok v.
Proof.
  split.
  - apply (proj1 (fstar_poly_arity ex_num 6%float 1e9%float
                    [1; 2; 3; 4; 5]%float)). simpl. lia.
  - apply (proj2 (fstar_poly_arity ex_num 6%float 1e9%float
                    [1; 2; 3; 4; 5; 6; 7]%float)). simpl. lia.
Defined.

Lemma fstar_ham_is_fitted_polynomial_witness :
  let r := fstar ex_K ex_num ex_ham 6%float (PyScalar 1e9) fresh in
  let guess := [-158.17; 34.7; 9.91; -0.913; -2.542; 0.062]%float in
  exists v,
    fst r = Ok v
    /\ _fstar_coeff_ (snd r) = Some guess
    /\ _fstar_poly_pynum ex_num 6%float (PyScalar 1e9) guess = Ok v
    /\ fstar ex_K ex_num ex_ham 6%float (PyScalar 1e9)
         (run ex_K ex_num ex_ham [Get_sfr_ham] (snd r))
       = (Ok v, run ex_K ex_num ex_ham [Get_sfr_ham] (snd r)).
Proof.
  intros r guess.
  destruct (fst r) as [v |] eqn:E; [| vm_compute in E; discriminate].
  assert (Hrun : fstar ex_K ex_num ex_ham 6%float (PyScalar 1e9) fresh
                 = (Ok v, snd r)).
  { subst r. rewrite <- E. apply surjective_pairing. }
  destruct (fstar_ham_is_fitted_polynomial ex_K ex_num ex_ham 0.1%float
              6%float (PyScalar 1e9) fresh (snd r) v eq_refl eq_refl Hrun)
    as (coeff & Hc & Hv & Hs).
  assert (Hg : _fstar_coeff_ (snd r) = Some guess)
    by (vm_compute; reflexivity).
  rewrite Hc in Hg. injection Hg as ->.
  exists v. split; [reflexivity |]. split; [exact Hc |].
  split; [exact Hv |]. apply (Hs [Get_sfr_ham]).
Defined.

(* ================================================================== *)
(** * What the tables of rates hold *)
(* ================================================================== *)

Lemma same_fstar_refl st : same_fstar st st.
Proof. split; [auto | intros v H; exact H]. Qed.

Lemma same_fstar_trans st1 st2 st3 :
  same_fstar st1 st2 -> same_fstar st2 st3 -> same_fstar st1 st3.
Proof.
  intros [A1 B1] [A2 B2]. split; [auto |]. intros v H. apply B2, B1, H.
Qed.

Section RateTables.

Variable K : Constants.
Variable num : Numerics.
Variable pop : Population.

Lemma fstar_same z Mh st : same_fstar st (snd (fstar K num pop z Mh st)).
Proof.
  pose proof (exec_keeps_attributes K num pop (Call_fstar z Mh) st) as H.
  unfold attributes_kept in H. simpl in H.
  destruct H as (_ & _ & _ & _ & _ & _ & H7 & H8 & _).
  split; assumption.
Qed.

(** What [fstar] has returned it returns again, in the store it left and
    in every store with the same efficiency function. *)
Lemma fstar_again z Mh st f st1 st2 :
  fstar K num pop z Mh st = (Ok f, st1) ->
  same_fstar st1 st2 ->
  fstar K num pop z Mh st2 = (Ok f, st2).
Proof.
  intros Hrun [Hflag Hc].
  destruct (pop_fstar (pf pop)) as [f0 | fn] eqn:Hf.
  2:{ unfold fstar in *. rewrite Hf in *. unfold ret in *.
      injection Hrun as <- _. reflexivity. }
  destruct (is_ham_model pop) eqn:Hm.
  2:{ unfold fstar in *. rewrite Hf, Hm in *. simpl in *. unfold ret in *.
      injection Hrun as <- _. reflexivity. }
  destruct (fstar_ham_run K num pop f0 z Mh st f st1 Hm Hf Hrun)
    as (coeff & Hc1 & Hf1 & Hv).
  rewrite (fstar_ham_settled K num pop f0 z Mh st2 coeff Hm Hf
             (Hflag Hf1) (Hc coeff Hc1)), Hv.
  reflexivity.
Qed.

Lemma fstar_keeps_sfr_ham z Mh st g :
  _sfr_ham_ st = Some g -> _sfr_ham_ (snd (fstar K num pop z Mh st)) = Some g.
Proof.
  apply (spared_fstar K num pop (fun s => _sfr_ham_ s = Some g)); spare.
Qed.

Lemma sfr_ham_row_same i z st :
  same_fstar st (snd (sfr_ham_row K num pop i z st)).
Proof.
  assert (H : keeps (same_fstar st) (sfr_ham_row K num pop i z)).
  { unfold sfr_ham_row. keeps_steps.
    - intros s Hs. eapply same_fstar_trans; [exact Hs | apply fstar_same].
    - unfold store_sfr_ham. destruct (_sfr_ham_ _); assumption. }
  apply H, same_fstar_refl.
Qed.

Lemma sfr_ham_rows_same zs :
  forall i0 st, same_fstar st (snd (for_from i0 zs (sfr_ham_row K num pop) st)).
Proof.
  intros i0 st.
  assert (H : keeps (same_fstar st) (for_from i0 zs (sfr_ham_row K num pop))).
  { apply keeps_for_from. intros k x _ s Hs.
    eapply same_fstar_trans; [exact Hs | apply sfr_ham_row_same]. }
  apply H, same_fstar_refl.
Qed.

Lemma sfr_row_of_later st st' g g' i z :
  same_fstar st st' -> nth_error g' i = nth_error g i ->
  sfr_row_of K num pop st g i z -> sfr_row_of K num pop st' g' i z.
Proof.
  intros Hs Hg (Macc & f & row & row' & H1 & H2 & H3 & H4 & H5).
  exists Macc, f, row, row'. repeat split; try assumption.
  - apply (fstar_again z _ st f st st' H2 Hs).
  - congruence.
Qed.

Lemma sfr_ham_rows_run zs :
  forall i0 st st' g0,
    _sfr_ham_ st = Some g0 ->
    i0 + length zs <= length g0 ->
    for_from i0 zs (sfr_ham_row K num pop) st = (Ok tt, st') ->
    exists g',
      _sfr_ham_ st' = Some g'
      /\ length g' = length g0
      /\ (forall i', i' < i0 -> nth_error g' i' = nth_error g0 i')
      /\ forall k z, nth_error zs k = Some z ->
                     sfr_row_of K num pop st' g' (i0 + k) z.
Proof.
  induction zs as [| z zs IH]; intros i0 st st' g0 Hg Hlen Hrun.
  - simpl in Hrun. injection Hrun as <-. exists g0.
    repeat split; auto. intros k z Hk. destruct k; discriminate.
  - simpl in Hrun, Hlen.
    apply bind_Ok in Hrun as ([] & s1 & E1 & Hrun).
    pose proof (sfr_ham_rows_same zs (S i0) s1) as Hsame.
    rewrite Hrun in Hsame. simpl in Hsame.
    unfold sfr_ham_row in E1.
    apply bind_lift_Ok in E1 as (Macc & HMacc & E1).
    apply bind_Ok in E1 as (f & sf & Ef & E1).
    apply bind_lift_Ok in E1 as (row & Hrow & E1).
    apply bind_lift_Ok in E1 as (row' & Hrow' & E1).
    unfold modify in E1. injection E1 as <-.
    pose proof (fstar_keeps_sfr_ham z (PyArray (halos_M (halos pop))) st g0
                  Hg) as Hgf.
    rewrite Ef in Hgf. simpl in Hgf.
    assert (Hg1 : _sfr_ham_ (store_sfr_ham i0 row' sf)
                  = Some (update i0 row' g0)).
    { unfold store_sfr_ham. rewrite Hgf. reflexivity. }
    assert (Hlen1 : S i0 + length zs <= length (update i0 row' g0)).
    { rewrite length_update. lia. }
    destruct (IH (S i0) _ st' _ Hg1 Hlen1 Hrun)
      as (g' & Hg' & Hl' & Ho' & Hrows).
    exists g'. split; [exact Hg' |].
    split; [rewrite Hl'; apply length_update |].
    split.
    + intros i' Hi'. rewrite Ho' by lia. apply nth_error_update_neq. lia.
    + intros k y Hk. destruct k as [| k].
      * simpl in Hk. injection Hk as <-. rewrite Nat.add_0_r.
        assert (Hsf : same_fstar sf st').
        { eapply same_fstar_trans; [| exact Hsame].
          split; [| intros v Hv]; unfold store_sfr_ham;
            rewrite Hgf; auto. }
        exists Macc, f, row, row'. repeat split; try assumption.
        -- apply (fstar_again z _ st f sf st' Ef Hsf).
        -- rewrite Ho' by lia. apply nth_error_update_same. lia.
      * simpl in Hk. rewrite Nat.add_succ_r. apply (Hrows k y Hk).
Qed.

Lemma sfr_ham_returns_attribute st g st' :
  _sfr_ham K num pop st = (Ok g, st') -> _sfr_ham_ st' = Some g.
Proof.
  destruct (_sfr_ham_ st) as [g0 |] eqn:E.
  - rewrite (sfr_ham_cached K num pop st g0 E). intros H.
    injection H as <- <-. exact E.
  - intros Hrun. destruct (sfr_ham_allocates K num pop st E) as (g1 & Hg1 & _).
    rewrite Hrun in Hg1. simpl in Hg1.
    rewrite (sfr_ham_uncached K num pop st E) in Hrun. cbv zeta in Hrun.
    destruct (for_enumerate _ _ _) as [[[] | e] st2]; [| discriminate].
    injection Hrun as <- <-. rewrite Hg1. reflexivity.
Qed.

(** X16.  When the first access to [_sfr_ham] returns, the table it
    returns is the one the instance keeps, and its row for each redshift
    [z] of the halo tables is [fbaryon * Macc(z, M) * fstar(z, M)] over
    the masses [M] of the halo tables (a single value filling the row),
    with [fstar(z, M)] the value that the instance returns from then
    on. *)
Theorem sfr_ham_rows (st st' : State) (g : list (list float)) :
  _sfr_ham_ st = None ->
  _sfr_ham K num pop st = (Ok g, st') ->
  _sfr_ham_ st' = Some g
  /\ length g = length (halos_z (halos pop))
  /\ forall i z, nth_error (halos_z (halos pop)) i = Some z ->
                 sfr_row_of K num pop st' g i z.
Proof.
  intros E Hrun.
  pose proof (sfr_ham_returns_attribute st g st' Hrun) as Hg.
  split; [exact Hg |].
  rewrite (sfr_ham_uncached K num pop st E) in Hrun. cbv zeta in Hrun.
  destruct (for_enumerate _ _ _) as [[[] | e] st2] eqn:Eloop;
    [| discriminate].
  injection Hrun as _ <-.
  unfold for_enumerate in Eloop.
  set (g0 := zeros2 (length (halos_z (halos pop)))
                    (length (halos_M (halos pop)))) in *.
  destruct (sfr_ham_rows_run (halos_z (halos pop)) 0
              (set_sfr_ham (Some g0) st) st2 g0 eq_refl)
    as (g' & Hg' & Hl' & _ & Hrows).
  - unfold g0, zeros2. rewrite repeat_length. simpl. lia.
  - exact Eloop.
  - assert (g' = g) by congruence. subst g'. split.
    + rewrite Hl'. unfold zeros2. apply repeat_length.
    + intros i z Hz. apply (Hrows i z Hz).
Qed.

End RateTables.

Lemma sfr_ham_rows_witness :
  let r := _sfr_ham ex_K ex_num ex_ham fresh in
  exists g,
    fst r = Ok g
    /\ _sfr_ham_ (snd r) = Some g
    /\ length g = 2
    /\ sfr_row_of ex_K ex_num ex_ham (snd r) g 1 7%float.
Proof.
  intros r.
  destruct (fst r) as [g |] eqn:E; [| vm_compute in E; discriminate].
  assert (Hrun : _sfr_ham ex_K ex_num ex_ham fresh = (Ok g, snd r)).
  { subst r. rewrite <- E. apply surjective_pairing. }
  destruct (sfr_ham_rows ex_K ex_num ex_ham fresh (snd r) g eq_refl Hrun)
    as (H1 & H2 & H3).
  exists g. split; [reflexivity |]. split; [exact H1 |].
  split; [exact H2 |]. apply (H3 1 7%float). reflexivity.
Defined.

Section RateArray.

Variable K : Constants.
Variable num : Numerics.
Variable pop : Population.

Lemma sfr_ham_keeps_tab st a mz :
  _sfrd_ham_tab_ st = Some a /\ _Mmin_of_z st = Some mz ->
  _sfrd_ham_tab_ (snd (_sfr_ham K num pop st)) = Some a
  /\ _Mmin_of_z (snd (_sfr_ham K num pop st)) = Some mz.
Proof.
  apply (spared_sfr_ham K num pop
           (fun s => _sfrd_ham_tab_ s = Some a /\ _Mmin_of_z s = Some mz));
    spare.
Qed.

Lemma sfrd_ham_tab_entry_keeps_sfr mz i z st g :
  _sfr_ham_ st = Some g ->
  _sfr_ham_ (snd (sfrd_ham_tab_entry K num pop mz i z st)) = Some g.
Proof.
  assert (H : keeps (fun s => _sfr_ham_ s = Some g)
                    (sfrd_ham_tab_entry K num pop mz i z)).
  { unfold sfrd_ham_tab_entry. keeps_steps.
    - intros s Hs. rewrite (sfr_ham_cached K num pop s g Hs). exact Hs.
    - unfold store_sfrd_ham_tab. destruct (_sfrd_ham_tab_ _); assumption. }
  apply H.
Qed.

Lemma sfrd_ham_tab_entries_keep_sfr mz zs i0 st g :
  _sfr_ham_ st = Some g ->
  _sfr_ham_ (snd (for_from i0 zs (sfrd_ham_tab_entry K num pop mz) st))
  = Some g.
Proof.
  assert (H : keeps (fun s => _sfr_ham_ s = Some g)
                    (for_from i0 zs (sfrd_ham_tab_entry K num pop mz))).
  { apply keeps_for_from. intros k x _ s Hs.
    apply sfrd_ham_tab_entry_keeps_sfr, Hs. }
  apply H.
Qed.

Lemma sfrd_tab_entry_of_later sfr mz tab tab' i :
  nth_error tab' i = nth_error tab i ->
  sfrd_tab_entry_of num pop sfr mz tab i ->
  sfrd_tab_entry_of num pop sfr mz tab' i.
Proof.
  intros Ht (sfr_i & dndm_i & integrand & Mmin_i & k & H1 & H2 & H3 & H4
             & H5 & H6).
  exists sfr_i, dndm_i, integrand, Mmin_i, k. rewrite Ht. auto 10.
Qed.

Lemma sfrd_ham_tab_entries_run mz zs :
  forall i0 st st' a0,
    _sfrd_ham_tab_ st = Some a0 ->
    _Mmin_of_z st = Some mz ->
    i0 + length zs <= length a0 ->
    for_from i0 zs (sfrd_ham_tab_entry K num pop mz) st = (Ok tt, st') ->
    exists a',
      _sfrd_ham_tab_ st' = Some a'
      /\ _Mmin_of_z st' = Some mz
      /\ length a' = length a0
      /\ (forall i', i' < i0 -> nth_error a' i' = nth_error a0 i')
      /\ forall k, k < length zs ->
           exists sfr, _sfr_ham_ st' = Some sfr
                       /\ sfrd_tab_entry_of num pop sfr mz a' (i0 + k).
Proof.
  induction zs as [| z zs IH]; intros i0 st st' a0 Ha Hmz Hlen Hrun.
  - simpl in Hrun. injection Hrun as <-. exists a0.
    repeat split; auto. intros k Hk. simpl in Hk. lia.
  - simpl in Hrun, Hlen.
    apply bind_Ok in Hrun as ([] & s1 & E1 & Hrun).
    unfold sfrd_ham_tab_entry in E1.
    apply bind_Ok in E1 as (sfr & ss & Es & E1).
    pose proof (sfr_ham_returns_attribute K num pop st sfr ss Es) as Hsfr.
    destruct (sfr_ham_keeps_tab st a0 mz (conj Ha Hmz)) as [Ha1 Hmz1].
    rewrite Es in Ha1, Hmz1. simpl in Ha1, Hmz1.
    apply bind_lift_Ok in E1 as (sfr_i & Hsfr_i & E1).
    apply bind_lift_Ok in E1 as (dndm_i & Hdndm_i & E1).
    apply bind_lift_Ok in E1 as (integrand & Hint & E1).
    apply bind_lift_Ok in E1 as (Mmin_i & HMmin_i & E1).
    apply bind_lift_Ok in E1 as (k0 & Hk0 & E1).
    cbv zeta in E1. unfold modify in E1. injection E1 as <-.
    set (v := (simps num (slice_from integrand (Z.of_nat k0))
                 (slice_from (halos_logM (halos pop)) (Z.of_nat k0))
               * ln10 num)%float) in *.
    assert (Ha2 : _sfrd_ham_tab_ (store_sfrd_ham_tab i0 v ss)
                  = Some (update i0 v a0)).
    { unfold store_sfrd_ham_tab. rewrite Ha1. reflexivity. }
    assert (Hmz2 : _Mmin_of_z (store_sfrd_ham_tab i0 v ss) = Some mz).
    { unfold store_sfrd_ham_tab. rewrite Ha1. exact Hmz1. }
    assert (Hsfr2 : _sfr_ham_ (store_sfrd_ham_tab i0 v ss) = Some sfr).
    { unfold store_sfrd_ham_tab. rewrite Ha1. exact Hsfr. }
    assert (Hlen2 : S i0 + length zs <= length (update i0 v a0)).
    { rewrite length_update. lia. }
    destruct (IH (S i0) _ st' _ Ha2 Hmz2 Hlen2 Hrun)
      as (a' & Ha' & Hmz' & Hl' & Ho' & Hent).
    pose proof (sfrd_ham_tab_entries_keep_sfr mz zs (S i0) _ sfr Hsfr2)
      as Hsfr'.
    rewrite Hrun in Hsfr'. simpl in Hsfr'.
    exists a'. split; [exact Ha' |]. split; [exact Hmz' |].
    split; [rewrite Hl'; apply length_update |].
    split.
    + intros i' Hi'. rewrite Ho' by lia. apply nth_error_update_neq. lia.
    + intros k Hk. destruct k as [| k].
      * rewrite Nat.add_0_r. exists sfr. split; [exact Hsfr' |].
        exists sfr_i, dndm_i, integrand, Mmin_i, k0.
        repeat split; try assumption; try (apply getitem_Ok; assumption).
        rewrite Ho' by lia. apply nth_error_update_same. lia.
      * rewrite Nat.add_succ_r. apply Hent. simpl in Hk. lia.
Qed.

Lemma sfrd_ham_tab_returns_attribute st a st' :
  _sfrd_ham_tab K num pop st = (Ok a, st') -> _sfrd_ham_tab_ st' = Some a.
Proof.
  destruct (_sfrd_ham_tab_ st) as [a0 |] eqn:E.
  - rewrite (sfrd_ham_tab_cached K num pop st a0 E). intros H.
    injection H as <- <-. exact E.
  - intros Hrun.
    destruct (sfrd_ham_tab_allocates K num pop st E) as (a1 & Ha1 & _).
    rewrite Hrun in Ha1. simpl in Ha1.
    rewrite (sfrd_ham_tab_uncached K num pop st E) in Hrun.
    cbv zeta in Hrun.
    destruct (Mmin_of_z_value pop) as [mz | e]; [| discriminate].
    destruct (for_enumerate _ _ _) as [[[] | e] st2]; [| discriminate].
    injection Hrun as <- <-. rewrite Ha1. reflexivity.
Qed.

(** X17.  When the first access to [_sfrd_ham_tab] returns, the array it
    returns is the one the instance keeps, with an entry per redshift of
    the halo tables: the integral by Simpson's rule, over the logarithm
    of the mass and times [ln 10], of row [i] of the table [_sfr_ham]
    times the mass function, from the mass of the halo tables nearest to
    the threshold mass upwards; the threshold masses are those the method
    computes for itself from [pop_Mmin] (a number is spread over the
    redshifts) or from [pop_Tmin], and are kept in [_Mmin_of_z]. *)
Theorem sfrd_ham_tab_entries (st st' : State) (tab : list float) :
  _sfrd_ham_tab_ st = None ->
  _sfrd_ham_tab K num pop st = (Ok tab, st') ->
  exists mz,
    Mmin_of_z_value pop = Ok mz
    /\ _Mmin_of_z st' = Some mz
    /\ _sfrd_ham_tab_ st' = Some tab
    /\ length tab = length (halos_z (halos pop))
    /\ forall i, i < length (halos_z (halos pop)) ->
         exists sfr, _sfr_ham_ st' = Some sfr
                     /\ sfrd_tab_entry_of num pop sfr mz tab i.
Proof.
  intros E Hrun.
  pose proof (sfrd_ham_tab_returns_attribute st tab st' Hrun) as Ht.
  rewrite (sfrd_ham_tab_uncached K num pop st E) in Hrun. cbv zeta in Hrun.
  destruct (Mmin_of_z_value pop) as [mz | e]; [| discriminate].
  destruct (for_enumerate _ _ _) as [[[] | e] st2] eqn:Eloop;
    [| discriminate].
  injection Hrun as _ <-.
  unfold for_enumerate in Eloop.
  set (a0 := zeros (length (halos_z (halos pop)))) in *.
  destruct (sfrd_ham_tab_entries_run mz (halos_z (halos pop)) 0
              (set_Mmin_of_z (Some mz) (set_sfrd_ham_tab (Some a0) st))
              st2 a0 eq_refl eq_refl)
    as (a' & Ha' & Hmz' & Hl' & _ & Hent).
  - unfold a0, zeros. rewrite repeat_length. simpl. lia.
  - exact Eloop.
  - assert (a' = tab) by congruence. subst a'.
    exists mz. split; [reflexivity |]. split; [exact Hmz' |].
    split; [exact Ht |].
    split; [rewrite Hl'; unfold a0, zeros; apply repeat_length |].
    intros i Hi. apply (Hent i Hi).
Qed.

Lemma ham_not_fcoll : is_ham_model pop = true -> is_fcoll_model pop = false.
Proof.
  unfold is_fcoll_model, is_ham_model. intros H.
  apply String.eqb_eq in H. rewrite H. reflexivity.
Qed.

Lemma sfrd_ham_cached st f :
  _sfrd_ham_ st = Some f -> _sfrd_ham K num pop st = (Ok f, st).
Proof.
  intros H. unfold _sfrd_ham, bind, gets. simpl. rewrite H. reflexivity.
Qed.

(** X18.  In an abundance-matching population without a user-supplied
    SFRD, what [SFRD(z)] returns at a redshift not beyond the formation
    redshift is the value at [z] of the spline that the instance holds,
    times [g_per_msun / s_per_yr]; and the spline, when this call made
    it, is the cubic interpolant through the redshifts of the halo
    tables and the array [_sfrd_ham_tab] that the instance holds. *)
Theorem SFRD_ham_spline (z : float) (st st' : State) (v : float) :
  is_ham_model pop = true ->
  pop_sfrd (pf pop) = None ->
  (zform pop <? z)%float = false ->
  SFRD K num pop z st = (Ok v, st') ->
  exists f v0,
    _sfrd_ham_ st' = Some f
    /\ f z = Ok v0
    /\ v = (v0 * g_per_msun K / s_per_yr K)%float
    /\ (_sfrd_ham_ st = None ->
        exists tab,
          _sfrd_ham_tab_ st' = Some tab
          /\ interp1d_cubic num (halos_z (halos pop)) tab = Ok f).
Proof.
  intros Hm Hs Hz. unfold SFRD.
  rewrite Hz, Hs, (ham_not_fcoll Hm), Hm. intros Hrun.
  apply bind_Ok in Hrun as (f & s1 & E1 & Hrun).
  apply bind_lift_Ok in Hrun as (v0 & Hv0 & Hrun).
  unfold ret in Hrun. injection Hrun as <- <-.
  exists f, v0.
  destruct (_sfrd_ham_ st) as [f' |] eqn:E.
  - rewrite (sfrd_ham_cached st f' E) in E1. injection E1 as <- <-.
    repeat split; try assumption. discriminate.
  - unfold _sfrd_ham in E1. unfold bind at 1 in E1. unfold gets at 1 in E1.
    rewrite E in E1.
    apply bind_Ok in E1 as (tab & s2 & E2 & E1).
    apply bind_lift_Ok in E1 as (f' & Hf' & E1).
    apply bind_Ok in E1 as ([] & s3 & E3 & E1).
    unfold modify in E3. injection E3 as <-.
    unfold ret in E1. injection E1 as <- <-.
    repeat split; try assumption; try reflexivity.
    intros _. exists tab. split; [| exact Hf'].
    apply (sfrd_ham_tab_returns_attribute st tab s2 E2).
Qed.

End RateArray.

Lemma sfrd_ham_tab_entries_witness :
  let r := _sfrd_ham_tab ex_K ex_num ex_ham fresh in
  exists tab sfr,
    fst r = Ok tab
    /\ _Mmin_of_z (snd r) = Some [1e9 * 1; 1e9 * 1]%float
    /\ _sfrd_ham_tab_ (snd r) = Some tab
    /\ length tab = 2
    /\ _sfr_ham_ (snd r) = Some sfr
    /\ sfrd_tab_entry_of ex_num ex_ham sfr [1e9 * 1; 1e9 * 1]%float tab 1.
Proof.
  intros r.
  destruct (fst r) as [tab |] eqn:E; [| vm_compute in E; discriminate].
  assert (Hrun : _sfrd_ham_tab ex_K ex_num ex_ham fresh = (Ok tab, snd r)).
  { subst r. rewrite <- E. apply surjective_pairing. }
  destruct (sfrd_ham_tab_entries ex_K ex_num ex_ham fresh (snd r) tab
              eq_refl Hrun) as (mz & H1 & H2 & H3 & H4 & H5).
  vm_compute in H1. injection H1 as <-.
  destruct (H5 1) as (sfr & Hs & He); [simpl; lia |].
  exists tab, sfr. repeat split; assumption.
Defined.

Lemma SFRD_ham_spline_witness :
  let r := SFRD ex_K ex_num ex_ham 10%float fresh in
  exists v f v0 tab,
    fst r = Ok v
    /\ _sfrd_ham_ (snd r) = Some f
    /\ f 10%float = Ok v0
    /\ v = (v0 * 1.98892e33 / 31557600)%float
    /\ _sfrd_ham_tab_ (snd r) = Some tab
    /\ interp1d_cubic ex_num [6; 7]%float tab = Ok f.
Proof.
  intros r.
  destruct (fst r) as [v |] eqn:E; [| vm_compute in E; discriminate].
  assert (Hrun : SFRD ex_K ex_num ex_ham 10%float fresh = (Ok v, snd r)).
  { subst r. rewrite <- E. apply surjective_pairing. }
  destruct (SFRD_ham_spline ex_K ex_num ex_ham 10%float fresh (snd r) v
              eq_refl eq_refl eq_refl Hrun) as (f & v0 & H1 & H2 & H3 & H4).
  destruct (H4 eq_refl) as (tab & H5 & H6).
  exists v, f, v0, tab. repeat split; assumption.
Defined.

(* ================================================================== *)
(** * The fit *)
(* ================================================================== *)

Section FitFacts.

Variable K : Constants.
Variable num : Numerics.
Variable pop : Population.

Lemma fstar_ham_cached st g :
  _fstar_ham_pts st = Some g -> _fstar_ham K num pop st = (Ok g, st).
Proof.
  intros H. unfold _fstar_ham, bind, gets. simpl. rewrite H. reflexivity.
Qed.

Lemma keeps_grid_exists_ham_row kappa_UV Marr i z :
  keeps (fun s => _fstar_ham_pts s <> None)
        (ham_row K num pop kappa_UV Marr i z).
Proof.
  unfold ham_row. keeps_steps; try (apply keeps_constraints; auto).
  unfold ham_cell.
  keeps_steps; try (apply keeps_Mmin; auto); try (apply keeps_eta; auto).
  unfold store_fstar_ham. destruct (_fstar_ham_pts _) eqn:E; simpl; congruence.
Qed.

Lemma fstar_ham_returns_attribute st g st' :
  _fstar_ham K num pop st = (Ok g, st') -> _fstar_ham_pts st' = Some g.
Proof.
  destruct (_fstar_ham_pts st) as [g0 |] eqn:E.
  - rewrite (fstar_ham_cached st g0 E). intros H. injection H as <- <-.
    exact E.
  - unfold _fstar_ham. unfold bind at 1. unfold gets at 1. rewrite E.
    intros H.
    apply bind_Ok in H as (y & s1 & _ & H).
    apply bind_lift_Ok in H as (kappa_UV & _ & H).
    apply bind_Ok in H as (Marr & s2 & _ & H).
    apply bind_Ok in H as (c & s3 & _ & H).
    cbv zeta in H.
    apply bind_Ok in H as ([] & s4 & E4 & H).
    unfold modify in E4. injection E4 as <-.
    apply bind_Ok in H as (c' & s5 & E5 & H).
    apply bind_Ok in H as ([] & s6 & E6 & H).
    apply bind_Ok in H as (og & s7 & E7 & H).
    unfold gets in E7. injection E7 as <- <-.
    unfold ret in H. injection H as <- <-.
    assert (H5 : _fstar_ham_pts s5 <> None).
    { pose proof (keeps_constraints pop (fun s => _fstar_ham_pts s <> None)
                    (fun v s H => H) (set_fstar_ham_pts
                       (Some (zeros2 (length (c_z (fst c))) (length Marr)))
                       s3)) as Hk.
      rewrite E5 in Hk. apply Hk. simpl. discriminate. }
    assert (H6 : _fstar_ham_pts s6 <> None).
    { pose proof (keeps_for_enumerate (fun s => _fstar_ham_pts s <> None)
                    (c_z (fst c'))
                    (ham_row K num pop kappa_UV Marr)
                    (fun k x _ => keeps_grid_exists_ham_row kappa_UV Marr k x)
                    s5 H5) as Hk.
      rewrite E6 in Hk. exact Hk. }
    destruct (_fstar_ham_pts s6); [reflexivity | congruence].
Qed.

Lemma Marr_returns_attribute st a st' :
  _Marr num pop st = (Ok a, st') -> _Marr_ st' = Some a.
Proof.
  unfold _Marr, bind, gets, modify, ret. simpl.
  destruct (_Marr_ st) as [v |] eqn:E; simpl; intros H;
    injection H as <- <-; [exact E | reflexivity].
Qed.

Lemma fstar_ham_keeps_Marr st a :
  _Marr_ st = Some a -> _Marr_ (snd (_fstar_ham K num pop st)) = Some a.
Proof.
  apply (spared_fstar_ham K num pop (fun s => _Marr_ s = Some a)); spare.
Qed.

Lemma constraints_keeps_Marr st a :
  _Marr_ st = Some a -> _Marr_ (snd (constraints pop st)) = Some a.
Proof.
  apply (keeps_constraints pop (fun s => _Marr_ s = Some a)). auto.
Qed.

(** What the first access to [_fstar_coeff] does. *)
Lemma fstar_coeff_uncached st :
  _fstar_coeff_ st = None ->
  _fstar_coeff K num pop st
  = match _Marr num pop st with
    | (Raise e, s1) => (Raise e, s1)
    | (Ok Marr, s1) =>
        match constraints pop s1 with
        | (Raise e, s2) => (Raise e, s2)
        | (Ok cs, s2) =>
            match _fstar_ham K num pop s2 with
            | (Raise e, s3) => (Raise e, s3)
            | (Ok g, s3) =>
                match curve_fit num
                        (fun coeff =>
                           res_mapM
                             (fun zM => _fstar_poly num (fst zM) (snd zM)
                                                    coeff)
                             (meshgrid_flat Marr (c_z (fst cs))))
                        (concat g) fit_guess with
                | Raise e => (Raise e, s3)
                | Ok coeff => (Ok coeff, set_fstar_coeff (Some coeff) s3)
                end
            end
        end
    end.
Proof.
  intros E. unfold _fstar_coeff. unfold bind at 1. unfold gets at 1.
  rewrite E. unfold bind at 1.
  destruct (_Marr num pop st) as [[Marr | e] s1]; [| reflexivity].
  unfold bind at 1.
  destruct (constraints pop s1) as [[cs | e] s2]; [| reflexivity].
  unfold bind at 1.
  destruct (_fstar_ham K num pop s2) as [[g | e] s3]; [| reflexivity].
  cbv zeta. unfold bind at 1. unfold lift at 1. fold fit_guess.
  destruct (curve_fit _ _ _ _) as [coeff | e]; reflexivity.
Qed.

Lemma fstar_coeff_fit st st' coeff :
  _fstar_coeff_ st = None ->
  _fstar_coeff K num pop st = (Ok coeff, st') ->
  exists Marr g,
    _Marr_ st' = Some Marr
    /\ _fstar_ham_pts st' = Some g
    /\ curve_fit num (fit_model num pop Marr) (concat g) fit_guess
       = Ok coeff.
Proof.
  intros E Hrun. rewrite (fstar_coeff_uncached st E) in Hrun.
  destruct (_Marr num pop st) as [[Marr | e] s1] eqn:E1; [| discriminate].
  destruct (constraints pop s1) as [[cs | e] s2] eqn:E2; [| discriminate].
  destruct (_fstar_ham K num pop s2) as [[g | e] s3] eqn:E3;
    [| discriminate].
  destruct (curve_fit _ _ _ _) as [c | e] eqn:Hfit; [| discriminate].
  injection Hrun as <- <-.
  pose proof (Marr_returns_attribute st Marr s1 E1) as HM1.
  pose proof (constraints_keeps_Marr s1 Marr HM1) as HM2.
  rewrite E2 in HM2. simpl in HM2.
  pose proof (fstar_ham_keeps_Marr s2 Marr HM2) as HM3.
  rewrite E3 in HM3. simpl in HM3.
  pose proof (constraints_returns_attribute pop s1 cs) as Hcs.
  rewrite E2 in Hcs. destruct (Hcs eq_refl) as [Hcs1 _].
  rewrite Hcs1 in Hfit.
  exists Marr, g. split; [exact HM3 |]. split; [| exact Hfit].
  apply (fstar_ham_returns_attribute s2 g s3 E3).
Qed.

Lemma run_keeps_fstar_coeff coeff cs st :
  _fstar_coeff_ st = Some coeff ->
  _fstar_coeff_ (run K num pop cs st) = Some coeff.
Proof.
  apply (run_keeps K num pop (fun s => _fstar_coeff_ s = Some coeff)).
  intros c s Hs.
  pose proof (exec_keeps_attributes K num pop c s) as H.
  unfold attributes_kept in H.
  destruct H as (_ & _ & _ & _ & _ & _ & H & _).
  apply H, Hs.
Qed.

(** X19.  When the first access to [_fstar_coeff] returns, the
    coefficients it returns are what the least-squares fit returned for
    the six-coefficient polynomial over the mesh of the grid masses and
    the constraint redshifts, fitted to the flattened efficiency grid
    that the instance holds, from the fixed initial guess; the fit is
    made once: every later access, after whatever other accesses and
    calls, returns these coefficients. *)
Theorem fstar_coeff_is_fit (st st' : State) (coeff : list float) :
  _fstar_coeff_ st = None ->
  _fstar_coeff K num pop st = (Ok coeff, st') ->
  (exists Marr g,
      _Marr_ st' = Some Marr
      /\ _fstar_ham_pts st' = Some g
      /\ curve_fit num
           (fun c => res_mapM (fun zM => _fstar_poly num (fst zM) (snd zM) c)
                       (meshgrid_flat Marr (c_z (pop_constraints (pf pop)))))
           (concat g)
           [-158.17; 34.7; 9.91; -0.913; -2.542; 0.062]%float
         = Ok coeff)
  /\ forall cs,
       let st2 := run K num pop cs st' in
       _fstar_coeff K num pop st2 = (Ok coeff, st2).
Proof.
  intros E Hrun. split; [apply (fstar_coeff_fit st st' coeff E Hrun) |].
  intros cs st2. apply fstar_coeff_cached, run_keeps_fstar_coeff.
  apply (fstar_coeff_returns_attribute K num pop st coeff st' Hrun).
Qed.

End FitFacts.

Lemma fstar_coeff_is_fit_witness :
  let r := _fstar_coeff ex_K ex_num ex_ham fresh in
  let guess := [-158.17; 34.7; 9.91; -0.913; -2.542; 0.062]%float in
  fst r = Ok guess
  /\ _Marr_ (snd r) = Some [1e8; 1e9; 1e10]%float
  /\ _fstar_ham_pts (snd r) = Some [[0; 0.001; 0.001]]%float
  /\ _fstar_coeff ex_K ex_num ex_ham
       (run ex_K ex_num ex_ham [Get_sfrd_ham] (snd r))
     = (Ok guess, run ex_K ex_num ex_ham [Get_sfrd_ham] (snd r)).
Proof.
  intros r guess.
  assert (E : fst r = Ok guess) by (vm_compute; reflexivity).
  assert (Hrun : _fstar_coeff ex_K ex_num ex_ham fresh = (Ok guess, snd r)).
  { subst r. rewrite <- E. apply surjective_pairing. }
  destruct (fstar_coeff_is_fit ex_K ex_num ex_ham fresh (snd r) guess
              eq_refl Hrun) as [(Marr & g & H2 & H3 & H4) H5].
  split; [exact E |].
  assert (EM : _Marr_ (snd r) = Some [1e8; 1e9; 1e10]%float)
    by (vm_compute; reflexivity).
  assert (Eg : _fstar_ham_pts (snd r) = Some [[0; 0.001; 0.001]]%float)
    by (vm_compute; reflexivity).
  split; [exact EM |]. split; [exact Eg |]. apply (H5 [Get_sfrd_ham]).
Defined.

(* ================================================================== *)
(** * The arguments of the spectral source *)
(* ================================================================== *)

Section SourceArguments.

Variable V : Type.

Lemma dict_get_set_same (k : string) (v : V) d :
  dict_get k (dict_set k v d) = Some v.
Proof.
  induction d as [| [k' w] d IH]; simpl.
  - rewrite String.eqb_refl. reflexivity.
  - destruct (k' =? k)%string eqn:E; simpl; rewrite E; auto.
Qed.

Lemma dict_get_set_other (k k0 : string) (v : V) d :
  k0 <> k -> dict_get k (dict_set k0 v d) = dict_get k d.
Proof.
  intros N. induction d as [| [k' w] d IH]; simpl.
  - destruct (String.eqb_spec k0 k); [contradiction | reflexivity].
  - destruct (String.eqb_spec k' k0) as [-> | N0]; simpl.
    + destruct (String.eqb_spec k0 k); [contradiction | reflexivity].
    + rewrite IH. reflexivity.
Qed.

Lemma dict_get_not_In (k : string) (d : list (string * V)) :
  ~ In k (map fst d) -> dict_get k d = None.
Proof.
  induction d as [| [k' w] d IH]; simpl; [reflexivity |].
  intros N. destruct (String.eqb_spec k' k) as [-> | _].
  - exfalso. apply N. left. reflexivity.
  - apply IH. intros H. apply N. right. exact H.
Qed.

(** The value [src_kwargs] gives the parameter [par] whose default is
    [d]. *)
Lemma fill_kwargs_from (pf_dict defaults : list (string * V)) :
  forall kw k,
    NoDup (map fst defaults) ->
    dict_get k
      (fold_left (fun kw (item : string * V) =>
                    match dict_get (replace "source" "pop" (fst item))
                                   pf_dict with
                    | Some v => dict_set (fst item) v kw
                    | None => dict_set (fst item) (snd item) kw
                    end) defaults kw)
    = match dict_get k defaults with
      | Some d =>
          Some (match dict_get (replace "source" "pop" k) pf_dict with
                | Some v => v
                | None => d
                end)
      | None => dict_get k kw
      end.
Proof.
  induction defaults as [| [p d] defaults IH]; intros kw k Hnd; simpl.
  - reflexivity.
  - inversion Hnd as [| ? ? Hp Hnd']; subst.
    rewrite (IH _ k Hnd').
    destruct (String.eqb_spec p k) as [-> | N].
    + rewrite (dict_get_not_In k defaults Hp).
      destruct (dict_get (replace "source" "pop" k) pf_dict);
        rewrite dict_get_set_same; reflexivity.
    + destruct (dict_get k defaults); [reflexivity |].
      destruct (dict_get (replace "source" "pop" p) pf_dict);
        apply dict_get_set_other; exact N.
Qed.

(** X20.  For a stellar or a black-hole source, [src_kwargs] holds
    exactly the parameters that the source class has defaults for: each
    with the value of the population's parameter of the same name with
    [source] replaced by [pop] where the parameter file has one, and with
    its default otherwise; what else the parameter file holds is not
    passed on.  For any other source, [src_kwargs] is the parameter file
    as it is. *)
Theorem src_kwargs_lookup (pop_sed : string)
                          (spars bpars pf_dict : list (string * V)) :
  NoDup (map fst spars) -> NoDup (map fst bpars) ->
  let filled defaults k :=
    match dict_get k defaults with
    | Some d =>
        Some (match dict_get (replace "source" "pop" k) pf_dict with
              | Some v => v
              | None => d
              end)
    | None => None
    end in
  match _Source pop_sed with
  | Star =>
      forall k, dict_get k (src_kwargs pop_sed spars bpars pf_dict)
                = filled spars k
  | BlackHole =>
      forall k, dict_get k (src_kwargs pop_sed spars bpars pf_dict)
                = filled bpars k
  | LiteratureSource => src_kwargs pop_sed spars bpars pf_dict = pf_dict
  end.
Proof.
  intros Hs Hb filled. unfold src_kwargs.
  destruct (_Source pop_sed); [| | reflexivity]; intros k; unfold fill_kwargs;
    rewrite fill_kwargs_from by assumption; unfold filled;
    match goal with
    | |- context [dict_get k ?d] => destruct (dict_get k d); reflexivity
    end.
Qed.

End SourceArguments.

Lemma src_kwargs_lookup_witness :
  let spars := [("source_temperature"%string, 1e5%float);
                ("source_type"%string, 0%float)] in
  let pf_dict := [("pop_temperature"%string, 3e4%float);
                  ("pop_fesc"%string, 0.1%float)] in
  _Source "bb" = Star
  /\ replace "source" "pop" "source_temperature" = "pop_temperature"%string
  /\ dict_get "source_temperature" (src_kwargs "bb" spars [] pf_dict)
     = Some 3e4%float
  /\ dict_get "source_type" (src_kwargs "bb" spars [] pf_dict)
     = Some 0%float
  /\ dict_get "pop_fesc" (src_kwargs "bb" spars [] pf_dict) = None.
Proof.
  intros spars pf_dict.
  assert (Hs : NoDup (map fst spars)).
  { repeat constructor; simpl; intuition discriminate. }
  pose proof (src_kwargs_lookup float "bb" spars [] pf_dict Hs
                (NoDup_nil string)) as H.
  cbv zeta in H. change (_Source "bb") with Star in H.
  split; [reflexivity |]. split; [reflexivity |].
  split; [| split]; rewrite H; reflexivity.
Defined.

(* ================================================================== *)
(** * Caches that cannot be told from recomputation *)
(* ================================================================== *)

Section Transparent.

Variable K : Constants.
Variable num : Numerics.
Variable pop : Population.

Lemma keeps_fstar_ham_assignments (I : State -> Prop) :
  (forall y st, I st -> _yield_per_sfr st = None ->
                normalize_sed K pop = Ok y ->
                I (set_yield_per_sfr (Some y) st)) ->
  (forall st, I st -> _Mmin st = None ->
              I (set_Mmin (Some (Mmin_value pop)) st)) ->
  (forall st, I st -> _Marr_ st = None ->
              I (set_Marr (Some (Marr_value num pop)) st)) ->
  (forall v st, I st -> I (set_eta v st)) ->
  (forall v st, I st -> I (set_constraints v st)) ->
  (forall v st, I st -> I (set_fstar_ham_pts v st)) ->
  keeps I (_fstar_ham K num pop).
Proof.
  intros Hy HMmin HMarr Heta Hc Hg. unfold _fstar_ham.
  keeps_steps;
    auto using keeps_yield_per_sfr, keeps_Marr, keeps_constraints.
  unfold ham_row. keeps_steps; auto using keeps_constraints.
  unfold ham_cell. keeps_steps; auto using keeps_Mmin, keeps_eta.
  unfold store_fstar_ham. destruct (_fstar_ham_pts _); auto.
Qed.

(** The cached yield is what [normalize_sed] returns. *)
Lemma reachable_yield st :
  reachable K num pop st ->
  forall y, _yield_per_sfr st = Some y -> normalize_sed K pop = Ok y.
Proof.
  set (I := fun s => forall y, _yield_per_sfr s = Some y ->
                               normalize_sed K pop = Ok y).
  induction 1 as [| c st _ IH].
  - discriminate.
  - change (I (exec K num pop c st)). change (I st) in IH.
    assert (Hy : forall y s, I s -> _yield_per_sfr s = None ->
                             normalize_sed K pop = Ok y ->
                             I (set_yield_per_sfr (Some y) s)).
    { intros y s _ _ Hn y' Hy. simpl in Hy. congruence. }
    apply (keeps_exec K num pop I); try exact IH; try exact Hy;
      try (intros; assumption).
    apply keeps_fstar_ham_assignments; try exact Hy;
      try (intros; assumption).
Qed.

(** X21.  The caches of the yield, of [Mmin] and of the mass grid cannot
    be told from recomputation: in every store an instance can reach,
    [yield_per_sfr] returns or raises exactly what [normalize_sed]
    returns or raises, [Mmin] returns [pop_Mmin] or, where that is not
    given, the virial masses of [pop_Tmin] at the redshifts of the halo
    tables, and [_Marr] returns [10**pop_logM]. *)
Theorem caches_transparent (st : State) :
  reachable K num pop st ->
  fst (yield_per_sfr K pop st) = normalize_sed K pop
  /\ fst (Mmin pop st) = Ok (Mmin_value pop)
  /\ fst (_Marr num pop st) = Ok (Marr_value num pop).
Proof.
  intros Hr.
  pose proof (reachable_yield st Hr) as Hy.
  destruct (reachable_grid_invariant K num pop st Hr) as [[HM HA] _].
  split; [| split].
  - unfold yield_per_sfr, bind, gets, lift, modify, ret. simpl.
    destruct (_yield_per_sfr st) as [y |] eqn:E; simpl.
    + symmetry. apply Hy. reflexivity.
    + destruct (normalize_sed K pop); reflexivity.
  - unfold Mmin, bind, gets, modify, ret. simpl.
    destruct (_Mmin st) as [v |] eqn:E; simpl; [| reflexivity].
    rewrite (HM v eq_refl). reflexivity.
  - unfold _Marr, bind, gets, modify, ret. simpl.
    destruct (_Marr_ st) as [a |] eqn:E; simpl; [| reflexivity].
    rewrite (HA a eq_refl). reflexivity.
Qed.

End Transparent.

Lemma caches_transparent_witness :
  let st := run ex_K ex_num ex_ham
                [Get_fstar_ham; Call_SFRD 10%float; Get_yield_per_sfr] fresh
  in
  _yield_per_sfr st = Some 1e40%float
  /\ fst (yield_per_sfr ex_K ex_ham st) = normalize_sed ex_K ex_ham
  /\ fst (Mmin ex_ham st) = Ok (PyArray [1e9; 1e9]%float)
  /\ fst (_Marr ex_num ex_ham st) = Ok [1e8; 1e9; 1e10]%float.
Proof.
  intros st. split; [vm_compute; reflexivity |].
  apply (caches_transparent ex_K ex_num ex_ham st).
  apply reachable_run, reachable_fresh.
Defined.

(* ================================================================== *)
(** * The stores an instance can reach *)
(* ================================================================== *)

(** The properties in dependency order, each from the rules unless the
    context holds a proof for it. *)
Ltac owners K num pop I :=
  assert (keeps I (yield_per_sfr K pop))
    by (first [assumption | apply owner_yield_per_sfr; spare]);
  assert (keeps I (Mmin pop))
    by (first [assumption | apply owner_Mmin; spare]);
  assert (keeps I (_Marr num pop))
    by (first [assumption | apply owner_Marr; spare]);
  assert (keeps I (constraints pop))
    by (first [assumption | apply owner_constraints; spare]);
  assert (keeps I (eta K num pop))
    by (first [assumption | apply owner_eta; first [assumption | spare]]);
  assert (keeps I (_fstar_ham K num pop))
    by (first [assumption
              | apply owner_fstar_ham; first [assumption | spare]]);
  assert (keeps I (_fstar_coeff K num pop))
    by (first [assumption
              | apply owner_fstar_coeff; first [assumption | spare]]);
  assert (forall z Mh, keeps I (fstar K num pop z Mh))
    by (first [assumption
              | intros; apply call_fstar; first [assumption | spare]]);
  assert (keeps I (_sfr_ham K num pop))
    by (first [assumption
              | apply owner_sfr_ham; first [assumption | spare]]);
  assert (keeps I (_sfrd_ham_tab K num pop))
    by (first [assumption
              | apply owner_sfrd_ham_tab; first [assumption | spare]]);
  assert (keeps I (_sfrd_ham K num pop))
    by (first [assumption
              | apply owner_sfrd_ham; first [assumption | spare]]);
  assert (forall Emin Emax, keeps I (_convert_band num pop Emin Emax))
    by (first [assumption | intros; apply call_convert_band; spare]);
  assert (forall Emin Emax,
             keeps I (_get_energy_per_photon num pop Emin Emax))
    by (first [assumption | intros; apply call_get_energy_per_photon; spare]).

Lemma lookup2_store2_inv a b c k1 k2 v d :
  lookup2 k1 k2 d = None ->
  lookup2 a b (store2 k1 k2 v d) = Some c ->
  lookup2 a b d = Some c
  \/ ((k1 =? a)%float = true /\ (k2 =? b)%float = true /\ c = v).
Proof.
  induction d as [| [[x y] w] d IH]; simpl.
  - intros _.
    destruct (k1 =? a)%float; [destruct (k2 =? b)%float |]; simpl;
      try discriminate.
    intros H. injection H as <-. right. auto.
  - destruct ((x =? k1)%float && (y =? k2)%float) eqn:Ek; [discriminate |].
    intros Hk. simpl.
    destruct ((x =? a)%float && (y =? b)%float); [auto | apply IH, Hk].
Qed.

Section ReachableBands.

Variable K : Constants.
Variable num : Numerics.
Variable pop : Population.

Lemma band_integrals_store f a b d :
  band_integrals num f d -> lookup2 a b d = None ->
  band_integrals num f (store2 a b (quad num f a b) d).
Proof.
  intros Hd Hn a' b' c Hl.
  apply lookup2_store2_inv in Hl; [| exact Hn].
  destruct Hl as [Hl | (Ha & Hb & ->)].
  - apply (Hd a' b' c Hl).
  - exists a, b. auto.
Qed.

Lemma exec_band_integrals c st :
  band_integrals num (Spectrum (src pop)) (_conversion_factors st)
  /\ band_integrals num (fun E => Spectrum (src pop) E * E)%float
                    (_eV_per_phot st) ->
  band_integrals num (Spectrum (src pop))
                 (_conversion_factors (exec K num pop c st))
  /\ band_integrals num (fun E => Spectrum (src pop) E * E)%float
                    (_eV_per_phot (exec K num pop c st)).
Proof.
  apply (spared_exec K num pop
           (fun s =>
              band_integrals num (Spectrum (src pop)) (_conversion_factors s)
              /\ band_integrals num (fun E => Spectrum (src pop) E * E)%float
                                (_eV_per_phot s)));
    try spare.
  - intros a b s [H1 H2] Hn. split; [| exact H2]. simpl.
    apply band_integrals_store; assumption.
  - intros a b s [H1 H2] Hn. split; [exact H1 |]. simpl.
    apply band_integrals_store; assumption.
Qed.

(** X22.  In every store an instance can reach, what the band caches hold
    is what the methods would compute: every cached conversion factor is
    the integral of the spectrum, and every cached photon energy the
    integral of [Spectrum(E) * E], over a band whose bounds equal those
    of its key; so for bounds that are numbers [_convert_band] with a
    bound given always returns the integral of the spectrum over a band
    with bounds equal to the requested ones. *)
Theorem band_caches_coherent (st : State) :
  reachable K num pop st ->
  band_integrals num (Spectrum (src pop)) (_conversion_factors st)
  /\ band_integrals num (fun E => Spectrum (src pop) E * E)%float
                    (_eV_per_phot st)
  /\ forall Emin Emax a b,
       bound_given Emin Emax = true ->
       requested_band pop Emin Emax = (a, b) ->
       (a =? a)%float = true -> (b =? b)%float = true ->
       exists x y,
         (x =? a)%float = true /\ (y =? b)%float = true
         /\ fst (_convert_band num pop Emin Emax st)
            = Ok (quad num (Spectrum (src pop)) x y).
Proof.
  intros Hr.
  assert (H : band_integrals num (Spectrum (src pop))
                             (_conversion_factors st)
              /\ band_integrals num (fun E => Spectrum (src pop) E * E)%float
                                (_eV_per_phot st)).
  { induction Hr as [| c st _ IH].
    - split; intros a b c Hl; discriminate.
    - apply exec_band_integrals, IH. }
  destruct H as [H1 H2]. split; [exact H1 |]. split; [exact H2 |].
  intros Emin Emax a b Hg Hb Ha Hbb.
  pose proof (convert_band_cases num pop Emin Emax st) as Hc.
  rewrite Hb, Hg in Hc. rewrite Hc.
  destruct (lookup2 a b (_conversion_factors st)) as [c |] eqn:El.
  - destruct (H1 a b c El) as (x & y & Hx & Hy & ->).
    exists x, y. auto.
  - exists a, b. auto.
Qed.

End ReachableBands.

Lemma band_caches_coherent_witness :
  let st := run ex_K ex_num ex_fcoll
                [Call_Emissivity 10%float None (Some 10.2%float) None;
                 Call_get_energy_per_photon None None] fresh in
  lookup2 10.2%float 1000%float (_conversion_factors st)
  = Some (ex_quad (fun _ => 2%float) 10.2%float 1000%float)
  /\ exists x y,
       (x =? 10.2)%float = true /\ (y =? 1000)%float = true
       /\ fst (_convert_band ex_num ex_fcoll (Some 10.2%float) None st)
          = Ok (ex_quad (fun _ => 2%float) x y).
Proof.
  intros st. split; [vm_compute; reflexivity |].
  destruct (band_caches_coherent ex_K ex_num ex_fcoll st) as (_ & _ & H).
  - apply reachable_run, reachable_fresh.
  - apply (H (Some 10.2%float) None 10.2%float 1000%float); reflexivity.
Defined.

Section ReachableShapes.

Variable K : Constants.
Variable num : Numerics.
Variable pop : Population.

Lemma shaped_eta_owner :
  keeps (fun s => forall a, _eta s = Some a ->
                            is_ham_model pop = true
                            /\ length a = length (halos_z (halos pop)))
        (eta K num pop).
Proof.
  unfold eta.
  destruct (is_ham_model pop) eqn:Hm;
    [change (negb true) with false | change (negb false) with true];
    cbv iota; [| apply keeps_raise].
  apply keeps_bind; [apply keeps_gets |].
  intros [a |]; [apply keeps_ret |].
  apply keeps_bind.
  { apply keeps_modify. intros s _ a Ha. simpl in Ha. injection Ha as <-.
    split; [reflexivity | apply repeat_length]. }
  intros _. apply keeps_bind; [| intros; keeps_steps].
  apply keeps_for_enumerate. intros i z _. unfold eta_body.
  keeps_steps; try (apply owner_Mmin; spare).
  intros a' Ha'. unfold store_eta in Ha'.
  match goal with H : forall _, _eta ?s = _ -> _ |- _ =>
    destruct (_eta s) as [arr |] eqn:E0;
    [destruct (H arr eq_refl) as [_ Hl] | rewrite E0 in Ha'; discriminate]
  end.
  simpl in Ha'. injection Ha' as <-.
  split; [reflexivity | rewrite length_update; exact Hl].
Qed.

Lemma shaped_sfr_ham_owner :
  keeps (fun s => forall g, _sfr_ham_ s = Some g ->
                            length g = length (halos_z (halos pop))
                            /\ rows_of_length
                                 (length (halos_M (halos pop))) g)
        (_sfr_ham K num pop).
Proof.
  unfold _sfr_ham.
  apply keeps_bind; [apply keeps_gets |].
  intros [g |]; [apply keeps_ret |].
  apply keeps_bind.
  { apply keeps_modify. intros s _ g Hg. simpl in Hg. injection Hg as <-.
    split; [apply repeat_length | apply rows_of_length_zeros2]. }
  intros _. apply keeps_bind; [| intros; keeps_steps].
  apply keeps_for_enumerate. intros i z _.
  apply keeps_bind_lift. intros Macc _.
  apply keeps_bind; [apply spared_fstar; spare |]. intros f.
  apply keeps_bind_lift. intros row _.
  apply keeps_bind_lift. intros row' Hrow'.
  apply keeps_modify. intros s H g' Hg'. unfold store_sfr_ham in Hg'.
  destruct (_sfr_ham_ s) as [g0 |] eqn:E0;
    [destruct (H g0 eq_refl) as [Hl Hr] | rewrite E0 in Hg'; discriminate].
  simpl in Hg'. injection Hg' as <-.
  split; [rewrite length_update; exact Hl |].
  apply rows_of_length_update; [exact Hr |].
  apply (broadcast_row_length _ _ _ Hrow').
Qed.

Lemma shaped_sfrd_ham_tab_owner :
  keeps (fun s => forall a, _sfrd_ham_tab_ s = Some a ->
                            length a = length (halos_z (halos pop)))
        (_sfrd_ham_tab K num pop).
Proof.
  unfold _sfrd_ham_tab.
  apply keeps_bind; [apply keeps_gets |].
  intros [a |]; [apply keeps_ret |].
  apply keeps_bind.
  { apply keeps_modify. intros s _ a Ha. simpl in Ha. injection Ha as <-.
    apply repeat_length. }
  intros _. keeps_steps; try (apply spared_sfr_ham; spare);
    try assumption.
  intros a' Ha'. unfold store_sfrd_ham_tab in Ha'.
  match goal with H : forall _, _sfrd_ham_tab_ ?s = _ -> _ |- _ =>
    destruct (_sfrd_ham_tab_ s) as [arr |] eqn:E0;
    [pose proof (H arr eq_refl) as Hl | rewrite E0 in Ha'; discriminate]
  end.
  simpl in Ha'. injection Ha' as <-. rewrite length_update. exact Hl.
Qed.

Lemma shaped_fstar_call z Mh :
  keeps (fun s => _fstar s = true ->
                  is_ham_model pop = true /\ is_user_fstar pop = false)
        (fstar K num pop z Mh).
Proof.
  unfold fstar, is_user_fstar.
  destruct (pop_fstar (pf pop)) as [f0 | f]; [| apply keeps_ret].
  destruct (is_ham_model pop) eqn:Hm;
    [change (negb true) with false | change (negb false) with true];
    cbv iota; [| apply keeps_ret].
  keeps_steps; try (apply spared_fstar_coeff; spare).
  intros _. split; reflexivity.
Qed.

Lemma exec_shaped c st : shaped pop st -> shaped pop (exec K num pop c st).
Proof.
  unfold shaped. cbv zeta. intros (H1 & H2 & H3 & H4).
  split; [| split; [| split]].
  - set (I := fun s => forall a, _eta s = Some a ->
                                 is_ham_model pop = true
                                 /\ length a = length (halos_z (halos pop))).
    change (I (exec K num pop c st)).
    pose proof shaped_eta_owner as He. fold I in He.
    owners K num pop I. apply (calls_exec K num pop I); assumption.
  - set (I := fun s => forall g, _sfr_ham_ s = Some g ->
                                 length g = length (halos_z (halos pop))
                                 /\ rows_of_length
                                      (length (halos_M (halos pop))) g).
    change (I (exec K num pop c st)).
    pose proof shaped_sfr_ham_owner as He. fold I in He.
    owners K num pop I. apply (calls_exec K num pop I); assumption.
  - set (I := fun s => forall a, _sfrd_ham_tab_ s = Some a ->
                                 length a = length (halos_z (halos pop))).
    change (I (exec K num pop c st)).
    pose proof shaped_sfrd_ham_tab_owner as He. fold I in He.
    owners K num pop I. apply (calls_exec K num pop I); assumption.
  - set (I := fun s => _fstar s = true ->
                       is_ham_model pop = true /\ is_user_fstar pop = false).
    change (I (exec K num pop c st)).
    pose proof shaped_fstar_call as He. fold I in He.
    owners K num pop I. apply (calls_exec K num pop I); assumption.
Qed.

(** X23.  In every store an instance can reach, the arrays have the shape
    of the halo tables - [_eta] an entry per redshift, [_sfr_ham_] a row
    per redshift and a column per mass, [_sfrd_ham_tab_] an entry per
    redshift - and the attributes of the abundance match mark an
    abundance-matching population: [_eta] exists, and the efficiency
    function is attached, only where the model is HAM (the function only
    where [pop_fstar] is a number). *)
Theorem reachable_shaped (st : State) :
  reachable K num pop st -> shaped pop st.
Proof.
  induction 1 as [| c st _ IH].
  - unfold shaped. cbv zeta. simpl. repeat split; discriminate.
  - apply exec_shaped, IH.
Qed.

End ReachableShapes.

Lemma reachable_shaped_witness :
  let st := run ex_K ex_num ex_ham_short_Mmin
                [Get_sfrd_ham_tab; Call_SFRD 10%float] fresh in
  (exists a g tab,
      _eta st = Some a /\ _sfr_ham_ st = Some g
      /\ _sfrd_ham_tab_ st = Some tab)
  /\ shaped ex_ham_short_Mmin st.
Proof.
  intros st. split.
  - eexists. eexists. eexists. repeat split; vm_compute; reflexivity.
  - apply (reachable_shaped ex_K ex_num ex_ham_short_Mmin st).
    apply reachable_run, reachable_fresh.
Defined.

Section ReachableDerived.

Variable K : Constants.
Variable num : Numerics.
Variable pop : Population.

(** *** The characteristic luminosities *)

Lemma derived_constraints_owner :
  keeps (fun s => forall l, _constraints s = Some l -> l = L_star_value pop)
        (constraints pop).
Proof.
  intros st H. destruct (_constraints st) as [l |] eqn:E.
  - rewrite (constraints_cached pop st l E). simpl. rewrite E. exact H.
  - rewrite (constraints_uncached_run pop st E). simpl.
    intros l Hl. congruence.
Qed.

(** *** The threshold masses of the array of rates *)

Lemma derived_Mmin_of_z_owner :
  keeps (fun s => forall mz, _Mmin_of_z s = Some mz ->
                             Mmin_of_z_value pop = Ok mz)
        (_sfrd_ham_tab K num pop).
Proof.
  unfold _sfrd_ham_tab.
  apply keeps_bind; [apply keeps_gets |].
  intros [a |]; [apply keeps_ret |].
  apply keeps_bind; [apply keeps_modify; intros s Hs; exact Hs |].
  intros _. apply keeps_bind_lift. intros mz Hmz.
  apply keeps_bind.
  { apply keeps_modify. intros s _ mz' Hmz'. simpl in Hmz'.
    injection Hmz' as <-. exact Hmz. }
  intros _. keeps_steps; try (apply spared_sfr_ham; spare);
    try assumption.
  unfold store_sfrd_ham_tab. destruct (_sfrd_ham_tab_ _); assumption.
Qed.

(** *** The spline *)

Lemma sfrd_ham_uncached st :
  _sfrd_ham_ st = None ->
  _sfrd_ham K num pop st
  = match _sfrd_ham_tab K num pop st with
    | (Raise e, s1) => (Raise e, s1)
    | (Ok tab, s1) =>
        match interp1d_cubic num (halos_z (halos pop)) tab with
        | Raise e => (Raise e, s1)
        | Ok f => (Ok f, set_sfrd_ham (Some f) s1)
        end
    end.
Proof.
  intros E. unfold _sfrd_ham. unfold bind at 1. unfold gets at 1.
  rewrite E. unfold bind at 1.
  destruct (_sfrd_ham_tab K num pop st) as [[tab | e] s1]; [| reflexivity].
  unfold bind at 1. unfold lift at 1.
  destruct (interp1d_cubic _ _ _) as [f | e]; reflexivity.
Qed.

Lemma sfrd_ham_tab_keeps_no_spline st :
  _sfrd_ham_ st = None ->
  _sfrd_ham_ (snd (_sfrd_ham_tab K num pop st)) = None.
Proof.
  apply (spared_sfrd_ham_tab K num pop (fun s => _sfrd_ham_ s = None));
    spare.
Qed.

Lemma derived_spline_tab_owner :
  keeps (fun s => forall f, _sfrd_ham_ s = Some f ->
           exists tab, _sfrd_ham_tab_ s = Some tab
                       /\ interp1d_cubic num (halos_z (halos pop)) tab
                          = Ok f)
        (_sfrd_ham_tab K num pop).
Proof.
  intros st H. destruct (_sfrd_ham_ st) as [f |] eqn:E.
  - destruct (H f eq_refl) as (tab & Ht & _).
    rewrite (sfrd_ham_tab_cached K num pop st tab Ht). simpl. rewrite E.
    exact H.
  - intros f Hf. rewrite (sfrd_ham_tab_keeps_no_spline st E) in Hf.
    discriminate.
Qed.

Lemma derived_spline_owner :
  keeps (fun s => forall f, _sfrd_ham_ s = Some f ->
           exists tab, _sfrd_ham_tab_ s = Some tab
                       /\ interp1d_cubic num (halos_z (halos pop)) tab
                          = Ok f)
        (_sfrd_ham K num pop).
Proof.
  intros st H. destruct (_sfrd_ham_ st) as [f |] eqn:E.
  - rewrite (sfrd_ham_cached K num pop st f E). simpl. rewrite E. exact H.
  - rewrite (sfrd_ham_uncached st E).
    pose proof (sfrd_ham_tab_keeps_no_spline st E) as Hn.
    destruct (_sfrd_ham_tab K num pop st) as [[tab | e] s1] eqn:Et;
      simpl in Hn.
    + pose proof (sfrd_ham_tab_returns_attribute K num pop st tab s1 Et)
        as Ht.
      destruct (interp1d_cubic num (halos_z (halos pop)) tab)
        as [f | e] eqn:Ef; simpl.
      * intros f' Hf'. injection Hf' as <-. exists tab. auto.
      * intros f' Hf'. congruence.
    + simpl. intros f' Hf'. congruence.
Qed.

(** *** The coefficients *)

Lemma derived_coeff_Marr_owner :
  keeps (fun s => forall coeff, _fstar_coeff_ s = Some coeff ->
           exists Marr g,
             _Marr_ s = Some Marr /\ _fstar_ham_pts s = Some g
             /\ curve_fit num (fit_model num pop Marr) (concat g) fit_guess
                = Ok coeff)
        (_Marr num pop).
Proof.
  intros st H. destruct (_fstar_coeff_ st) as [c |] eqn:E.
  - destruct (H c eq_refl) as (Marr & g & HM & _).
    unfold _Marr, bind, gets. simpl. rewrite HM. simpl. rewrite E. exact H.
  - assert (Hn : _fstar_coeff_ (snd (_Marr num pop st)) = None).
    { apply (owner_Marr num pop (fun s => _fstar_coeff_ s = None));
        spare. }
    intros c Hc. congruence.
Qed.

Lemma derived_coeff_grid_owner :
  keeps (fun s => forall coeff, _fstar_coeff_ s = Some coeff ->
           exists Marr g,
             _Marr_ s = Some Marr /\ _fstar_ham_pts s = Some g
             /\ curve_fit num (fit_model num pop Marr) (concat g) fit_guess
                = Ok coeff)
        (_fstar_ham K num pop).
Proof.
  intros st H. destruct (_fstar_coeff_ st) as [c |] eqn:E.
  - destruct (H c eq_refl) as (Marr & g & _ & Hg & _).
    rewrite (fstar_ham_cached K num pop st g Hg). simpl. rewrite E. exact H.
  - assert (Hn : _fstar_coeff_ (snd (_fstar_ham K num pop st)) = None).
    { apply (spared_fstar_ham K num pop (fun s => _fstar_coeff_ s = None));
        spare. }
    intros c Hc. congruence.
Qed.

Lemma fstar_coeff_raise_sets_nothing st e st' :
  _fstar_coeff_ st = None ->
  _fstar_coeff K num pop st = (Raise e, st') ->
  _fstar_coeff_ st' = None.
Proof.
  intros E Hrun. rewrite (fstar_coeff_uncached K num pop st E) in Hrun.
  assert (H1 : _fstar_coeff_ (snd (_Marr num pop st)) = None).
  { apply (owner_Marr num pop (fun s => _fstar_coeff_ s = None));
      spare. }
  destruct (_Marr num pop st) as [[Marr | x] s1]; simpl in H1;
    [| injection Hrun as _ <-; exact H1].
  assert (H2 : _fstar_coeff_ (snd (constraints pop s1)) = None).
  { apply (owner_constraints pop (fun s => _fstar_coeff_ s = None));
      spare. }
  destruct (constraints pop s1) as [[cs | x] s2]; simpl in H2;
    [| injection Hrun as _ <-; exact H2].
  assert (H3 : _fstar_coeff_ (snd (_fstar_ham K num pop s2)) = None).
  { apply (spared_fstar_ham K num pop (fun s => _fstar_coeff_ s = None));
      spare. }
  destruct (_fstar_ham K num pop s2) as [[g | x] s3]; simpl in H3;
    [| injection Hrun as _ <-; exact H3].
  destruct (curve_fit _ _ _ _) as [c | x]; [discriminate |].
  injection Hrun as _ <-. exact H3.
Qed.

Lemma derived_coeff_owner :
  keeps (fun s => forall coeff, _fstar_coeff_ s = Some coeff ->
           exists Marr g,
             _Marr_ s = Some Marr /\ _fstar_ham_pts s = Some g
             /\ curve_fit num (fit_model num pop Marr) (concat g) fit_guess
                = Ok coeff)
        (_fstar_coeff K num pop).
Proof.
  intros st H. destruct (_fstar_coeff_ st) as [c |] eqn:E.
  - rewrite (fstar_coeff_cached K num pop st c E). simpl. rewrite E. exact H.
  - destruct (_fstar_coeff K num pop st) as [[coeff | e] st'] eqn:Er; simpl.
    + intros c Hc.
      rewrite (fstar_coeff_returns_attribute K num pop st coeff st' Er)
        in Hc.
      injection Hc as <-. apply (fstar_coeff_fit K num pop st st' coeff E Er).
    + intros c Hc.
      rewrite (fstar_coeff_raise_sets_nothing st e st' E Er) in Hc.
      discriminate.
Qed.

Lemma exec_derived c st :
  derived num pop st -> derived num pop (exec K num pop c st).
Proof.
  unfold derived. intros (H1 & H2 & H3 & H4).
  split; [| split; [| split]].
  - set (I := fun s => forall l, _constraints s = Some l ->
                                 l = L_star_value pop).
    change (I (exec K num pop c st)).
    pose proof derived_constraints_owner as Ho. fold I in Ho.
    owners K num pop I. apply (calls_exec K num pop I); assumption.
  - set (I := fun s => forall mz, _Mmin_of_z s = Some mz ->
                                  Mmin_of_z_value pop = Ok mz).
    change (I (exec K num pop c st)).
    pose proof derived_Mmin_of_z_owner as Ho. fold I in Ho.
    owners K num pop I. apply (calls_exec K num pop I); assumption.
  - set (I := fun s => forall f, _sfrd_ham_ s = Some f ->
                 exists tab, _sfrd_ham_tab_ s = Some tab
                             /\ interp1d_cubic num (halos_z (halos pop)) tab
                                = Ok f).
    change (I (exec K num pop c st)).
    pose proof derived_spline_tab_owner as Ho1. fold I in Ho1.
    pose proof derived_spline_owner as Ho2. fold I in Ho2.
    owners K num pop I. apply (calls_exec K num pop I); assumption.
  - set (I := fun s => forall coeff, _fstar_coeff_ s = Some coeff ->
                 exists Marr g,
                   _Marr_ s = Some Marr /\ _fstar_ham_pts s = Some g
                   /\ curve_fit num (fit_model num pop Marr) (concat g)
                                fit_guess = Ok coeff).
    change (I (exec K num pop c st)).
    pose proof derived_coeff_Marr_owner as Ho1. fold I in Ho1.
    pose proof derived_coeff_grid_owner as Ho2. fold I in Ho2.
    pose proof derived_coeff_owner as Ho3. fold I in Ho3.
    owners K num pop I. apply (calls_exec K num pop I); assumption.
Qed.

(** X24.  In every store an instance can reach, what the instance has
    derived belongs to what it holds, also after accesses that raised:
    the list [L_star] is the list of the luminosities
    [mAB_to_L(M_star[i], z[i])]; [_Mmin_of_z] holds the threshold masses
    that [_sfrd_ham_tab] computes from the parameters; the spline is the
    cubic interpolant through the redshifts of the halo tables and the
    array [_sfrd_ham_tab_] that the instance holds; and the coefficients
    are the fit to the efficiency grid and the mass grid that the
    instance holds. *)
Theorem reachable_derived (st : State) :
  reachable K num pop st -> derived num pop st.
Proof.
  induction 1 as [| c st _ IH].
  - unfold derived. simpl. repeat split; discriminate.
  - apply exec_derived, IH.
Qed.

End ReachableDerived.

Lemma reachable_derived_witness :
  let st := run ex_K ex_num ex_ham
                [Get_constraints; Call_SFRD 10%float] fresh in
  (exists l mz f coeff,
      _constraints st = Some l /\ _Mmin_of_z st = Some mz
      /\ _sfrd_ham_ st = Some f /\ _fstar_coeff_ st = Some coeff)
  /\ derived ex_num ex_ham st.
Proof.
  intros st. split.
  - do 4 eexists. repeat split; vm_compute; reflexivity.
  - apply (reachable_derived ex_K ex_num ex_ham st).
    apply reachable_run, reachable_fresh.
Defined.

(* ================================================================== *)
(** * Outside the abundance match *)
(* ================================================================== *)

Lemma all_zero_zeros2 n m : all_zero (zeros2 n m).
Proof.
  intros i j v. unfold grid_get, zeros2.
  destruct (nth_error (repeat (zeros m) n) i) as [row |] eqn:E;
    [| discriminate].
  apply nth_error_repeat_inv in E. subst row.
  apply nth_error_repeat_inv.
Qed.

Section OutsideHam.

Variable K : Constants.
Variable num : Numerics.
Variable pop : Population.

Hypothesis not_ham : is_ham_model pop = false.

Lemma eta_never_returns st a : fst (eta K num pop st) = Ok a -> False.
Proof. unfold eta. rewrite not_ham. discriminate. Qed.

Lemma zero_grid_owner :
  keeps (fun s => forall g, _fstar_ham_pts s = Some g -> all_zero g)
        (_fstar_ham K num pop).
Proof.
  unfold _fstar_ham.
  apply keeps_bind; [apply keeps_gets |].
  intros [g |]; [apply keeps_ret |].
  apply keeps_bind; [apply owner_yield_per_sfr; spare |]. intros y.
  apply keeps_bind; [apply keeps_lift |]. intros kappa_UV.
  apply keeps_bind; [apply owner_Marr; spare |]. intros Marr.
  apply keeps_bind; [apply owner_constraints; spare |]. intros c.
  cbv zeta. apply keeps_bind.
  { apply keeps_modify. intros s _ g Hg. simpl in Hg. injection Hg as <-.
    apply all_zero_zeros2. }
  intros _.
  apply keeps_bind; [apply owner_constraints; spare |]. intros c'.
  apply keeps_bind; [| intros; keeps_steps].
  apply keeps_for_enumerate. intros i z _. unfold ham_row.
  keeps_steps; try (apply owner_constraints; spare).
  unfold ham_cell.
  apply keeps_bind; [apply owner_Mmin; spare |]. intros mm.
  apply keeps_bind; [apply keeps_lift |]. intros Mmin_i.
  destruct (_ <? Mmin_i)%float; [apply keeps_ret |].
  apply keeps_bind; [apply keeps_lift |]. intros Macc.
  apply keeps_bind_value with (R := fun _ => False).
  - apply owner_eta; [apply owner_Mmin; spare | spare].
  - intros s e _ He. apply (eta_never_returns s e He).
  - intros e [].
Qed.

Lemma exec_zero_grid c st :
  (forall g, _fstar_ham_pts st = Some g -> all_zero g) ->
  forall g, _fstar_ham_pts (exec K num pop c st) = Some g -> all_zero g.
Proof.
  set (I := fun s => forall g, _fstar_ham_pts s = Some g -> all_zero g).
  intros H. change (I (exec K num pop c st)). change (I st) in H.
  pose proof zero_grid_owner as Ho. fold I in Ho.
  owners K num pop I. apply (calls_exec K num pop I); assumption.
Qed.

(** X25.  Outside the abundance-matching model no efficiency is ever
    stored: in a population that is not HAM, in every store the instance
    can reach - also when [_fstar_ham] was accessed - the efficiency
    grid, if it exists, holds nothing but zeros, because [eta] raises
    before a solved value can be stored. *)
Theorem no_efficiency_outside_ham (st : State) (g : list (list float)) :
  reachable K num pop st ->
  _fstar_ham_pts st = Some g ->
  all_zero g.
Proof.
  intros Hr. revert g. induction Hr as [| c st _ IH].
  - discriminate.
  - apply exec_zero_grid, IH.
Qed.

End OutsideHam.

Lemma no_efficiency_outside_ham_witness :
  let r := _fstar_ham ex_K ex_num ex_fcoll fresh in
  fst r = Raise (AttributeError "eta is a HAM thing!")
  /\ exists g, _fstar_ham_pts (snd r) = Some g /\ all_zero g.
Proof.
  intros r. split; [vm_compute; reflexivity |].
  destruct (_fstar_ham_pts (snd r)) as [g |] eqn:E;
    [| vm_compute in E; discriminate].
  exists g. split; [reflexivity |].
  apply (no_efficiency_outside_ham ex_K ex_num ex_fcoll eq_refl (snd r) g);
    [| exact E].
  apply (reachable_exec ex_K ex_num ex_fcoll Get_fstar_ham fresh).
  apply reachable_fresh.
Defined.
